(** * ts-raycasting: a shallow embedding of [src/index.ts]

    The program casts one ray per screen column through a 2D tile grid.
    This development embeds the vector arithmetic, the colours, the scene
    grid, the ray stepper and caster, the strip renderer, the minimap, the
    key handlers and the movement integrator, and proves the properties
    stated about them (Part IV, and Part VI where rounding decides) and
    further properties of the code (Parts V and VI).  The loading of
    images is not embedded: it is a promise on the browser's image
    loader.

    Number models.  The program is embedded twice.

    In Part I a TypeScript [number] is a real number of the Standard
    Library ([R]): [+ - * /] are the field operations, [Math.sqrt],
    [Math.cos], [Math.sin], [Math.tan] and [Math.PI] are [sqrt], [cos],
    [sin], [tan] and [PI].  This is the program in exact arithmetic: the
    rounding of binary64, its infinities and NaN are outside this model,
    and so is a division by zero; [rayStep] and [norm] guard their
    divisions as the source does, and the depth the renderer divides by is
    positive (lemma [cast_depth_positive]).  Parts IV and V are stated
    over this model.

    In module [B64] the arithmetic kernel (the vectors, [snap],
    [hittingCell], [rayStep], the scene grid and [castRay]) is embedded
    over binary64, the numbers the program runs on.  Part VI is stated
    over it: it holds what exact arithmetic hides, where rounding,
    underflow and the absorption of [EPS] change what the code returns.

    Loops.  A [while] loop is embedded as a function with a fuel argument
    that answers [None] when the fuel runs out before the loop exits. *)

From Stdlib Require Import Reals Lra Lia ZArith List Bool Psatz.
From Stdlib Require Strings.String Strings.Byte Floats.
Import ListNotations.
Import String.StringSyntax.
Import PrimFloat.PrimFloatNotations SpecFloat FloatOps FloatAxioms.
Delimit Scope string_scope with string.
Number Notation PrimFloat.float PrimFloat.parser PrimFloat.printer
  : float_scope.
Set Warnings "-inexact-float".

Open Scope R_scope.

(** * Part I: the program *)

(** ** Comparisons of numbers as booleans

    [a < b], [a <= b], [a > b], [a >= b], [a == b] and [a !== b] of the
    source, as the boolean functions the [if]s of the embedding test. *)

Definition Rltb (a b : R) : bool := if Rlt_dec a b then true else false.
Definition Rleb (a b : R) : bool := if Rle_dec a b then true else false.
Definition Rgtb (a b : R) : bool := Rltb b a.
Definition Rgeb (a b : R) : bool := Rleb b a.
Definition Reqb (a b : R) : bool := if Req_dec_T a b then true else false.
Definition Rneqb (a b : R) : bool := negb (Reqb a b).

(** ** Constants (lines 2-8) *)

Definition EPS : R := 1e-7.
Definition NEAR_CLIPPING_PLANE : R := EPS.
Definition FAR_CLIPPING_PLANE : R := 10.0.
Definition FOV : R := PI / 2.
Definition SCREEN_WIDTH : R := 800.
Definition PLAYER_STEP_LEN : R := 0.5.
Definition PLAYER_SPEED : R := 2.5.

(** ** The parts of [Math] and [Number] the program calls *)

Module Math.

(** [Math.floor] and [Math.ceil]: the result is again a number. *)
Definition floor (v : R) : R := IZR (Int_part v).
Definition ceil (v : R) : R := IZR (- Int_part (- v)).

Definition sign (v : R) : R :=
  if Rgtb v 0 then 1 else if Rltb v 0 then -1 else 0.

Definition abs (v : R) : R := Rabs v.

Definition max (a b : R) : R := Rmax a b.

(** [Number.MIN_VALUE], the least positive double: 2^-1074. *)
Definition MIN_VALUE : R := / 2 ^ 1074.

End Math.

(** ** class Vector2 (lines 10-84) *)

Module Vector2.

Record t : Type := mk { x : R; y : R }.

Definition zero : t := mk 0 0.

Definition fromAngle (angle : R) : t := mk (cos angle) (sin angle).

Definition add (this that : t) : t := mk (x this + x that) (y this + y that).

Definition sub (this that : t) : t := mk (x this - x that) (y this - y that).

Definition mul (this that : t) : t := mk (x this * x that) (y this * y that).

Definition div (this that : t) : t := mk (x this / x that) (y this / y that).

Definition sqrLength (this : t) : R := x this * x this + y this * y this.

Definition length (this : t) : R := sqrt (sqrLength this).

Definition norm (this : t) : t :=
  let len := length this in
  if Reqb len 0 then zero
  else mk (x this / len) (y this / len).

Definition scale (this : t) (value : R) : t :=
  mk (x this * value) (y this * value).

Definition rot90 (this : t) : t := mk (- y this) (x this).

Definition distanceTo (this that : t) : R := length (sub that this).

Definition sqrDistanceTo (this that : t) : R := sqrLength (sub that this).

Definition lerp (this that : t) (alpha : R) : t :=
  add (scale (sub that this) alpha) this.

Definition dot (this that : t) : R := x this * x that + y this * y that.

Definition array (this : t) : R * R := (x this, y this).

End Vector2.

(** ** class Player (lines 86-103) *)

Module Player.

Record t : Type := mk { position : Vector2.t; direction : R }.

Definition fovRange (this : t) : Vector2.t * Vector2.t :=
  let len := tan (FOV * 0.5) * NEAR_CLIPPING_PLANE in
  let p :=
    Vector2.add (position this)
      (Vector2.scale (Vector2.fromAngle (direction this)) NEAR_CLIPPING_PLANE) in
  let p1 :=
    Vector2.sub p
      (Vector2.scale
         (Vector2.norm (Vector2.rot90 (Vector2.sub p (position this)))) len) in
  let p2 :=
    Vector2.add p
      (Vector2.scale
         (Vector2.norm (Vector2.rot90 (Vector2.sub p (position this)))) len) in
  (p1, p2).

End Player.

(** ** class Color (lines 105-159) *)

Module Color.

Record t : Type := mk { r : R; g : R; b : R; a : R }.

(** An element of a [Uint8ClampedArray], as a number. *)
Definition channel (v : Byte.byte) : R := IZR (Z.of_N (Byte.to_N v)).

(** [const [r, g, b, a] = data] reads the first four elements.  With fewer
    than four a channel is [undefined / 255], which is NaN and outside the
    number model: the embedding answers [None] there. *)
Definition fromImageData (data : list Byte.byte) : option t :=
  match data with
  | r :: g :: b :: a :: _ =>
      Some (mk (channel r / 255) (channel g / 255) (channel b / 255)
              (channel a / 255))
  | _ => None
  end.

Definition red : t := mk 1 0 0 1.
Definition green : t := mk 0 1 0 1.
Definition blue : t := mk 0 0 1 1.
Definition yellow : t := mk 1 1 0 1.
Definition purple : t := mk 1 0 1 1.
Definition cyan : t := mk 0 1 1 1.

Definition brightness (this : t) (factor : R) : t :=
  mk (factor * r this) (factor * g this) (factor * b this) (a this).

(** [toStyle] prints these four numbers into an [rgba(...)] string. *)
Definition toStyle (this : t) : R * R * R * R :=
  (Math.floor (r this * 255), Math.floor (g this * 255),
   Math.floor (b this * 255), a this).

End Color.

(** ** The scene (line 161)

    [type Scene = Array<Array<Color | HTMLImageElement | null>>]: a cell is
    [null] (empty), a flat colour or an image.  Of an image the program
    reads only its width and height. *)

Record HTMLImageElement : Type := { img_width : R; img_height : R }.

Inductive Cell : Type :=
| Null
| Flat (color : Color.t)
| Image (img : HTMLImageElement).

Definition Scene : Type := list (list Cell).

(** [arr[i]] for a number [i]: the element when [i] is a non-negative
    integer below the length, [undefined] ([None]) otherwise. *)
Definition get {A : Type} (arr : list A) (i : R) : option A :=
  if Reqb (Math.floor i) i && Rgeb i 0
  then nth_error arr (Z.to_nat (Int_part i))
  else None.

(** [scene[c.y][c.x]].  Where [scene[c.y]] is [undefined] the source would
    throw; every call is guarded by [insideScene], under which the row
    exists (lemma [row_defined_inside]). *)
Definition cellAt (scene : Scene) (c : Vector2.t) : option Cell :=
  match get scene (Vector2.y c) with
  | Some row => get row (Vector2.x c)
  | None => None
  end.

(** [v === null] for the value of a cell lookup ([None] is [undefined]). *)
Definition isNull (v : option Cell) : bool :=
  match v with
  | Some Null => true
  | _ => false
  end.

(** ** snap, hittingCell, rayStep (lines 180-231) *)

Definition snap (x dx : R) : R :=
  if Rgtb dx 0 then Math.ceil (x + EPS)
  else if Rltb dx 0 then Math.floor (x - EPS)
  else x.

Definition hittingCell (p1 p2 : Vector2.t) : Vector2.t :=
  let d := Vector2.sub p2 p1 in
  Vector2.mk
    (Math.floor (Vector2.x p2 + Math.sign (Vector2.x d) * EPS))
    (Math.floor (Vector2.y p2 + Math.sign (Vector2.y d) * EPS)).

Definition rayStep (p1 p2 : Vector2.t) : Vector2.t :=
  let d := Vector2.sub p2 p1 in
  if Rneqb (Vector2.x d) 0 then
    let k := Vector2.y d / Vector2.x d in
    let c := Vector2.y p1 - k * Vector2.x p1 in
    let p3 :=
      let x3 := snap (Vector2.x p2) (Vector2.x d) in
      let y3 := k * x3 + c in
      Vector2.mk x3 y3 in
    if Rneqb k 0 then
      let y3 := snap (Vector2.y p2) (Vector2.y d) in
      let x3 := (y3 - c) / k in
      let p3t := Vector2.mk x3 y3 in
      if Rgtb (Vector2.sqrDistanceTo p2 p3) (Vector2.sqrDistanceTo p2 p3t)
      then p3t
      else p3
    else p3
  else
    let y3 := snap (Vector2.y p2) (Vector2.y d) in
    let x3 := Vector2.x p2 in
    Vector2.mk x3 y3.

(** ** sceneSize, insideScene (lines 233-237, 260-268) *)

Definition sceneSize (scene : Scene) : Vector2.t :=
  let y := INR (length scene) in
  let x :=
    fold_left (fun x row => Math.max x (INR (length row)))
      scene Math.MIN_VALUE in
  Vector2.mk x y.

Definition insideScene (scene : Scene) (p : Vector2.t) : bool :=
  let size := sceneSize scene in
  Rgeb (Vector2.x p) 0 && Rltb (Vector2.x p) (Vector2.x size) &&
  Rgeb (Vector2.y p) 0 && Rltb (Vector2.y p) (Vector2.y size).

(** ** castRay (lines 239-250)

    [castRayLoop] is the [while] loop on its variables [p1] and [p2], with
    [start] the first [p1]; one unit of fuel pays for one test of the loop
    condition. *)

Fixpoint castRayLoop (fuel : nat) (scene : Scene) (start p1 p2 : Vector2.t)
  : option Vector2.t :=
  match fuel with
  | O => None
  | S fuel' =>
      if Rltb (Vector2.sqrDistanceTo start p1) (FAR_CLIPPING_PLANE ^ 2) then
        let c := hittingCell p1 p2 in
        if insideScene scene c && negb (isNull (cellAt scene c))
        then Some p2
        else
          let p3 := rayStep p1 p2 in
          castRayLoop fuel' scene start p2 p3
      else Some p2
  end.

Definition castRay (fuel : nat) (scene : Scene) (p1 p2 : Vector2.t)
  : option Vector2.t :=
  let start := p1 in
  castRayLoop fuel scene start p1 p2.

(** ** renderScene (lines 339-389)

    The drawing surface is outside the program: a call of [ctx.fillRect] or
    [ctx.drawImage] is embedded as the value of its arguments. *)

Record Canvas : Type := { canvas_width : R; canvas_height : R }.

Inductive DrawOp : Type :=
| FillRect (fillStyle : Color.t) (x y w h : R)
| DrawImage (image : HTMLImageElement) (sx sy sw sh dx dy dw dh : R).

(** The body of the column loop after the ray of column [x] has been cast
    to [p] (lines 345-387). *)
Definition renderStrip (canvas : Canvas) (player : Player.t) (scene : Scene)
  (x : R) (p : Vector2.t) : option DrawOp :=
  let stripWidth := Math.ceil (canvas_width canvas / SCREEN_WIDTH) in
  let c := hittingCell (Player.position player) p in
  if insideScene scene c then
    let cell := cellAt scene c in
    let v := Vector2.sub p (Player.position player) in
    let d := Vector2.fromAngle (Player.direction player) in
    let stripHeight := canvas_height canvas / Vector2.dot v d in
    match cell with
    | Some (Flat color) =>
        Some (FillRect (Color.brightness color (1 / Vector2.dot v d))
                (x * stripWidth) ((canvas_height canvas - stripHeight) / 2)
                (stripWidth + 1) stripHeight)
    | Some (Image img) =>
        let t := Vector2.sub p c in
        let u :=
          if (Rltb (Math.abs (Vector2.x t)) EPS
              || Rltb (Math.abs (Vector2.x t - 1)) EPS)
             && Rgtb (Vector2.y t) 0
          then Vector2.y t
          else Vector2.x t in
        let txStep := img_width img / SCREEN_WIDTH in
        let topTx := (canvas_height canvas - stripHeight) / 2 in
        Some (DrawImage img (u * img_width img) 0 txStep (img_height img)
                (x * stripWidth) topTx stripWidth stripHeight)
    | _ => None
    end
  else None.

(** One turn of the column loop: cast, then draw. *)
Definition renderColumn (fuel : nat) (canvas : Canvas) (player : Player.t)
  (scene : Scene) (x : nat) : option (option DrawOp) :=
  let (r1, r2) := Player.fovRange player in
  match castRay fuel scene (Player.position player)
          (Vector2.lerp r1 r2 (INR x / SCREEN_WIDTH)) with
  | Some p => Some (renderStrip canvas player scene (INR x) p)
  | None => None
  end.

(** The column loop: the drawing calls of the columns [xs], in order, or
    [None] when the cast of a column runs out of fuel. *)
Fixpoint renderColumns (fuel : nat) (canvas : Canvas) (player : Player.t)
  (scene : Scene) (xs : list nat) : option (list DrawOp) :=
  match xs with
  | [] => Some []
  | x :: xs' =>
      match renderColumn fuel canvas player scene x with
      | None => None
      | Some drawn =>
          match renderColumns fuel canvas player scene xs' with
          | None => None
          | Some ops =>
              Some (match drawn with
                    | Some op => op :: ops
                    | None => ops
                    end)
          end
      end
  end.

(** [for (let x = 0; x < SCREEN_WIDTH; x++)]. *)
Definition renderScene (fuel : nat) (canvas : Canvas) (player : Player.t)
  (scene : Scene) : option (list DrawOp) :=
  renderColumns fuel canvas player scene (seq 0 800).

(** ** The movement integrator: [frame] up to its call of [renderGame]
    (lines 442-447, 497-520) *)

Record Input : Type := {
  movingForward : bool;
  movingBackward : bool;
  movingLeft : bool;
  movingRight : bool;
  turningLeft : bool;
  turningRight : bool
}.

Record Session : Type := { player : Player.t; prevTimestamp : R }.

Definition velocity (input : Input) (direction : R) : Vector2.t :=
  let velocity := Vector2.zero in
  let velocity :=
    if movingForward input
    then Vector2.add velocity
           (Vector2.scale (Vector2.fromAngle direction) PLAYER_SPEED)
    else velocity in
  let velocity :=
    if movingBackward input
    then Vector2.sub velocity
           (Vector2.scale (Vector2.fromAngle direction) PLAYER_SPEED)
    else velocity in
  let velocity :=
    if movingLeft input
    then Vector2.sub velocity
           (Vector2.rot90
              (Vector2.scale (Vector2.fromAngle direction) PLAYER_SPEED))
    else velocity in
  let velocity :=
    if movingRight input
    then Vector2.add velocity
           (Vector2.rot90
              (Vector2.scale (Vector2.fromAngle direction) PLAYER_SPEED))
    else velocity in
  velocity.

Definition angularVelocity (input : Input) : R :=
  let angularVelocity := 0.0 in
  let angularVelocity :=
    if turningLeft input then angularVelocity - PI * 0.5
    else angularVelocity in
  let angularVelocity :=
    if turningRight input then angularVelocity + PI * 0.5
    else angularVelocity in
  angularVelocity.

(** [towards] of line 517; the velocity is read off the heading before the
    heading is updated, as in the source. *)
Definition towards (input : Input) (s : Session) (timestamp : R) : Vector2.t :=
  let deltaTime := (timestamp - prevTimestamp s) / 1000 in
  Vector2.add (Player.position (player s))
    (Vector2.scale (velocity input (Player.direction (player s))) deltaTime).

Definition frame (scene : Scene) (input : Input) (s : Session) (timestamp : R)
  : Session :=
  let deltaTime := (timestamp - prevTimestamp s) / 1000 in
  let direction :=
    Player.direction (player s) + angularVelocity input * deltaTime in
  let towards := towards input s timestamp in
  let cell :=
    Vector2.mk (Math.floor (Vector2.x towards)) (Math.floor (Vector2.y towards)) in
  let position :=
    if negb (insideScene scene towards) || isNull (cellAt scene cell)
    then towards
    else Player.position (player s) in
  {| player := Player.mk position direction; prevTimestamp := timestamp |}.

(** ** distancePointToLine (lines 252-258) *)

Definition distancePointToLine (p1 p2 p0 : Vector2.t) : R :=
  let A := Vector2.y p2 - Vector2.y p1 in
  let B := Vector2.x p1 - Vector2.x p2 in
  let C := Vector2.x p2 * Vector2.y p1 - Vector2.x p1 * Vector2.y p2 in
  Math.abs ((A * Vector2.x p0 + B * Vector2.y p0 + C) / sqrt (A ^ 2 + B ^ 2)).

(** ** The calls on the drawing context (lines 163-178, 270-337, 391-400)

    [renderMinimap] and [renderGame] are embedded as the list of the calls
    they make on the 2D context, in order.  A style is a CSS string of the
    source or the numbers [Color.toStyle] prints.  The calls of
    [renderScene] are the [DrawOp]s above, each wrapped in [Strip]. *)

Inductive Style : Type :=
| Css (s : String.string)
| Rgba (channels : R * R * R * R).

Inductive CanvasCall : Type :=
| Save
| Restore
| Translate (x y : R)
| Scale (x y : R)
| SetFillStyle (style : Style)
| SetStrokeStyle (style : Style)
| SetLineWidth (w : R)
| CallFillRect (x y w h : R)
| CallDrawImage (image : HTMLImageElement) (dx dy dw dh : R)
| BeginPath
| Arc (x y radius startAngle endAngle : R)
| Fill
| MoveTo (x y : R)
| LineTo (x y : R)
| Stroke
| Strip (op : DrawOp).

Definition canvasSize (canvas : Canvas) : Vector2.t :=
  Vector2.mk (canvas_width canvas) (canvas_height canvas).

Definition fillCircle (center : Vector2.t) (radius : R) : list CanvasCall :=
  [BeginPath;
   Arc (Vector2.x center) (Vector2.y center) radius 0 (2 * PI);
   Fill].

Definition strokeLine (p1 p2 : Vector2.t) : list CanvasCall :=
  [BeginPath;
   MoveTo (Vector2.x p1) (Vector2.y p1);
   LineTo (Vector2.x p2) (Vector2.y p2);
   Stroke].

(** The values [0, 1, 2, ...] a counter takes in
    [for (let i = 0; i < bound; i++)] and in
    [for (let i = 0; i <= bound; i++)]: those below, or up to, [bound]. *)
Definition countBelow (bound : R) : nat := Z.to_nat (- Int_part (- bound)).

Definition countUpTo (bound : R) : nat := Z.to_nat (Int_part bound + 1).

(** The body of the cell loop of [renderMinimap] (lines 290-297). *)
Definition minimapCell (scene : Scene) (x y : nat) : list CanvasCall :=
  match cellAt scene (Vector2.mk (INR x) (INR y)) with
  | Some (Flat color) =>
      [SetFillStyle (Rgba (Color.toStyle color));
       CallFillRect (INR x) (INR y) 1 1]
  | Some (Image img) => [CallDrawImage img (INR x) (INR y) 1 1]
  | _ => []
  end.

(** The two cell loops (lines 288-299). *)
Definition minimapCells (scene : Scene) : list CanvasCall :=
  let gridSize := sceneSize scene in
  flat_map
    (fun y =>
       flat_map (fun x => minimapCell scene x y)
         (seq 0 (countBelow (Vector2.x gridSize))))
    (seq 0 (countBelow (Vector2.y gridSize))).

(** The two loops of grid lines (lines 302-306). *)
Definition minimapGrid (scene : Scene) : list CanvasCall :=
  let gridSize := sceneSize scene in
  flat_map
    (fun x =>
       strokeLine (Vector2.mk (INR x) 0)
         (Vector2.mk (INR x) (Vector2.y gridSize)))
    (seq 0 (countUpTo (Vector2.x gridSize)))
  ++ flat_map
       (fun y =>
          strokeLine (Vector2.mk 0 (INR y))
            (Vector2.mk (Vector2.x gridSize) (INR y)))
       (seq 0 (countUpTo (Vector2.y gridSize))).

Definition renderMinimap (player : Player.t) (position size : Vector2.t)
  (scene : Scene) : list CanvasCall :=
  let gridSize := sceneSize scene in
  let scale := Vector2.div size gridSize in
  let (p1, p2) := Player.fovRange player in
  [Save;
   Translate (Vector2.x position) (Vector2.y position);
   Scale (Vector2.x scale) (Vector2.y scale);
   SetFillStyle (Css "#181818"%string);
   CallFillRect 0 0 (Vector2.x gridSize) (Vector2.y gridSize);
   SetLineWidth 0.06]
  ++ minimapCells scene
  ++ [SetStrokeStyle (Css "#303030"%string)]
  ++ minimapGrid scene
  ++ [SetFillStyle (Css "magenta"%string)]
  ++ fillCircle (Player.position player) 0.2
  ++ [SetStrokeStyle (Css "magenta"%string)]
  ++ strokeLine (Player.position player) p1
  ++ strokeLine (Player.position player) p2
  ++ strokeLine p1 p2
  ++ [Restore].

(** [renderGame]; [None] when a cast of [renderScene] runs out of fuel. *)
Definition renderGame (fuel : nat) (canvas : Canvas) (player : Player.t)
  (scene : Scene) : option (list CanvasCall) :=
  let minimapPosition := Vector2.scale (canvasSize canvas) 0.03 in
  let cellSize := canvas_width canvas * 0.03 in
  let minimapSize := Vector2.scale (sceneSize scene) cellSize in
  match renderScene fuel canvas player scene with
  | None => None
  | Some strips =>
      Some ([SetFillStyle (Css "#181818"%string);
             CallFillRect 0 0 (canvas_width canvas) (canvas_height canvas)]
            ++ map Strip strips
            ++ renderMinimap player minimapPosition minimapSize scene)
  end.

(** ** The key handlers (lines 449-495) *)

Definition keydown (code : String.string) (repeat : bool) (input : Input)
  : Input :=
  if negb repeat then
    if String.eqb code "KeyW"%string then
      {| movingForward := true; movingBackward := movingBackward input;
         movingLeft := movingLeft input; movingRight := movingRight input;
         turningLeft := turningLeft input; turningRight := turningRight input |}
    else if String.eqb code "KeyS"%string then
      {| movingForward := movingForward input; movingBackward := true;
         movingLeft := movingLeft input; movingRight := movingRight input;
         turningLeft := turningLeft input; turningRight := turningRight input |}
    else if String.eqb code "KeyD"%string then
      {| movingForward := movingForward input;
         movingBackward := movingBackward input;
         movingLeft := movingLeft input; movingRight := true;
         turningLeft := turningLeft input; turningRight := turningRight input |}
    else if String.eqb code "KeyA"%string then
      {| movingForward := movingForward input;
         movingBackward := movingBackward input;
         movingLeft := true; movingRight := movingRight input;
         turningLeft := turningLeft input; turningRight := turningRight input |}
    else if String.eqb code "KeyE"%string then
      {| movingForward := movingForward input;
         movingBackward := movingBackward input;
         movingLeft := movingLeft input; movingRight := movingRight input;
         turningLeft := turningLeft input; turningRight := true |}
    else if String.eqb code "KeyQ"%string then
      {| movingForward := movingForward input;
         movingBackward := movingBackward input;
         movingLeft := movingLeft input; movingRight := movingRight input;
         turningLeft := true; turningRight := turningRight input |}
    else input
  else input.

Definition keyup (code : String.string) (repeat : bool) (input : Input)
  : Input :=
  if negb repeat then
    if String.eqb code "KeyW"%string then
      {| movingForward := false; movingBackward := movingBackward input;
         movingLeft := movingLeft input; movingRight := movingRight input;
         turningLeft := turningLeft input; turningRight := turningRight input |}
    else if String.eqb code "KeyS"%string then
      {| movingForward := movingForward input; movingBackward := false;
         movingLeft := movingLeft input; movingRight := movingRight input;
         turningLeft := turningLeft input; turningRight := turningRight input |}
    else if String.eqb code "KeyD"%string then
      {| movingForward := movingForward input;
         movingBackward := movingBackward input;
         movingLeft := movingLeft input; movingRight := false;
         turningLeft := turningLeft input; turningRight := turningRight input |}
    else if String.eqb code "KeyA"%string then
      {| movingForward := movingForward input;
         movingBackward := movingBackward input;
         movingLeft := false; movingRight := movingRight input;
         turningLeft := turningLeft input; turningRight := turningRight input |}
    else if String.eqb code "KeyE"%string then
      {| movingForward := movingForward input;
         movingBackward := movingBackward input;
         movingLeft := movingLeft input; movingRight := movingRight input;
         turningLeft := turningLeft input; turningRight := false |}
    else if String.eqb code "KeyQ"%string then
      {| movingForward := movingForward input;
         movingBackward := movingBackward input;
         movingLeft := movingLeft input; movingRight := movingRight input;
         turningLeft := false; turningRight := turningRight input |}
    else input
  else input.

(** ** The session (lines 438-447, 497-527)

    The program starts with no key down and the player at 0.63 of the scene
    size, heading [PI * 1.25]; the first animation callback only records
    its timestamp.  From then on events arrive one at a time: a key goes
    down or up, or an animation frame is due. *)

Definition noInput : Input :=
  {| movingForward := false; movingBackward := false;
     movingLeft := false; movingRight := false;
     turningLeft := false; turningRight := false |}.

Definition initialPlayer (scene : Scene) : Player.t :=
  Player.mk (Vector2.mul (sceneSize scene) (Vector2.mk 0.63 0.63)) (PI * 1.25).

Definition initialSession (scene : Scene) (timestamp : R) : Session :=
  {| player := initialPlayer scene; prevTimestamp := timestamp |}.

Inductive Event : Type :=
| KeyDown (code : String.string) (repeat : bool)
| KeyUp (code : String.string) (repeat : bool)
| AnimationFrame (timestamp : R).

Definition handle (scene : Scene) (st : Input * Session) (e : Event)
  : Input * Session :=
  match e with
  | KeyDown code repeat => (keydown code repeat (fst st), snd st)
  | KeyUp code repeat => (keyup code repeat (fst st), snd st)
  | AnimationFrame timestamp =>
      (fst st, frame scene (fst st) (snd st) timestamp)
  end.

Definition run (scene : Scene) (st : Input * Session) (events : list Event)
  : Input * Session :=
  fold_left (handle scene) events st.

(** ** The stepper of the earlier version of the file
    ([src/unnamed/part_000], lines 40-42, 58-60, 130-165)

    It differs from [rayStep] in comparing distances, not squared
    distances. *)

Module Part000.

Definition length (this : Vector2.t) : R :=
  sqrt (Vector2.x this * Vector2.x this + Vector2.y this * Vector2.y this).

Definition distanceTo (this that : Vector2.t) : R :=
  length (Vector2.sub that this).

Definition rayStep (p1 p2 : Vector2.t) : Vector2.t :=
  let d := Vector2.sub p2 p1 in
  if Rneqb (Vector2.x d) 0 then
    let k := Vector2.y d / Vector2.x d in
    let c := Vector2.y p1 - k * Vector2.x p1 in
    let p3 :=
      let x3 := snap (Vector2.x p2) (Vector2.x d) in
      let y3 := k * x3 + c in
      Vector2.mk x3 y3 in
    if Rneqb k 0 then
      let y3 := snap (Vector2.y p2) (Vector2.y d) in
      let x3 := (y3 - c) / k in
      let p3t := Vector2.mk x3 y3 in
      if Rgtb (distanceTo p2 p3) (distanceTo p2 p3t)
      then p3t
      else p3
    else p3
  else
    let y3 := snap (Vector2.y p2) (Vector2.y d) in
    let x3 := Vector2.x p2 in
    Vector2.mk x3 y3.

End Part000.

(** * Part I-b: the arithmetic kernel over binary64

    The same functions of [src/index.ts], with a TypeScript [number] as a
    binary64 floating-point number ([PrimFloat.float]): [+ - * /] and
    [Math.sqrt] round to nearest as IEEE 754 prescribes, comparisons are
    the IEEE comparisons ([-0 == 0], NaN compares to nothing).  [Math.cos]
    and [Math.sin] have no counterpart here, so [fromAngle] and [fovRange]
    are left to Part I. *)

Module B64.

Local Open Scope float_scope.

Definition EPS : PrimFloat.float := 1e-7.
Definition NEAR_CLIPPING_PLANE : PrimFloat.float := EPS.
Definition FAR_CLIPPING_PLANE : PrimFloat.float := 10.0.

Module Math.

(** The value of a finite number rounded down to an integer. *)
Definition toZ (v : PrimFloat.float) : Z :=
  match Prim2SF v with
  | S754_finite s m e => Z.shiftl (if s then Z.neg m else Z.pos m) e
  | _ => 0%Z
  end.

(** The number nearest to an integer; the integer itself up to 2^53. *)
Definition ofZ (z : Z) : PrimFloat.float :=
  SF2Prim (binary_normalize prec emax z 0 false).

(** [Math.floor]: a number with a non-negative exponent is an integer
    already, as are the zeros, the infinities and NaN; below 2^52 the
    floor of the value is a number. *)
Definition floor (v : PrimFloat.float) : PrimFloat.float :=
  match Prim2SF v with
  | S754_finite s m e => if (0 <=? e)%Z then v else ofZ (toZ v)
  | _ => v
  end.

(** [Math.ceil(v)] is [-Math.floor(-v)], signed zeros included. *)
Definition ceil (v : PrimFloat.float) : PrimFloat.float := - floor (- v).

(** [Math.sign]: 1, -1, or the argument itself (a zero or NaN). *)
Definition sign (v : PrimFloat.float) : PrimFloat.float :=
  if 0 <? v then 1 else if v <? 0 then -1 else v.

Definition sqrt (v : PrimFloat.float) : PrimFloat.float := PrimFloat.sqrt v.

(** [Math.max] of two numbers: NaN if one is NaN, [+0] over [-0]. *)
Definition max (a b : PrimFloat.float) : PrimFloat.float :=
  if PrimFloat.is_nan a then a
  else if PrimFloat.is_nan b then b
  else if a <? b then b
  else if b <? a then a
  else if PrimFloat.get_sign a then b else a.

(** [Number.MIN_VALUE], the least positive number: 2^-1074. *)
Definition MIN_VALUE : PrimFloat.float := 5e-324.

End Math.

Module Vector2.

Record t : Type := mk { x : PrimFloat.float; y : PrimFloat.float }.

Definition zero : t := mk 0 0.

Definition add (this that : t) : t := mk (x this + x that) (y this + y that).

Definition sub (this that : t) : t := mk (x this - x that) (y this - y that).

Definition mul (this that : t) : t := mk (x this * x that) (y this * y that).

Definition div (this that : t) : t := mk (x this / x that) (y this / y that).

Definition sqrLength (this : t) : PrimFloat.float :=
  x this * x this + y this * y this.

Definition length (this : t) : PrimFloat.float :=
  Math.sqrt (x this * x this + y this * y this).

Definition norm (this : t) : t :=
  let len := length this in
  if len =? 0 then zero
  else mk (x this / len) (y this / len).

Definition scale (this : t) (value : PrimFloat.float) : t :=
  mk (x this * value) (y this * value).

Definition rot90 (this : t) : t := mk (- y this) (x this).

Definition distanceTo (this that : t) : PrimFloat.float :=
  length (sub that this).

Definition sqrDistanceTo (this that : t) : PrimFloat.float :=
  sqrLength (sub that this).

Definition lerp (this that : t) (alpha : PrimFloat.float) : t :=
  add (scale (sub that this) alpha) this.

Definition dot (this that : t) : PrimFloat.float :=
  x this * x that + y this * y that.

End Vector2.

(** [arr[i]]: the element when the number [i] is a non-negative integer
    (or [-0]) below the length, [undefined] ([None]) otherwise. *)
Definition get {A : Type} (arr : list A) (i : PrimFloat.float) : option A :=
  match Prim2SF i with
  | S754_zero _ => nth_error arr 0
  | S754_finite false _ _ =>
      if (Math.floor i =? i)
         && (Math.toZ i <? Z.of_nat (List.length arr))%Z
      then nth_error arr (Z.to_nat (Math.toZ i))
      else None
  | _ => None
  end.

Definition cellAt (scene : Scene) (c : Vector2.t) : option Cell :=
  match get scene (Vector2.y c) with
  | Some row => get row (Vector2.x c)
  | None => None
  end.

Definition snap (x dx : PrimFloat.float) : PrimFloat.float :=
  if 0 <? dx then Math.ceil (x + EPS)
  else if dx <? 0 then Math.floor (x - EPS)
  else x.

Definition hittingCell (p1 p2 : Vector2.t) : Vector2.t :=
  let d := Vector2.sub p2 p1 in
  Vector2.mk
    (Math.floor (Vector2.x p2 + Math.sign (Vector2.x d) * EPS))
    (Math.floor (Vector2.y p2 + Math.sign (Vector2.y d) * EPS)).

Definition rayStep (p1 p2 : Vector2.t) : Vector2.t :=
  let d := Vector2.sub p2 p1 in
  if negb (Vector2.x d =? 0) then
    let k := Vector2.y d / Vector2.x d in
    let c := Vector2.y p1 - k * Vector2.x p1 in
    let p3 :=
      let x3 := snap (Vector2.x p2) (Vector2.x d) in
      let y3 := k * x3 + c in
      Vector2.mk x3 y3 in
    if negb (k =? 0) then
      let y3 := snap (Vector2.y p2) (Vector2.y d) in
      let x3 := (y3 - c) / k in
      let p3t := Vector2.mk x3 y3 in
      if Vector2.sqrDistanceTo p2 p3t <? Vector2.sqrDistanceTo p2 p3
      then p3t
      else p3
    else p3
  else
    let y3 := snap (Vector2.y p2) (Vector2.y d) in
    let x3 := Vector2.x p2 in
    Vector2.mk x3 y3.

(** [array.length], as a number. *)
Definition lengthOf {A : Type} (arr : list A) : PrimFloat.float :=
  Math.ofZ (Z.of_nat (List.length arr)).

Definition sceneSize (scene : Scene) : Vector2.t :=
  let y := lengthOf scene in
  let x := fold_left (fun x row => Math.max x (lengthOf row)) scene Math.MIN_VALUE in
  Vector2.mk x y.

Definition insideScene (scene : Scene) (p : Vector2.t) : bool :=
  let size := sceneSize scene in
  (0 <=? Vector2.x p) && (Vector2.x p <? Vector2.x size) &&
  (0 <=? Vector2.y p) && (Vector2.y p <? Vector2.y size).

(** [FAR_CLIPPING_PLANE ** 2] is written as the product: 10 ** 2 and
    10 * 10 are both 100. *)
Fixpoint castRayLoop (fuel : nat) (scene : Scene) (start p1 p2 : Vector2.t)
  : option Vector2.t :=
  match fuel with
  | O => None
  | S fuel' =>
      if Vector2.sqrDistanceTo start p1
         <? FAR_CLIPPING_PLANE * FAR_CLIPPING_PLANE then
        let c := hittingCell p1 p2 in
        if insideScene scene c && negb (isNull (cellAt scene c))
        then Some p2
        else
          let p3 := rayStep p1 p2 in
          castRayLoop fuel' scene start p2 p3
      else Some p2
  end.

Definition castRay (fuel : nat) (scene : Scene) (p1 p2 : Vector2.t)
  : option Vector2.t :=
  let start := p1 in
  castRayLoop fuel scene start p1 p2.

(** The stepper of the earlier version ([src/unnamed/part_000], lines
    130-165), which compares distances. *)
Module Part000.

Definition rayStep (p1 p2 : Vector2.t) : Vector2.t :=
  let d := Vector2.sub p2 p1 in
  if negb (Vector2.x d =? 0) then
    let k := Vector2.y d / Vector2.x d in
    let c := Vector2.y p1 - k * Vector2.x p1 in
    let p3 :=
      let x3 := snap (Vector2.x p2) (Vector2.x d) in
      let y3 := k * x3 + c in
      Vector2.mk x3 y3 in
    if negb (k =? 0) then
      let y3 := snap (Vector2.y p2) (Vector2.y d) in
      let x3 := (y3 - c) / k in
      let p3t := Vector2.mk x3 y3 in
      if Vector2.distanceTo p2 p3t <? Vector2.distanceTo p2 p3
      then p3t
      else p3
    else p3
  else
    let y3 := snap (Vector2.y p2) (Vector2.y d) in
    let x3 := Vector2.x p2 in
    Vector2.mk x3 y3.

End Part000.

End B64.

(** * Part II: the vocabulary of the statements *)

(** ** The stepper's two candidates, named

    [rayStep] computes its candidates in place.  For a pair with
    [p2.x - p1.x] non-zero, [verticalCrossing] is the [p3] of lines 212-216
    (x snapped to a vertical grid line, y read off the line through [p1] and
    [p2]) and [horizontalCrossing] is the [p3t] of lines 218-220 (y snapped,
    x read off the line).  [verticalRayCrossing] is the [p3] of lines
    225-227, for a pair with [p2.x - p1.x] zero.  Lemma [rayStep_cases]
    states [rayStep] in these terms. *)

Definition slope (p1 p2 : Vector2.t) : R :=
  (Vector2.y p2 - Vector2.y p1) / (Vector2.x p2 - Vector2.x p1).

Definition intercept (p1 p2 : Vector2.t) : R :=
  Vector2.y p1 - slope p1 p2 * Vector2.x p1.

Definition verticalCrossing (p1 p2 : Vector2.t) : Vector2.t :=
  let x3 := snap (Vector2.x p2) (Vector2.x p2 - Vector2.x p1) in
  Vector2.mk x3 (slope p1 p2 * x3 + intercept p1 p2).

Definition horizontalCrossing (p1 p2 : Vector2.t) : Vector2.t :=
  let y3 := snap (Vector2.y p2) (Vector2.y p2 - Vector2.y p1) in
  Vector2.mk ((y3 - intercept p1 p2) / slope p1 p2) y3.

Definition verticalRayCrossing (p1 p2 : Vector2.t) : Vector2.t :=
  Vector2.mk (Vector2.x p2) (snap (Vector2.y p2) (Vector2.y p2 - Vector2.y p1)).

(** ** The loop of castRay, state by state *)

(** The loop variables after [n] turns of the loop body, were the loop not
    to exit: [p1] becomes [p2] and [p2] becomes [rayStep p1 p2]. *)
Fixpoint rayStates (n : nat) (p1 p2 : Vector2.t) : Vector2.t * Vector2.t :=
  match n with
  | O => (p1, p2)
  | S n' => rayStates n' p2 (rayStep p1 p2)
  end.

(** The [break] test of line 243: the cell of the tip is inside the scene
    and is not [null]. *)
Definition hit (scene : Scene) (p1 p2 : Vector2.t) : bool :=
  let c := hittingCell p1 p2 in
  insideScene scene c && negb (isNull (cellAt scene c)).

(** The loop condition of line 241 fails: [p1] is at least
    [FAR_CLIPPING_PLANE] away from [start]. *)
Definition clipped (start p1 : Vector2.t) : bool :=
  negb (Rltb (Vector2.sqrDistanceTo start p1) (FAR_CLIPPING_PLANE ^ 2)).

(** The loop exits in the state [(p1, p2)]. *)
Definition exits (scene : Scene) (start : Vector2.t)
  (s : Vector2.t * Vector2.t) : bool :=
  clipped start (fst s) || hit scene (fst s) (snd s).

(** The point at parameter [a] on the ray from [P] through [T]. *)
Definition rayPoint (P T : Vector2.t) (a : R) : Vector2.t :=
  Vector2.add P (Vector2.scale (Vector2.sub T P) a).

(** Fuel for any cast along a proper ray: [FAR_CLIPPING_PLANE / EPS] turns
    of the loop, each at least [EPS] long, and two more tests of the loop
    condition. *)
Definition castRayFuel : nat := Z.to_nat 100000002.

(** ** The movement integrator and the strip renderer *)

(** The floor cell of a point (line 518). *)
Definition floorCell (p : Vector2.t) : Vector2.t :=
  Vector2.mk (Math.floor (Vector2.x p)) (Math.floor (Vector2.y p)).

(** The test of line 519 on the candidate position. *)
Definition commits (scene : Scene) (towards : Vector2.t) : bool :=
  negb (insideScene scene towards) || isNull (cellAt scene (floorCell towards)).

(** Where a drawing call puts its strip: the y of its top edge and its
    height on the canvas. *)
Definition opTop (op : DrawOp) : R :=
  match op with
  | FillRect _ _ y _ _ => y
  | DrawImage _ _ _ _ _ _ dy _ _ => dy
  end.

Definition opHeight (op : DrawOp) : R :=
  match op with
  | FillRect _ _ _ _ h => h
  | DrawImage _ _ _ _ _ _ _ _ dh => dh
  end.

(** [v.dot(d)] of line 351: the hit vector projected on the view
    direction. *)
Definition viewDepth (player : Player.t) (p : Vector2.t) : R :=
  Vector2.dot (Vector2.sub p (Player.position player))
    (Vector2.fromAngle (Player.direction player)).

(** Where a drawing call puts its strip across the canvas: the x of its
    left edge and its width. *)
Definition opLeft (op : DrawOp) : R :=
  match op with
  | FillRect _ x _ _ _ => x
  | DrawImage _ _ _ _ _ dx _ _ _ => dx
  end.

Definition opWidth (op : DrawOp) : R :=
  match op with
  | FillRect _ _ _ w _ => w
  | DrawImage _ _ _ _ _ _ _ dw _ => dw
  end.

(** A flag as the number of keys it counts for. *)
Definition bit (b : bool) : R := if b then 1 else 0.

(** A call that saves, restores or changes the transform of the context. *)
Definition isTransform (c : CanvasCall) : bool :=
  match c with
  | Save | Restore | Translate _ _ | Scale _ _ => true
  | _ => false
  end.

(** ** Scenes, players and inputs of the examples *)

(** A one-cell scene holding a wall, and a one-cell empty scene. *)
Definition oneWall : Scene := [[Flat Color.red]].

Definition emptyRoom : Scene := [[Null]].

(** The scene of the program (lines 416-424), over its two images. *)
Definition demoScene (forest wall : HTMLImageElement) : Scene :=
  let F := Image forest in
  let W := Image wall in
  let o := Null in
  [ [F; W; Flat Color.cyan; F; o; o; o; o; o; o];
    [o; o; o; Flat Color.yellow; o; o; o; o; o; o];
    [o; Flat Color.red; Flat Color.green; Flat Color.blue; o; o; o; o; o; o];
    [o; o; o; o; o; o; o; o; o; o];
    [o; o; o; o; o; W; o; o; o; o];
    [W; W; W; o; W; W; o; o; o; F];
    [W; o; o; o; o; W; W; W; W; F] ].

Definition tile : HTMLImageElement := {| img_width := 64; img_height := 64 |}.

(** Only the advance key is down. *)
Definition forwardOnly : Input :=
  {| movingForward := true; movingBackward := false;
     movingLeft := false; movingRight := false;
     turningLeft := false; turningRight := false |}.

(** A corridor of three open cells closed by a red wall; a player at
    (1, 0.5) looking east along it; a canvas 1600 wide and 400 high. *)
Definition corridor : Scene := [[Null; Null; Null; Flat Color.red]].

Definition watcher : Player.t := Player.mk (Vector2.mk 1 0.5) 0.

Definition screen400 : Canvas := {| canvas_width := 1600; canvas_height := 400 |}.

(** A hall of twelve open cells closed by a red wall in column 12, beyond
    the far plane for a watcher at (1, 0.5). *)
Definition farHall : Scene :=
  [[Null; Null; Null; Null; Null; Null; Null; Null; Null; Null; Null; Null;
    Flat Color.red]].

(** The corridor closed by an image instead of the red wall. *)
Definition gallery : Scene := [[Null; Null; Null; Image tile]].

(** ** The binary64 kernel *)

(** The two candidates of [B64.rayStep], named as in exact arithmetic:
    the [p3] of lines 212-216 and the [p3t] of lines 218-220. *)
Definition slope64 (p1 p2 : B64.Vector2.t) : PrimFloat.float :=
  ((B64.Vector2.y p2 - B64.Vector2.y p1)
   / (B64.Vector2.x p2 - B64.Vector2.x p1))%float.

Definition intercept64 (p1 p2 : B64.Vector2.t) : PrimFloat.float :=
  (B64.Vector2.y p1 - slope64 p1 p2 * B64.Vector2.x p1)%float.

Definition verticalCrossing64 (p1 p2 : B64.Vector2.t) : B64.Vector2.t :=
  let x3 :=
    B64.snap (B64.Vector2.x p2) (B64.Vector2.x p2 - B64.Vector2.x p1)%float in
  B64.Vector2.mk x3 (slope64 p1 p2 * x3 + intercept64 p1 p2)%float.

Definition horizontalCrossing64 (p1 p2 : B64.Vector2.t) : B64.Vector2.t :=
  let y3 :=
    B64.snap (B64.Vector2.y p2) (B64.Vector2.y p2 - B64.Vector2.y p1)%float in
  B64.Vector2.mk ((y3 - intercept64 p1 p2) / slope64 p1 p2)%float y3.

(** The [break] test of line 243 and the negated loop condition of line
    241, in binary64. *)
Definition hit64 (scene : Scene) (p1 p2 : B64.Vector2.t) : bool :=
  let c := B64.hittingCell p1 p2 in
  B64.insideScene scene c && negb (isNull (B64.cellAt scene c)).

Definition clipped64 (start p1 : B64.Vector2.t) : bool :=
  negb (B64.Vector2.sqrDistanceTo start p1
        <? B64.FAR_CLIPPING_PLANE * B64.FAR_CLIPPING_PLANE)%float.

(** The integers [z], [z + 1], ... , [count] of them, and the grid lines
    from [-bound] to [bound]. *)
Fixpoint upFrom (z : Z) (count : nat) : list Z :=
  match count with
  | O => []
  | S count' => z :: upFrom (z + 1) count'
  end.

Definition gridLines (bound : nat) : list Z :=
  upFrom (- Z.of_nat bound) (2 * bound + 1).

(** From the grid line [n], [snap] goes up to [n + 1] and down to
    [n - 1]. *)
Definition snapsToNext (n : Z) : bool :=
  (B64.snap (B64.Math.ofZ n) 1 =? B64.Math.ofZ (n + 1))%float
  && (B64.snap (B64.Math.ofZ n) (-1) =? B64.Math.ofZ (n - 1))%float.

(** ** Tactics *)

(** Linear arithmetic over the constants of the program. *)
Ltac lra_eps := unfold EPS, FAR_CLIPPING_PLANE; simpl; lra.

(** Decides one comparison of the goal by linear arithmetic and rewrites
    it to its truth value. *)
Ltac Rbool_step c :=
  let H := fresh "Hcmp" in
  first
    [ assert (H : c = true)
        by (unfold Rgtb, Rgeb, Rneqb, Rltb, Rleb, Reqb;
            repeat match goal with
              | |- context [Rlt_dec ?a ?b] => destruct (Rlt_dec a b)
              | |- context [Rle_dec ?a ?b] => destruct (Rle_dec a b)
              | |- context [Req_dec_T ?a ?b] => destruct (Req_dec_T a b)
              end; first [reflexivity | exfalso; lra_eps])
    | assert (H : c = false)
        by (unfold Rgtb, Rgeb, Rneqb, Rltb, Rleb, Reqb;
            repeat match goal with
              | |- context [Rlt_dec ?a ?b] => destruct (Rlt_dec a b)
              | |- context [Rle_dec ?a ?b] => destruct (Rle_dec a b)
              | |- context [Req_dec_T ?a ?b] => destruct (Req_dec_T a b)
              end; first [reflexivity | exfalso; lra_eps]) ];
  rewrite H; clear H.

Ltac Rbool :=
  repeat match goal with
    | |- context [Rltb ?a ?b] => Rbool_step (Rltb a b)
    | |- context [Rleb ?a ?b] => Rbool_step (Rleb a b)
    | |- context [Rgtb ?a ?b] => Rbool_step (Rgtb a b)
    | |- context [Rgeb ?a ?b] => Rbool_step (Rgeb a b)
    | |- context [Rneqb ?a ?b] => Rbool_step (Rneqb a b)
    | |- context [Reqb ?a ?b] => Rbool_step (Reqb a b)
    end.

(** Splits the goal on the key a handler was called with. *)
Ltac key_cases :=
  repeat match goal with
    | |- context [String.eqb ?a ?b] =>
        let E := fresh "E" in
        destruct (String.eqb a b) eqn:E; cbv iota beta
    end.

(** * Part III: facts about the embedding *)

(** ** The boolean comparisons decide the order of [R] *)

Lemma Rltb_true a b : a < b -> Rltb a b = true.
Proof.
  intros H. unfold Rltb. destruct (Rlt_dec a b); [reflexivity | contradiction].
Qed.

Lemma Rltb_false a b : b <= a -> Rltb a b = false.
Proof. intros H. unfold Rltb. destruct (Rlt_dec a b); [lra | reflexivity]. Qed.

Lemma Rltb_iff a b : Rltb a b = true <-> a < b.
Proof.
  unfold Rltb. destruct (Rlt_dec a b); split; intros; try discriminate; tauto.
Qed.

Lemma Rltb_iff_false a b : Rltb a b = false <-> b <= a.
Proof.
  unfold Rltb. destruct (Rlt_dec a b); split; intros; try discriminate;
    try reflexivity; lra.
Qed.

Lemma Rleb_true a b : a <= b -> Rleb a b = true.
Proof.
  intros H. unfold Rleb. destruct (Rle_dec a b); [reflexivity | contradiction].
Qed.

Lemma Rleb_false a b : b < a -> Rleb a b = false.
Proof. intros H. unfold Rleb. destruct (Rle_dec a b); [lra | reflexivity]. Qed.

Lemma Rleb_iff a b : Rleb a b = true <-> a <= b.
Proof.
  unfold Rleb. destruct (Rle_dec a b); split; intros; try discriminate; tauto.
Qed.

Lemma Rgtb_true a b : b < a -> Rgtb a b = true.
Proof. apply Rltb_true. Qed.

Lemma Rgtb_false a b : a <= b -> Rgtb a b = false.
Proof. apply Rltb_false. Qed.

Lemma Rgtb_iff a b : Rgtb a b = true <-> b < a.
Proof. apply Rltb_iff. Qed.

Lemma Rgeb_true a b : b <= a -> Rgeb a b = true.
Proof. apply Rleb_true. Qed.

Lemma Rgeb_false a b : a < b -> Rgeb a b = false.
Proof. apply Rleb_false. Qed.

Lemma Rgeb_iff a b : Rgeb a b = true <-> b <= a.
Proof. apply Rleb_iff. Qed.

Lemma Reqb_true a b : a = b -> Reqb a b = true.
Proof.
  intros H. unfold Reqb. destruct (Req_dec_T a b); [reflexivity | contradiction].
Qed.

Lemma Reqb_false a b : a <> b -> Reqb a b = false.
Proof.
  intros H. unfold Reqb. destruct (Req_dec_T a b); [contradiction | reflexivity].
Qed.

Lemma Reqb_iff a b : Reqb a b = true <-> a = b.
Proof.
  unfold Reqb. destruct (Req_dec_T a b); split; intros; try discriminate; tauto.
Qed.

Lemma Rneqb_true a b : a <> b -> Rneqb a b = true.
Proof. intros H. unfold Rneqb. now rewrite Reqb_false. Qed.

Lemma Rneqb_false a b : a = b -> Rneqb a b = false.
Proof. intros H. unfold Rneqb. now rewrite Reqb_true. Qed.

Lemma Rneqb_iff a b : Rneqb a b = true <-> a <> b.
Proof.
  unfold Rneqb, Reqb. destruct (Req_dec_T a b); simpl; split; intros;
    try discriminate; tauto.
Qed.

(** ** floor, ceil, sign *)

Lemma EPS_pos : 0 < EPS.
Proof. unfold EPS. lra. Qed.

Lemma floor_bounds v : Math.floor v <= v < Math.floor v + 1.
Proof. unfold Math.floor. destruct (base_Int_part v). lra. Qed.

Lemma floor_unique v (n : Z) : IZR n <= v < IZR n + 1 -> Math.floor v = IZR n.
Proof.
  intros H. unfold Math.floor. f_equal. symmetry. apply Int_part_spec. lra.
Qed.

Lemma Int_part_unique v (n : Z) : IZR n <= v < IZR n + 1 -> Int_part v = n.
Proof. intros H. symmetry. apply Int_part_spec. lra. Qed.

Lemma ceil_bounds v : Math.ceil v - 1 < v <= Math.ceil v.
Proof.
  unfold Math.ceil. rewrite opp_IZR. destruct (base_Int_part (- v)). lra.
Qed.

Lemma ceil_unique v (n : Z) : IZR n - 1 < v <= IZR n -> Math.ceil v = IZR n.
Proof.
  intros H. unfold Math.ceil. f_equal.
  assert (E : (- n)%Z = Int_part (- v)).
  { apply Int_part_spec. rewrite opp_IZR. lra. }
  rewrite <- E. lia.
Qed.

Lemma floor_IZR (n : Z) : Math.floor (IZR n) = IZR n.
Proof. apply floor_unique. lra. Qed.

Lemma MIN_VALUE_pos : 0 < Math.MIN_VALUE.
Proof. unfold Math.MIN_VALUE. apply Rinv_0_lt_compat, pow_lt. lra. Qed.

Lemma MIN_VALUE_le_1 : Math.MIN_VALUE <= 1.
Proof.
  unfold Math.MIN_VALUE.
  assert (H : 1 <= 2 ^ 1074) by (apply pow_R1_Rle; lra).
  pose proof (Rinv_le_contravar 1 (2 ^ 1074) Rlt_0_1 H) as Hi.
  rewrite Rinv_1 in Hi. exact Hi.
Qed.

Lemma sign_pos v : 0 < v -> Math.sign v = 1.
Proof. intros H. unfold Math.sign. now rewrite Rgtb_true. Qed.

Lemma sign_neg v : v < 0 -> Math.sign v = -1.
Proof.
  intros H. unfold Math.sign. rewrite Rgtb_false by lra. now rewrite Rltb_true.
Qed.

Lemma sign_zero : Math.sign 0 = 0.
Proof.
  unfold Math.sign. rewrite Rgtb_false by lra. now rewrite Rltb_false by lra.
Qed.

(** ** Vectors *)

Lemma vec_ext (u v : Vector2.t) :
  Vector2.x u = Vector2.x v -> Vector2.y u = Vector2.y v -> u = v.
Proof. destruct u, v; simpl; intros -> ->; reflexivity. Qed.

Lemma sqrLength_nonneg (v : Vector2.t) : 0 <= Vector2.sqrLength v.
Proof. unfold Vector2.sqrLength. nra. Qed.

Lemma sqrLength_zero_iff (v : Vector2.t) :
  Vector2.sqrLength v = 0 <-> v = Vector2.zero.
Proof.
  split.
  - unfold Vector2.sqrLength. intros H. apply vec_ext; simpl; nra.
  - intros ->. unfold Vector2.sqrLength, Vector2.zero. simpl. lra.
Qed.

Lemma length_zero_iff (v : Vector2.t) :
  Vector2.length v = 0 <-> v = Vector2.zero.
Proof.
  unfold Vector2.length. split.
  - intros H. apply sqrLength_zero_iff.
    apply sqrt_eq_0; [apply sqrLength_nonneg | exact H].
  - intros ->. replace (Vector2.sqrLength Vector2.zero) with 0.
    + apply sqrt_0.
    + unfold Vector2.sqrLength, Vector2.zero. simpl. lra.
Qed.

Lemma length_pos (v : Vector2.t) : v <> Vector2.zero -> 0 < Vector2.length v.
Proof.
  intros H. unfold Vector2.length.
  destruct (sqrt_pos (Vector2.sqrLength v)) as [Hp | Hz]; [exact Hp |].
  exfalso. apply H. apply length_zero_iff. unfold Vector2.length.
  now rewrite <- Hz.
Qed.

Lemma sqrDistanceTo_self (p : Vector2.t) : Vector2.sqrDistanceTo p p = 0.
Proof.
  unfold Vector2.sqrDistanceTo, Vector2.sqrLength, Vector2.sub. simpl. ring.
Qed.

Lemma rayStep_cases (p1 p2 : Vector2.t) :
  rayStep p1 p2 =
  if Rneqb (Vector2.x p2 - Vector2.x p1) 0 then
    if Rneqb (slope p1 p2) 0 then
      if Rgtb (Vector2.sqrDistanceTo p2 (verticalCrossing p1 p2))
              (Vector2.sqrDistanceTo p2 (horizontalCrossing p1 p2))
      then horizontalCrossing p1 p2
      else verticalCrossing p1 p2
    else verticalCrossing p1 p2
  else verticalRayCrossing p1 p2.
Proof. reflexivity. Qed.

Lemma snap_integer (x dx : R) : dx <> 0 -> exists n : Z, snap x dx = IZR n.
Proof.
  intros H. unfold snap.
  destruct (Rgtb dx 0) eqn:Hp.
  - eexists. unfold Math.ceil. reflexivity.
  - destruct (Rltb dx 0) eqn:Hn.
    + eexists. unfold Math.floor. reflexivity.
    + exfalso. apply H.
      unfold Rgtb in Hp. apply Rltb_iff_false in Hp, Hn. lra.
Qed.

Lemma slope_nonzero_dy (p1 p2 : Vector2.t) :
  slope p1 p2 <> 0 -> Vector2.y p2 - Vector2.y p1 <> 0.
Proof.
  unfold slope. intros H E. apply H. rewrite E. unfold Rdiv. ring.
Qed.

(** * Part IV: the stated properties *)

(** ** Vector2.lerp and Vector2.norm *)

(** In exact arithmetic [lerp(a, b, 0)] is [a] and [lerp(a, b, 1)] is
    [b]; [lerp(a, b, alpha)] is [a + (b - a) * alpha], and it is affine in
    [alpha]: it maps an affine combination of two parameters to the same
    affine combination of their images.  (In binary64: theorem
    [lerp_endpoints_rounded].) *)
Theorem lerp_endpoints_affine (a b : Vector2.t) :
  Vector2.lerp a b 0 = a /\
  Vector2.lerp a b 1 = b /\
  (forall alpha,
      Vector2.lerp a b alpha
      = Vector2.add a (Vector2.scale (Vector2.sub b a) alpha)) /\
  (forall s alpha beta,
      Vector2.lerp a b (s * alpha + (1 - s) * beta)
      = Vector2.add (Vector2.scale (Vector2.lerp a b alpha) s)
          (Vector2.scale (Vector2.lerp a b beta) (1 - s))).
Proof.
  destruct a as [ax ay], b as [bx b_y].
  unfold Vector2.lerp, Vector2.add, Vector2.scale, Vector2.sub; simpl.
  repeat split; intros; f_equal; ring.
Qed.

(** In exact arithmetic [norm] never divides by zero.  Of the zero vector
    it returns the zero vector; of any other vector the length is not zero
    and the result is the vector divided by its Euclidean length.  (In
    binary64: theorem [norm_zero_length].) *)
Theorem norm_total (v : Vector2.t) :
  Vector2.norm Vector2.zero = Vector2.zero /\
  (v <> Vector2.zero ->
   Vector2.length v <> 0 /\
   Vector2.length v = sqrt (Vector2.x v * Vector2.x v + Vector2.y v * Vector2.y v) /\
   Vector2.norm v
   = Vector2.mk (Vector2.x v / Vector2.length v)
       (Vector2.y v / Vector2.length v)).
Proof.
  split.
  - unfold Vector2.norm.
    rewrite Reqb_true; [reflexivity | now apply length_zero_iff].
  - intros Hv. pose proof (length_pos v Hv) as Hl.
    split; [lra |]. split; [reflexivity |].
    unfold Vector2.norm. rewrite Reqb_false by lra. reflexivity.
Qed.

(** The vector (3, 4) has length 5 and is normalised to (3/5, 4/5). *)
Lemma norm_total_witness :
  Vector2.length (Vector2.mk 3 4) = 5 /\
  Vector2.norm (Vector2.mk 3 4) = Vector2.mk (3 / 5) (4 / 5).
Proof.
  assert (Hl : Vector2.length (Vector2.mk 3 4) = 5).
  { unfold Vector2.length, Vector2.sqrLength; simpl.
    apply sqrt_lem_1; lra. }
  assert (Hv : Vector2.mk 3 4 <> Vector2.zero).
  { unfold Vector2.zero. intros E. injection E. lra. }
  split; [exact Hl |].
  destruct (proj2 (norm_total (Vector2.mk 3 4)) Hv) as (_ & _ & Hn).
  rewrite Hn, Hl. reflexivity.
Defined.

(** ** rayStep *)

(** C3: when [p2 - p1] is not the zero vector, the point [rayStep] returns
    is one of its candidates, and its coordinate on the axis that candidate
    snapped is within [EPS] of an integer (it is that integer): the x
    coordinate for the vertical-line candidate, the y coordinate for the
    horizontal-line candidate and for the candidate of a vertical ray. *)
Theorem rayStep_on_grid_line (p1 p2 : Vector2.t) :
  Vector2.sub p2 p1 <> Vector2.zero ->
  exists n : Z,
    (Vector2.x p2 - Vector2.x p1 <> 0 /\
     rayStep p1 p2 = verticalCrossing p1 p2 /\
     Vector2.x (rayStep p1 p2) = snap (Vector2.x p2) (Vector2.x p2 - Vector2.x p1) /\
     Rabs (Vector2.x (rayStep p1 p2) - IZR n) < EPS)
    \/
    (Vector2.y p2 - Vector2.y p1 <> 0 /\
     (rayStep p1 p2 = horizontalCrossing p1 p2 \/
      rayStep p1 p2 = verticalRayCrossing p1 p2) /\
     Vector2.y (rayStep p1 p2) = snap (Vector2.y p2) (Vector2.y p2 - Vector2.y p1) /\
     Rabs (Vector2.y (rayStep p1 p2) - IZR n) < EPS).
Proof.
  intros Hd. rewrite rayStep_cases.
  assert (Hz : forall r n, r = IZR n -> Rabs (r - IZR n) < EPS).
  { intros r n ->. replace (IZR n - IZR n) with 0 by ring.
    rewrite Rabs_R0. apply EPS_pos. }
  destruct (Rneqb (Vector2.x p2 - Vector2.x p1) 0) eqn:Hdx.
  - apply Rneqb_iff in Hdx.
    destruct (snap_integer (Vector2.x p2) _ Hdx) as [nx Hnx].
    destruct (Rneqb (slope p1 p2) 0) eqn:Hk.
    + apply Rneqb_iff in Hk. pose proof (slope_nonzero_dy _ _ Hk) as Hdy.
      destruct (snap_integer (Vector2.y p2) _ Hdy) as [ny Hny].
      destruct (Rgtb _ _).
      * exists ny. right. simpl. auto.
      * exists nx. left. simpl. auto.
    + exists nx. left. simpl. auto.
  - assert (Hx0 : Vector2.x p2 - Vector2.x p1 = 0).
    { unfold Rneqb in Hdx. apply negb_false_iff, Reqb_iff in Hdx. exact Hdx. }
    assert (Hdy : Vector2.y p2 - Vector2.y p1 <> 0).
    { intros Hy0. apply Hd. unfold Vector2.sub, Vector2.zero. now f_equal. }
    destruct (snap_integer (Vector2.y p2) _ Hdy) as [ny Hny].
    exists ny. right. simpl. auto.
Qed.

(** Evaluating [snap] at a given point. *)
Lemma snap_up (x dx : R) (n : Z) :
  0 < dx -> IZR n - 1 < x + EPS <= IZR n -> snap x dx = IZR n.
Proof.
  intros Hd Hx. unfold snap. rewrite Rgtb_true by exact Hd.
  now apply ceil_unique.
Qed.

Lemma snap_down (x dx : R) (n : Z) :
  dx < 0 -> IZR n <= x - EPS < IZR n + 1 -> snap x dx = IZR n.
Proof.
  intros Hd Hx. unfold snap. rewrite Rgtb_false by lra.
  rewrite Rltb_true by exact Hd. now apply floor_unique.
Qed.

Lemma snap_still (x dx : R) : dx = 0 -> snap x dx = x.
Proof.
  intros ->. unfold snap. rewrite Rgtb_false by lra.
  now rewrite Rltb_false by lra.
Qed.

(** From (0, 0) through (1/2, 1/4) the next crossing is the vertical grid
    line x = 1, at (1, 1/2). *)
Example rayStep_example :
  rayStep (Vector2.mk 0 0) (Vector2.mk (1 / 2) (1 / 4)) = Vector2.mk 1 (1 / 2).
Proof.
  rewrite rayStep_cases.
  unfold verticalCrossing, horizontalCrossing, intercept, slope,
    Vector2.sqrDistanceTo, Vector2.sqrLength, Vector2.sub; simpl.
  rewrite (snap_up (1 / 2) _ 1) by (unfold EPS; lra).
  rewrite (snap_up (1 / 4) _ 1) by (unfold EPS; lra).
  rewrite Rneqb_true by lra.
  rewrite Rneqb_true by lra.
  rewrite Rgtb_false by lra.
  f_equal; lra.
Qed.

Lemma rayStep_on_grid_line_witness :
  exists n : Z,
    (1 / 2 - 0 <> 0 /\
     rayStep (Vector2.mk 0 0) (Vector2.mk (1 / 2) (1 / 4))
     = verticalCrossing (Vector2.mk 0 0) (Vector2.mk (1 / 2) (1 / 4)) /\
     Vector2.x (rayStep (Vector2.mk 0 0) (Vector2.mk (1 / 2) (1 / 4)))
     = snap (1 / 2) (1 / 2 - 0) /\
     Rabs (Vector2.x (rayStep (Vector2.mk 0 0) (Vector2.mk (1 / 2) (1 / 4)))
           - IZR n) < EPS)
    \/
    (1 / 4 - 0 <> 0 /\
     (rayStep (Vector2.mk 0 0) (Vector2.mk (1 / 2) (1 / 4))
      = horizontalCrossing (Vector2.mk 0 0) (Vector2.mk (1 / 2) (1 / 4)) \/
      rayStep (Vector2.mk 0 0) (Vector2.mk (1 / 2) (1 / 4))
      = verticalRayCrossing (Vector2.mk 0 0) (Vector2.mk (1 / 2) (1 / 4))) /\
     Vector2.y (rayStep (Vector2.mk 0 0) (Vector2.mk (1 / 2) (1 / 4)))
     = snap (1 / 4) (1 / 4 - 0) /\
     Rabs (Vector2.y (rayStep (Vector2.mk 0 0) (Vector2.mk (1 / 2) (1 / 4)))
           - IZR n) < EPS).
Proof.
  apply (rayStep_on_grid_line (Vector2.mk 0 0) (Vector2.mk (1 / 2) (1 / 4))).
  unfold Vector2.sub, Vector2.zero; simpl. intros E. injection E. lra.
Defined.

(** In exact arithmetic: when both candidates exist (the horizontal delta
    and the slope are not zero) and are equally far from [p2], [rayStep]
    returns the vertical-line candidate.  There the two candidates are the
    same point; in binary64 they need not be (theorem
    [rayStep_tie_keeps_vertical]). *)
Theorem rayStep_tie_vertical (p1 p2 : Vector2.t) :
  Vector2.x p2 - Vector2.x p1 <> 0 ->
  slope p1 p2 <> 0 ->
  Vector2.sqrDistanceTo p2 (verticalCrossing p1 p2)
  = Vector2.sqrDistanceTo p2 (horizontalCrossing p1 p2) ->
  rayStep p1 p2 = verticalCrossing p1 p2.
Proof.
  intros Hdx Hk Htie. rewrite rayStep_cases.
  rewrite Rneqb_true by exact Hdx. rewrite Rneqb_true by exact Hk.
  rewrite Rgtb_false; [reflexivity | rewrite Htie; apply Rle_refl].
Qed.

(** On the diagonal from (0, 0) through (1/2, 1/2) both grid lines are
    crossed at the corner (1, 1). *)
Lemma rayStep_tie_vertical_witness :
  rayStep (Vector2.mk 0 0) (Vector2.mk (1 / 2) (1 / 2))
  = verticalCrossing (Vector2.mk 0 0) (Vector2.mk (1 / 2) (1 / 2)).
Proof.
  apply (rayStep_tie_vertical (Vector2.mk 0 0) (Vector2.mk (1 / 2) (1 / 2))).
  - simpl. lra.
  - unfold slope; simpl. lra.
  - unfold verticalCrossing, horizontalCrossing, intercept, slope,
      Vector2.sqrDistanceTo, Vector2.sqrLength, Vector2.sub; simpl.
    rewrite !(snap_up (1 / 2) _ 1) by (unfold EPS; lra).
    lra.
Defined.

(** ** castRay *)

Lemma castRayLoop_unfold fuel scene start p1 p2 :
  castRayLoop (S fuel) scene start p1 p2 =
  if exits scene start (p1, p2) then Some p2
  else castRayLoop fuel scene start p2 (rayStep p1 p2).
Proof.
  unfold exits, clipped, hit. simpl.
  destruct (Rltb _ _); simpl; [| reflexivity].
  destruct (insideScene _ _ && _); reflexivity.
Qed.

Lemma rayStates_S n p1 p2 :
  rayStates (S n) p1 p2 =
  (snd (rayStates n p1 p2),
   rayStep (fst (rayStates n p1 p2)) (snd (rayStates n p1 p2))).
Proof.
  revert p1 p2. induction n as [| n IH]; intros p1 p2.
  - reflexivity.
  - change (rayStates (S (S n)) p1 p2) with (rayStates (S n) p2 (rayStep p1 p2)).
    rewrite IH. reflexivity.
Qed.

(** The loop returns the tip of the first state in which it exits. *)
Lemma castRayLoop_first_exit fuel scene start p1 p2 r :
  castRayLoop fuel scene start p1 p2 = Some r <->
  exists n, (n < fuel)%nat /\
    r = snd (rayStates n p1 p2) /\
    exits scene start (rayStates n p1 p2) = true /\
    forall m, (m < n)%nat -> exits scene start (rayStates m p1 p2) = false.
Proof.
  revert p1 p2. induction fuel as [| fuel IH]; intros p1 p2.
  - split; [discriminate | intros (n & Hn & _); lia].
  - rewrite castRayLoop_unfold.
    destruct (exits scene start (p1, p2)) eqn:He.
    + split.
      * intros [= <-]. exists 0%nat. repeat split; try assumption; [lia |].
        intros m Hm. lia.
      * intros (n & Hn & Hr & Hex & Hbefore).
        destruct n as [| n]; [now subst |].
        specialize (Hbefore 0%nat ltac:(lia)). simpl in Hbefore. congruence.
    + rewrite IH. split.
      * intros (n & Hn & Hr & Hex & Hbefore).
        exists (S n). repeat split; try assumption; [lia |].
        intros [| m] Hm; [exact He |]. apply Hbefore. lia.
      * intros (n & Hn & Hr & Hex & Hbefore).
        destruct n as [| n]; [simpl in Hex; congruence |].
        exists n. repeat split; try assumption; [lia |].
        intros m Hm. apply (Hbefore (S m)). lia.
Qed.

Lemma castRayLoop_more_fuel fuel fuel' scene start p1 p2 r :
  castRayLoop fuel scene start p1 p2 = Some r ->
  (fuel <= fuel')%nat ->
  castRayLoop fuel' scene start p1 p2 = Some r.
Proof.
  rewrite !castRayLoop_first_exit. intros (n & Hn & H) Hle.
  exists n. split; [lia | exact H].
Qed.

Lemma castRayLoop_deterministic fuel fuel' scene start p1 p2 r r' :
  castRayLoop fuel scene start p1 p2 = Some r ->
  castRayLoop fuel' scene start p1 p2 = Some r' ->
  r = r'.
Proof.
  intros H H'.
  apply castRayLoop_more_fuel with (fuel' := Nat.max fuel fuel') in H; [| lia].
  apply castRayLoop_more_fuel with (fuel' := Nat.max fuel fuel') in H'; [| lia].
  congruence.
Qed.

(** A tip whose cell is outside the scene is no hit. *)
Lemma hit_inside scene p1 p2 :
  hit scene p1 p2 = true -> insideScene scene (hittingCell p1 p2) = true.
Proof. unfold hit. intros H. now apply andb_true_iff in H. Qed.

Lemma castRayLoop_exit fuel scene start p1 p2 :
  exits scene start (p1, p2) = true ->
  castRayLoop (S fuel) scene start p1 p2 = Some p2.
Proof. intros H. now rewrite castRayLoop_unfold, H. Qed.

Lemma castRayLoop_continue fuel scene start p1 p2 :
  exits scene start (p1, p2) = false ->
  castRayLoop (S fuel) scene start p1 p2
  = castRayLoop fuel scene start p2 (rayStep p1 p2).
Proof. intros H. now rewrite castRayLoop_unfold, H. Qed.

Lemma clipped_start (p : Vector2.t) : clipped p p = false.
Proof.
  unfold clipped. rewrite sqrDistanceTo_self.
  rewrite Rltb_true; [reflexivity | unfold FAR_CLIPPING_PLANE; lra].
Qed.

(** ** Evaluating the grid functions at given points *)

Lemma get_IZR {A : Type} (arr : list A) (z : Z) :
  (0 <= z)%Z -> get arr (IZR z) = nth_error arr (Z.to_nat z).
Proof.
  intros Hz. unfold get. rewrite floor_IZR, Reqb_true by reflexivity.
  rewrite Rgeb_true by (apply IZR_le in Hz; exact Hz). simpl.
  rewrite (Int_part_unique (IZR z) z) by lra. reflexivity.
Qed.

Lemma get_negative {A : Type} (arr : list A) (i : R) :
  i < 0 -> get arr i = None.
Proof.
  intros Hi. unfold get. rewrite (Rgeb_false i 0) by exact Hi.
  now rewrite andb_false_r.
Qed.

Lemma max_MIN_VALUE (v : R) : 1 <= v -> Math.max Math.MIN_VALUE v = v.
Proof.
  intros Hv. unfold Math.max. apply Rmax_right.
  pose proof MIN_VALUE_le_1. lra.
Qed.

Lemma hittingCell_eval (p1 p2 : Vector2.t) (sx sy : R) (cx cy : Z) :
  Math.sign (Vector2.x p2 - Vector2.x p1) = sx ->
  Math.sign (Vector2.y p2 - Vector2.y p1) = sy ->
  IZR cx <= Vector2.x p2 + sx * EPS < IZR cx + 1 ->
  IZR cy <= Vector2.y p2 + sy * EPS < IZR cy + 1 ->
  hittingCell p1 p2 = Vector2.mk (IZR cx) (IZR cy).
Proof.
  intros Hsx Hsy Hx Hy. unfold hittingCell. simpl.
  rewrite Hsx, Hsy.
  rewrite (floor_unique _ cx) by exact Hx.
  rewrite (floor_unique _ cy) by exact Hy.
  reflexivity.
Qed.

Lemma sign_diff_zero (v : R) : Math.sign (v - v) = 0.
Proof. replace (v - v) with 0 by ring. apply sign_zero. Qed.

(** ** The one-cell scene holding a wall, seen from outside *)

Lemma sceneSize_oneWall : sceneSize oneWall = Vector2.mk 1 1.
Proof.
  unfold sceneSize, oneWall. simpl. rewrite max_MIN_VALUE by lra. reflexivity.
Qed.

(** A ray from (2.5, 0.5) through (2, 0.5) travels west towards the wall.
    The cell of its tip is (1, 0), outside the scene. *)
Lemma oneWall_first_cell :
  hittingCell (Vector2.mk 2.5 0.5) (Vector2.mk 2 0.5) = Vector2.mk 1 0.
Proof.
  apply (hittingCell_eval _ _ (-1) 0 1 0); simpl.
  - apply sign_neg. lra.
  - apply sign_diff_zero.
  - lra_eps.
  - lra_eps.
Qed.

Lemma oneWall_first_cell_outside :
  insideScene oneWall (Vector2.mk 1 0) = false.
Proof.
  unfold insideScene. rewrite sceneSize_oneWall. simpl. Rbool. reflexivity.
Qed.

Lemma oneWall_first_step :
  rayStep (Vector2.mk 2.5 0.5) (Vector2.mk 2 0.5) = Vector2.mk 1 0.5.
Proof.
  rewrite rayStep_cases.
  unfold verticalCrossing, horizontalCrossing, intercept, slope; simpl.
  Rbool. rewrite (snap_down 2 _ 1) by lra_eps.
  f_equal; lra.
Qed.

Lemma oneWall_second_cell :
  hittingCell (Vector2.mk 2 0.5) (Vector2.mk 1 0.5) = Vector2.mk 0 0.
Proof.
  apply (hittingCell_eval _ _ (-1) 0 0 0); simpl.
  - apply sign_neg. lra.
  - apply sign_diff_zero.
  - lra_eps.
  - lra_eps.
Qed.

Lemma oneWall_second_hit :
  hit oneWall (Vector2.mk 2 0.5) (Vector2.mk 1 0.5) = true.
Proof.
  unfold hit. rewrite oneWall_second_cell.
  unfold insideScene. rewrite sceneSize_oneWall. simpl.
  Rbool. simpl. unfold cellAt. simpl.
  rewrite (get_IZR oneWall 0) by lia. simpl.
  rewrite (get_IZR _ 0) by lia. reflexivity.
Qed.

Lemma oneWall_first_exits :
  exits oneWall (Vector2.mk 2.5 0.5) (Vector2.mk 2.5 0.5, Vector2.mk 2 0.5)
  = false.
Proof.
  unfold exits. cbn [fst snd]. rewrite clipped_start.
  unfold hit. rewrite oneWall_first_cell, oneWall_first_cell_outside.
  reflexivity.
Qed.

Lemma oneWall_cast :
  castRay 2 oneWall (Vector2.mk 2.5 0.5) (Vector2.mk 2 0.5)
  = Some (Vector2.mk 1 0.5).
Proof.
  unfold castRay. rewrite castRayLoop_continue by apply oneWall_first_exits.
  rewrite oneWall_first_step. apply castRayLoop_exit.
  unfold exits. cbn [fst snd]. rewrite oneWall_second_hit. apply orb_true_r.
Qed.

(** C1, as stated, fails: the cell (1, 0) of the tip (2, 0.5) is outside
    the one-cell scene, yet [castRay] does not return that tip.  It steps on
    to (1, 0.5), where the ray meets the wall, and whatever the fuel it
    returns no other point. *)
Lemma castRay_outside_steps_on :
  insideScene oneWall
    (hittingCell (Vector2.mk 2.5 0.5) (Vector2.mk 2 0.5)) = false /\
  castRay 2 oneWall (Vector2.mk 2.5 0.5) (Vector2.mk 2 0.5)
  = Some (Vector2.mk 1 0.5) /\
  Vector2.mk 1 0.5 <> Vector2.mk 2 0.5 /\
  (forall fuel,
      castRay fuel oneWall (Vector2.mk 2.5 0.5) (Vector2.mk 2 0.5)
      <> Some (Vector2.mk 2 0.5)).
Proof.
  assert (Hne : Vector2.mk 1 0.5 <> Vector2.mk 2 0.5).
  { intros E. injection E. lra. }
  split; [rewrite oneWall_first_cell; apply oneWall_first_cell_outside |].
  split; [apply oneWall_cast |].
  split; [exact Hne |].
  intros fuel H. apply Hne. symmetry.
  exact (castRayLoop_deterministic _ _ _ _ _ _ _ _ H oneWall_cast).
Qed.

(** C1 (amended): [castRay] returns the tip of the first loop state in
    which the loop exits, and the loop exits in a state exactly when the
    previous tip is at least [FAR_CLIPPING_PLANE] from the start or the cell
    of the tip, computed by [hittingCell], is inside the scene and not
    [null].  A tip whose cell is outside the scene does not stop the cast:
    short of the clipping distance the loop steps on with [rayStep]. *)
Theorem castRay_first_exit (fuel : nat) (scene : Scene) (p1 p2 r : Vector2.t) :
  (castRay fuel scene p1 p2 = Some r <->
   exists n, (n < fuel)%nat /\
     r = snd (rayStates n p1 p2) /\
     exits scene p1 (rayStates n p1 p2) = true /\
     forall m, (m < n)%nat -> exits scene p1 (rayStates m p1 p2) = false)
  /\
  (forall q1 q2,
      exits scene p1 (q1, q2)
      = (negb (Rltb (Vector2.sqrDistanceTo p1 q1) (FAR_CLIPPING_PLANE ^ 2))
         || (insideScene scene (hittingCell q1 q2)
             && negb (isNull (cellAt scene (hittingCell q1 q2))))))
  /\
  (forall q1 q2,
      insideScene scene (hittingCell q1 q2) = false ->
      Vector2.sqrDistanceTo p1 q1 < FAR_CLIPPING_PLANE ^ 2 ->
      castRayLoop (S fuel) scene p1 q1 q2
      = castRayLoop fuel scene p1 q2 (rayStep q1 q2)).
Proof.
  split; [apply castRayLoop_first_exit |].
  split; [reflexivity |].
  intros q1 q2 Hout Hnear. apply castRayLoop_continue.
  unfold exits, clipped, hit. cbn [fst snd].
  rewrite Hout, Rltb_true by exact Hnear. reflexivity.
Qed.

(** In the one-cell scene the first turn of the loop steps on from the tip
    (2, 0.5), whose cell is outside the scene. *)
Lemma castRay_first_exit_witness :
  castRayLoop 2 oneWall (Vector2.mk 2.5 0.5) (Vector2.mk 2.5 0.5) (Vector2.mk 2 0.5)
  = castRayLoop 1 oneWall (Vector2.mk 2.5 0.5) (Vector2.mk 2 0.5)
      (rayStep (Vector2.mk 2.5 0.5) (Vector2.mk 2 0.5)).
Proof.
  apply (proj2 (proj2 (castRay_first_exit 1 oneWall (Vector2.mk 2.5 0.5)
                         (Vector2.mk 2 0.5) (Vector2.mk 1 0.5)))).
  - rewrite oneWall_first_cell. apply oneWall_first_cell_outside.
  - rewrite sqrDistanceTo_self. unfold FAR_CLIPPING_PLANE. lra.
Defined.

(** ** A degenerate pair *)

Lemma rayStep_degenerate (p : Vector2.t) : rayStep p p = p.
Proof.
  rewrite rayStep_cases. rewrite Rneqb_false by ring.
  unfold verticalRayCrossing. rewrite snap_still by ring.
  now destruct p.
Qed.

(** With [p1 = p2] the loop state never changes; unless the cell of the
    point is a hit the loop never exits. *)
Lemma castRay_degenerate_stuck (scene : Scene) (p : Vector2.t) :
  hit scene p p = false -> forall fuel, castRay fuel scene p p = None.
Proof.
  intros Hh fuel. unfold castRay.
  induction fuel as [| fuel IH]; [reflexivity |].
  rewrite castRayLoop_continue.
  - rewrite rayStep_degenerate. exact IH.
  - unfold exits. cbn [fst snd]. now rewrite clipped_start, Hh.
Qed.

Lemma sceneSize_emptyRoom : sceneSize emptyRoom = Vector2.mk 1 1.
Proof.
  unfold sceneSize, emptyRoom. simpl. rewrite max_MIN_VALUE by lra. reflexivity.
Qed.

(** C2: in the one-cell empty scene the point (0.5, 0.5) is inside the
    scene, and [castRay] from that point to itself does not return, however
    many turns of the loop it is given. *)
Theorem castRay_degenerate_diverges :
  insideScene emptyRoom (Vector2.mk 0.5 0.5) = true /\
  rayStep (Vector2.mk 0.5 0.5) (Vector2.mk 0.5 0.5) = Vector2.mk 0.5 0.5 /\
  forall fuel,
    castRay fuel emptyRoom (Vector2.mk 0.5 0.5) (Vector2.mk 0.5 0.5) = None.
Proof.
  split.
  { unfold insideScene. rewrite sceneSize_emptyRoom. simpl. Rbool. reflexivity. }
  split; [apply rayStep_degenerate |].
  apply castRay_degenerate_stuck.
  assert (Hc : hittingCell (Vector2.mk 0.5 0.5) (Vector2.mk 0.5 0.5)
               = Vector2.mk 0 0).
  { apply (hittingCell_eval _ _ 0 0 0 0); simpl;
      try apply sign_diff_zero; lra_eps. }
  unfold hit. rewrite Hc. unfold cellAt. simpl.
  rewrite (get_IZR emptyRoom 0) by lia. simpl.
  rewrite (get_IZR _ 0) by lia. simpl. apply andb_false_r.
Qed.

(** ** Player.fovRange *)

Lemma sub_add_cancel (p v : Vector2.t) : Vector2.sub (Vector2.add p v) p = v.
Proof. apply vec_ext; simpl; ring. Qed.

Lemma tan_half_FOV : tan (FOV * 0.5) = 1.
Proof.
  replace (FOV * 0.5) with (PI / 4) by (unfold FOV; lra). apply tan_PI4.
Qed.

Lemma length_rot90_heading (theta n : R) :
  0 < n ->
  Vector2.length
    (Vector2.rot90 (Vector2.scale (Vector2.fromAngle theta) n)) = n.
Proof.
  intros Hn. unfold Vector2.length, Vector2.sqrLength; simpl.
  apply sqrt_lem_1; [nra | lra |].
  pose proof (sin2_cos2 theta) as H. unfold Rsqr in H. nra.
Qed.

Lemma norm_rot90_heading (theta n : R) :
  0 < n ->
  Vector2.norm (Vector2.rot90 (Vector2.scale (Vector2.fromAngle theta) n))
  = Vector2.rot90 (Vector2.fromAngle theta).
Proof.
  intros Hn. unfold Vector2.norm.
  rewrite length_rot90_heading by exact Hn.
  rewrite Reqb_false by lra.
  apply vec_ext; simpl; field; lra.
Qed.

Lemma fovRange_explicit (player : Player.t) :
  Player.fovRange player =
  (Vector2.sub
     (Vector2.add (Player.position player)
        (Vector2.scale (Vector2.fromAngle (Player.direction player)) EPS))
     (Vector2.scale (Vector2.rot90 (Vector2.fromAngle (Player.direction player))) EPS),
   Vector2.add
     (Vector2.add (Player.position player)
        (Vector2.scale (Vector2.fromAngle (Player.direction player)) EPS))
     (Vector2.scale (Vector2.rot90 (Vector2.fromAngle (Player.direction player))) EPS)).
Proof.
  unfold Player.fovRange, NEAR_CLIPPING_PLANE.
  rewrite sub_add_cancel, tan_half_FOV, norm_rot90_heading by apply EPS_pos.
  rewrite Rmult_1_l. reflexivity.
Qed.

Lemma sqrt2_sqr : sqrt 2 * sqrt 2 = 2.
Proof. apply sqrt_sqrt. lra. Qed.

(** C5: the two edge points of [fovRange] are symmetric about the heading.
    Their midpoint is the forward point [F = P + dir(theta) * near]; their
    offsets from the player have the same component along the heading and
    opposite components across it; and the offsets point at the angles
    [theta - PI/4] and [theta + PI/4], so the angular offsets from the
    heading are [-PI/4] and [+PI/4], with midpoint zero. *)
Theorem fovRange_symmetric (player : Player.t) :
  let P := Player.position player in
  let theta := Player.direction player in
  let F :=
    Vector2.add P (Vector2.scale (Vector2.fromAngle theta) NEAR_CLIPPING_PLANE) in
  let p1 := fst (Player.fovRange player) in
  let p2 := snd (Player.fovRange player) in
  Vector2.lerp p1 p2 (1 / 2) = F /\
  Vector2.dot (Vector2.sub p1 P) (Vector2.fromAngle theta)
  = Vector2.dot (Vector2.sub p2 P) (Vector2.fromAngle theta) /\
  Vector2.dot (Vector2.sub p1 P) (Vector2.rot90 (Vector2.fromAngle theta))
  = - Vector2.dot (Vector2.sub p2 P) (Vector2.rot90 (Vector2.fromAngle theta)) /\
  Vector2.sub p1 P
  = Vector2.scale (Vector2.fromAngle (theta - PI / 4)) (sqrt 2 * NEAR_CLIPPING_PLANE) /\
  Vector2.sub p2 P
  = Vector2.scale (Vector2.fromAngle (theta + PI / 4)) (sqrt 2 * NEAR_CLIPPING_PLANE).
Proof.
  intros P theta F p1 p2. subst p1 p2 F.
  rewrite fovRange_explicit. fold P theta. unfold NEAR_CLIPPING_PLANE.
  cbn [fst snd].
  pose proof sqrt2_sqr as H2. pose proof sqrt2_neq_0 as Hs.
  assert (Hc : cos (PI / 4) * sqrt 2 = 1).
  { rewrite cos_PI4. field. exact Hs. }
  assert (Hsn : sin (PI / 4) * sqrt 2 = 1).
  { rewrite sin_PI4. field. exact Hs. }
  repeat split.
  - apply vec_ext; simpl; field.
  - unfold Vector2.dot; simpl. ring.
  - unfold Vector2.dot; simpl. ring.
  - apply vec_ext; simpl.
    + rewrite cos_minus.
      transitivity ((cos theta * (cos (PI / 4) * sqrt 2)
                     + sin theta * (sin (PI / 4) * sqrt 2)) * EPS);
        [rewrite Hc, Hsn; ring | ring].
    + rewrite sin_minus.
      transitivity ((sin theta * (cos (PI / 4) * sqrt 2)
                     - cos theta * (sin (PI / 4) * sqrt 2)) * EPS);
        [rewrite Hc, Hsn; ring | ring].
  - apply vec_ext; simpl.
    + rewrite cos_plus.
      transitivity ((cos theta * (cos (PI / 4) * sqrt 2)
                     - sin theta * (sin (PI / 4) * sqrt 2)) * EPS);
        [rewrite Hc, Hsn; ring | ring].
    + rewrite sin_plus.
      transitivity ((sin theta * (cos (PI / 4) * sqrt 2)
                     + cos theta * (sin (PI / 4) * sqrt 2)) * EPS);
        [rewrite Hc, Hsn; ring | ring].
Qed.

(** ** The scene grid *)

Lemma sceneWidth_fold_ge (scene : Scene) (a : R) :
  a <= fold_left (fun x row => Math.max x (INR (length row))) scene a.
Proof.
  revert a. induction scene as [| row scene IH]; intros a; simpl.
  - apply Rle_refl.
  - eapply Rle_trans; [| apply IH]. apply Rmax_l.
Qed.

Lemma sceneWidth_fold_row (scene : Scene) (a : R) (row : list Cell) :
  In row scene ->
  INR (length row)
  <= fold_left (fun x row => Math.max x (INR (length row))) scene a.
Proof.
  revert a. induction scene as [| r scene IH]; intros a Hin; simpl.
  - contradiction.
  - destruct Hin as [-> | Hin].
    + eapply Rle_trans; [| apply sceneWidth_fold_ge]. apply Rmax_r.
    + now apply IH.
Qed.

(** The scene is as wide as its longest row and as high as its row count. *)
Lemma sceneSize_row (scene : Scene) (row : list Cell) :
  In row scene -> INR (length row) <= Vector2.x (sceneSize scene).
Proof. intros H. unfold sceneSize; simpl. now apply sceneWidth_fold_row. Qed.

Lemma sceneSize_height (scene : Scene) :
  Vector2.y (sceneSize scene) = INR (length scene).
Proof. reflexivity. Qed.

Lemma floor_floor (v : R) : Math.floor (Math.floor v) = Math.floor v.
Proof. unfold Math.floor at 2 3. apply floor_IZR. Qed.

Lemma floor_nonneg (v : R) : 0 <= v -> 0 <= Math.floor v.
Proof.
  intros Hv. unfold Math.floor.
  destruct (base_Int_part v) as [_ Hlt].
  apply IZR_le. apply Z.lt_succ_r. apply lt_IZR.
  rewrite succ_IZR. lra.
Qed.

(** A lookup at the floor of a number answers with an element exactly when
    the number is within the bounds of the array. *)
Lemma get_floor_Some {A : Type} (arr : list A) (v : R) (e : A) :
  get arr (Math.floor v) = Some e -> 0 <= v < INR (length arr).
Proof.
  unfold get. rewrite floor_floor, Reqb_true by reflexivity. simpl.
  destruct (Rgeb (Math.floor v) 0) eqn:Hge; [| discriminate].
  apply Rgeb_iff in Hge. intros Hn.
  assert (Hlen : (Z.to_nat (Int_part (Math.floor v)) < length arr)%nat).
  { apply nth_error_Some. congruence. }
  unfold Math.floor in Hlen, Hge.
  rewrite (Int_part_unique (IZR (Int_part v)) (Int_part v)) in Hlen by lra.
  apply le_IZR in Hge.
  destruct (base_Int_part v) as [Hlo Hhi].
  split; [apply IZR_le in Hge; lra |].
  apply Nat.le_succ_l, le_INR in Hlen. rewrite S_INR in Hlen.
  rewrite (INR_IZR_INZ (Z.to_nat (Int_part v))), Z2Nat.id in Hlen by exact Hge.
  lra.
Qed.

Lemma get_floor_defined {A : Type} (arr : list A) (v : R) :
  0 <= v < INR (length arr) -> exists e, get arr (Math.floor v) = Some e.
Proof.
  intros [Hlo Hhi]. unfold get.
  rewrite floor_floor, Reqb_true by reflexivity.
  rewrite Rgeb_true by now apply floor_nonneg. simpl.
  unfold Math.floor.
  rewrite (Int_part_unique (IZR (Int_part v)) (Int_part v)) by lra.
  destruct (nth_error arr (Z.to_nat (Int_part v))) as [e |] eqn:Hn;
    [now exists e |].
  exfalso. apply nth_error_None in Hn.
  pose proof (floor_nonneg v Hlo) as Hf. unfold Math.floor in Hf.
  apply le_IZR in Hf.
  apply le_INR in Hn.
  rewrite (INR_IZR_INZ (Z.to_nat (Int_part v))), Z2Nat.id in Hn by exact Hf.
  destruct (base_Int_part v). lra.
Qed.

Lemma insideScene_iff (scene : Scene) (p : Vector2.t) :
  insideScene scene p = true <->
  0 <= Vector2.x p < Vector2.x (sceneSize scene) /\
  0 <= Vector2.y p < INR (length scene).
Proof.
  unfold insideScene. rewrite !andb_true_iff, !Rgeb_iff, !Rltb_iff.
  rewrite sceneSize_height. tauto.
Qed.

(** Under [insideScene] the row of a lookup exists: [scene[c.y]] is not
    [undefined], so [scene[c.y][c.x]] does not throw. *)
Lemma row_defined_inside (scene : Scene) (p : Vector2.t) :
  insideScene scene p = true ->
  exists row, get scene (Math.floor (Vector2.y p)) = Some row.
Proof.
  intros H. apply insideScene_iff in H. apply get_floor_defined. tauto.
Qed.

(** A point whose floor cell exists in the scene is inside the scene. *)
Lemma cell_defined_inside (scene : Scene) (p : Vector2.t) (c : Cell) :
  cellAt scene
    (Vector2.mk (Math.floor (Vector2.x p)) (Math.floor (Vector2.y p))) = Some c ->
  insideScene scene p = true.
Proof.
  unfold cellAt; simpl.
  destruct (get scene (Math.floor (Vector2.y p))) as [row |] eqn:Hrow;
    [| discriminate].
  intros Hc. apply get_floor_Some in Hc.
  pose proof (get_floor_Some _ _ _ Hrow) as Hy.
  assert (Hin : In row scene).
  { unfold get in Hrow.
    destruct (_ && _); [| discriminate]. eapply nth_error_In; eauto. }
  apply sceneSize_row in Hin.
  apply insideScene_iff. lra.
Qed.

(** ** The movement integrator *)

Lemma isNull_iff (v : option Cell) : isNull v = true <-> v = Some Null.
Proof.
  destruct v as [[| c | i] |]; simpl; split; intros H;
    try reflexivity; try discriminate.
Qed.

Lemma frame_position (scene : Scene) (input : Input) (s : Session) (timestamp : R) :
  Player.position (player (frame scene input s timestamp))
  = if commits scene (towards input s timestamp)
    then towards input s timestamp
    else Player.position (player s).
Proof. reflexivity. Qed.

(** C6: [frame] commits the candidate position [towards] exactly when
    [towards] is outside the scene or its floor cell is [null]; it then
    never commits a position whose floor cell is a cell of the scene other
    than [null]; where it does not commit, the position is unchanged.  The
    heading is updated in either case. *)
Theorem frame_commits_iff (scene : Scene) (input : Input) (s : Session)
  (timestamp : R) :
  let t := towards input s timestamp in
  let s' := frame scene input s timestamp in
  (commits scene t = true <->
   insideScene scene t = false \/ cellAt scene (floorCell t) = Some Null)
  /\
  (commits scene t = true -> Player.position (player s') = t)
  /\
  (commits scene t = false ->
   Player.position (player s') = Player.position (player s))
  /\
  (forall c, cellAt scene (floorCell t) = Some c -> c <> Null ->
             commits scene t = false)
  /\
  Player.direction (player s')
  = Player.direction (player s)
    + angularVelocity input * ((timestamp - prevTimestamp s) / 1000).
Proof.
  intros t s'. subst s'. rewrite frame_position. fold t.
  split; [| split; [| split; [| split]]].
  - unfold commits. rewrite orb_true_iff, negb_true_iff, isNull_iff. tauto.
  - intros ->. reflexivity.
  - intros ->. reflexivity.
  - intros c Hc Hne. unfold commits.
    rewrite (cell_defined_inside scene t c Hc). simpl.
    unfold floorCell in Hc |- *. rewrite Hc.
    destruct c; [contradiction | reflexivity | reflexivity].
  - reflexivity.
Qed.

(** C7: from (2, 2), heading 0, with only the advance flag set and one
    second elapsed (1000 ms between the timestamps), [frame] moves the
    player to exactly (4.5, 2) and leaves the heading 0, in any scene where
    the destination is open: outside the scene, or a [null] cell. *)
Theorem frame_advance_east (scene : Scene) (t0 : R) :
  insideScene scene (Vector2.mk 4.5 2) = false \/
  cellAt scene (Vector2.mk 4 2) = Some Null ->
  frame scene forwardOnly
    {| player := Player.mk (Vector2.mk 2 2) 0; prevTimestamp := t0 |}
    (t0 + 1000)
  = {| player := Player.mk (Vector2.mk 4.5 2) 0; prevTimestamp := t0 + 1000 |}.
Proof.
  intros Hopen.
  set (s := {| player := Player.mk (Vector2.mk 2 2) 0; prevTimestamp := t0 |}).
  assert (Ht : towards forwardOnly s (t0 + 1000) = Vector2.mk 4.5 2).
  { unfold towards, velocity, forwardOnly, s, PLAYER_SPEED; simpl.
    unfold Vector2.add, Vector2.scale, Vector2.fromAngle, Vector2.zero; simpl.
    rewrite cos_0, sin_0. apply vec_ext; simpl; lra. }
  assert (Hf : floorCell (Vector2.mk 4.5 2) = Vector2.mk 4 2).
  { unfold floorCell; simpl.
    rewrite (floor_unique 4.5 4) by lra. rewrite (floor_unique 2 2) by lra.
    reflexivity. }
  assert (Hc : commits scene (Vector2.mk 4.5 2) = true).
  { unfold commits. rewrite Hf.
    destruct Hopen as [-> | ->]; [reflexivity | apply orb_true_r]. }
  unfold frame. fold (floorCell (towards forwardOnly s (t0 + 1000))).
  fold (commits scene (towards forwardOnly s (t0 + 1000))).
  rewrite Ht, Hc. unfold angularVelocity, forwardOnly, s; simpl.
  f_equal. f_equal. lra.
Qed.

Lemma cellAt_IZR (scene : Scene) (cx cy : Z) :
  (0 <= cx)%Z -> (0 <= cy)%Z ->
  cellAt scene (Vector2.mk (IZR cx) (IZR cy))
  = match nth_error scene (Z.to_nat cy) with
    | Some row => nth_error row (Z.to_nat cx)
    | None => None
    end.
Proof.
  intros Hx Hy. unfold cellAt; simpl. rewrite get_IZR by exact Hy.
  destruct (nth_error scene (Z.to_nat cy)); [| reflexivity].
  now apply get_IZR.
Qed.

(** In the scene of the program the cell (4, 2) is [null]. *)
Lemma frame_advance_east_witness :
  frame (demoScene tile tile) forwardOnly
    {| player := Player.mk (Vector2.mk 2 2) 0; prevTimestamp := 0 |}
    (0 + 1000)
  = {| player := Player.mk (Vector2.mk 4.5 2) 0; prevTimestamp := 0 + 1000 |}.
Proof.
  apply (frame_advance_east (demoScene tile tile) 0).
  right. rewrite (cellAt_IZR _ 4 2) by lia. reflexivity.
Defined.

(** In the scene of the program, 0.4 s of advance from (0.5, 2.5) heading
    east would end at (1.5, 2.5), in the red cell (1, 2): the move is not
    committed. *)
Lemma frame_commits_iff_witness :
  commits (demoScene tile tile) (Vector2.mk 1.5 2.5) = false /\
  Player.position
    (player
       (frame (demoScene tile tile) forwardOnly
          {| player := Player.mk (Vector2.mk 0.5 2.5) 0; prevTimestamp := 0 |}
          400))
  = Vector2.mk 0.5 2.5.
Proof.
  set (s := {| player := Player.mk (Vector2.mk 0.5 2.5) 0; prevTimestamp := 0 |}).
  assert (Ht : towards forwardOnly s 400 = Vector2.mk 1.5 2.5).
  { unfold towards, velocity, forwardOnly, s, PLAYER_SPEED; simpl.
    unfold Vector2.add, Vector2.scale, Vector2.fromAngle, Vector2.zero; simpl.
    rewrite cos_0, sin_0. apply vec_ext; simpl; lra. }
  assert (Hf : floorCell (Vector2.mk 1.5 2.5) = Vector2.mk 1 2).
  { unfold floorCell; simpl.
    rewrite (floor_unique 1.5 1) by lra. rewrite (floor_unique 2.5 2) by lra.
    reflexivity. }
  destruct (frame_commits_iff (demoScene tile tile) forwardOnly s 400)
    as (_ & _ & Hkeep & Hwall & _).
  rewrite Ht in Hkeep, Hwall.
  assert (Hc : commits (demoScene tile tile) (Vector2.mk 1.5 2.5) = false).
  { apply (Hwall (Flat Color.red)).
    - rewrite Hf. rewrite (cellAt_IZR _ 1 2) by lia. reflexivity.
    - discriminate. }
  split; [exact Hc | exact (Hkeep Hc)].
Defined.

(** ** The strip renderer *)

Lemma renderStrip_drawn (canvas : Canvas) (player : Player.t) (scene : Scene)
  (x : R) (p : Vector2.t) (cell : Cell) :
  insideScene scene (hittingCell (Player.position player) p) = true ->
  cellAt scene (hittingCell (Player.position player) p) = Some cell ->
  cell <> Null ->
  exists op,
    renderStrip canvas player scene x p = Some op /\
    opHeight op = canvas_height canvas / viewDepth player p /\
    opTop op = (canvas_height canvas - opHeight op) / 2.
Proof.
  intros Hin Hcell Hne. unfold renderStrip. rewrite Hin, Hcell.
  destruct cell as [| color | img]; [contradiction | |];
    eexists; (split; [reflexivity |]); split; reflexivity.
Qed.

(** A column whose cast has returned [p], in a cell that is not [null],
    draws one strip of that geometry. *)
Lemma renderColumn_strip_at (fuel : nat) (canvas : Canvas) (player : Player.t)
  (scene : Scene) (x : nat) (p : Vector2.t) (cell : Cell) :
  castRay fuel scene (Player.position player)
    (Vector2.lerp (fst (Player.fovRange player)) (snd (Player.fovRange player))
       (INR x / SCREEN_WIDTH)) = Some p ->
  insideScene scene (hittingCell (Player.position player) p) = true ->
  cellAt scene (hittingCell (Player.position player) p) = Some cell ->
  cell <> Null ->
  exists op,
    renderColumn fuel canvas player scene x = Some (Some op) /\
    opHeight op = canvas_height canvas / viewDepth player p /\
    opTop op = (canvas_height canvas - opHeight op) / 2 /\
    (canvas_height canvas = 400 -> viewDepth player p = 2 ->
     opHeight op = 200 /\ opTop op = 100).
Proof.
  intros Hcast Hin Hcell Hne.
  destruct (renderStrip_drawn canvas player scene (INR x) p cell Hin Hcell Hne)
    as (op & Hop & Hh & Ht).
  exists op. split; [| split; [exact Hh | split; [exact Ht |]]].
  - unfold renderColumn. destruct (Player.fovRange player) as [r1 r2].
    cbn [fst snd] in Hcast. rewrite Hcast, Hop. reflexivity.
  - intros HH Hd. rewrite Ht, Hh, HH, Hd. split; lra.
Qed.

(** ** A column rendered from cast to strip

    In the corridor the player stands at (1, 0.5) and looks east; the
    middle column, 400 of 800, looks straight ahead. *)

Lemma sceneSize_corridor : sceneSize corridor = Vector2.mk 4 1.
Proof.
  unfold sceneSize, corridor. simpl. rewrite max_MIN_VALUE by lra.
  apply vec_ext; simpl; lra.
Qed.

Lemma watcher_middle_target :
  Vector2.lerp (fst (Player.fovRange watcher)) (snd (Player.fovRange watcher))
    (INR 400 / SCREEN_WIDTH)
  = Vector2.mk (1 + EPS) 0.5.
Proof.
  rewrite fovRange_explicit. cbn [fst snd].
  rewrite INR_IZR_INZ. simpl Z.of_nat. unfold SCREEN_WIDTH, watcher.
  unfold Vector2.lerp, Vector2.add, Vector2.sub, Vector2.scale,
    Vector2.rot90, Vector2.fromAngle; simpl.
  rewrite cos_0, sin_0. apply vec_ext; simpl; lra.
Qed.

Lemma corridor_cell (q1 q2 : Vector2.t) (cx : Z) :
  Vector2.x q1 < Vector2.x q2 ->
  Vector2.y q1 = 0.5 -> Vector2.y q2 = 0.5 ->
  IZR cx <= Vector2.x q2 + EPS < IZR cx + 1 ->
  hittingCell q1 q2 = Vector2.mk (IZR cx) 0.
Proof.
  intros Hx Hy1 Hy2 Hc.
  apply (hittingCell_eval _ _ 1 0 cx 0).
  - apply sign_pos. lra.
  - rewrite Hy1, Hy2. apply sign_diff_zero.
  - lra.
  - rewrite Hy2. lra.
Qed.

Lemma corridor_step (q1 q2 : Vector2.t) (n : Z) :
  Vector2.x q1 < Vector2.x q2 ->
  Vector2.y q1 = 0.5 -> Vector2.y q2 = 0.5 ->
  IZR n - 1 < Vector2.x q2 + EPS <= IZR n ->
  rayStep q1 q2 = Vector2.mk (IZR n) 0.5.
Proof.
  intros Hx Hy1 Hy2 Hn. rewrite rayStep_cases.
  rewrite Rneqb_true by lra.
  assert (Hk : slope q1 q2 = 0).
  { unfold slope. rewrite Hy1, Hy2. unfold Rdiv. ring. }
  rewrite Hk, Rneqb_false by reflexivity.
  unfold verticalCrossing, intercept. rewrite Hk.
  rewrite (snap_up _ _ n) by (try exact Hn; lra).
  rewrite Hy1. apply vec_ext; simpl; ring.
Qed.

Lemma corridor_exits (q1 q2 : Vector2.t) (cx : Z) :
  Vector2.sqrDistanceTo (Vector2.mk 1 0.5) q1 < FAR_CLIPPING_PLANE ^ 2 ->
  hittingCell q1 q2 = Vector2.mk (IZR cx) 0 ->
  (0 <= cx)%Z ->
  exits corridor (Vector2.mk 1 0.5) (q1, q2)
  = match nth_error [Null; Null; Null; Flat Color.red] (Z.to_nat cx) with
    | Some Null => false
    | Some _ => true
    | None => false
    end.
Proof.
  intros Hnear Hc Hcx. unfold exits, clipped, hit. cbn [fst snd].
  rewrite Rltb_true by exact Hnear. rewrite Hc. simpl negb. simpl orb.
  rewrite (cellAt_IZR corridor cx 0) by lia. simpl.
  unfold insideScene. rewrite sceneSize_corridor. simpl.
  rewrite Rgeb_true by (apply IZR_le in Hcx; lra).
  rewrite (Rgeb_true 0 0) by lra. rewrite (Rltb_true 0 1) by lra.
  destruct (nth_error _ (Z.to_nat cx)) as [cell |] eqn:Hn.
  - assert (Hlt : (Z.to_nat cx < 4)%nat).
    { change 4%nat with (length [Null; Null; Null; Flat Color.red]).
      apply nth_error_Some. congruence. }
    rewrite Rltb_true by (apply (IZR_lt cx 4); lia).
    now destruct cell.
  - assert (Hge : (4 <= Z.to_nat cx)%nat).
    { change 4%nat with (length [Null; Null; Null; Flat Color.red]).
      now apply nth_error_None. }
    rewrite Rltb_false by (apply (IZR_le 4 cx); lia).
    reflexivity.
Qed.

Lemma corridor_cast :
  castRay 3 corridor (Vector2.mk 1 0.5) (Vector2.mk (1 + EPS) 0.5)
  = Some (Vector2.mk 3 0.5).
Proof.
  unfold castRay.
  rewrite castRayLoop_continue.
  2:{ rewrite (corridor_exits _ _ 1); [reflexivity | | | lia].
      - rewrite sqrDistanceTo_self. lra_eps.
      - apply corridor_cell; simpl; lra_eps. }
  rewrite (corridor_step _ _ 2) by (simpl; lra_eps).
  rewrite castRayLoop_continue.
  2:{ rewrite (corridor_exits _ _ 2); [reflexivity | | | lia].
      - unfold Vector2.sqrDistanceTo, Vector2.sqrLength; simpl. lra_eps.
      - apply corridor_cell; simpl; lra_eps. }
  rewrite (corridor_step _ _ 3) by (simpl; lra_eps).
  apply castRayLoop_exit.
  rewrite (corridor_exits _ _ 3); [reflexivity | | | lia].
  - unfold Vector2.sqrDistanceTo, Vector2.sqrLength; simpl. lra_eps.
  - apply corridor_cell; simpl; lra_eps.
Qed.

Lemma watcher_hit_cell :
  hittingCell (Player.position watcher) (Vector2.mk 3 0.5) = Vector2.mk 3 0.
Proof. apply corridor_cell; simpl; lra_eps. Qed.

Lemma watcher_hit_inside : insideScene corridor (Vector2.mk 3 0) = true.
Proof.
  unfold insideScene. rewrite sceneSize_corridor. simpl. Rbool. reflexivity.
Qed.

Lemma watcher_depth : viewDepth watcher (Vector2.mk 3 0.5) = 2.
Proof.
  unfold viewDepth, Vector2.dot, watcher; simpl. rewrite cos_0, sin_0. lra.
Qed.

(** The middle column of the corridor, on a canvas 400 high: the ray ends
    at (3, 0.5), two units ahead, and the strip is 200 high with its top
    at 100. *)
Example corridor_middle_column :
  renderColumn 3 screen400 watcher corridor 400
  = Some (Some (FillRect (Color.mk (1 / 2) 0 0 1) 800 100 3 200)).
Proof.
  unfold renderColumn.
  rewrite (surjective_pairing (Player.fovRange watcher)).
  rewrite watcher_middle_target.
  change (Player.position watcher) with (Vector2.mk 1 0.5).
  rewrite corridor_cast.
  unfold renderStrip. rewrite watcher_hit_cell, watcher_hit_inside.
  rewrite (cellAt_IZR corridor 3 0) by lia. simpl nth_error. cbv iota beta.
  fold (viewDepth watcher (Vector2.mk 3 0.5)). rewrite watcher_depth.
  assert (Hw : Math.ceil (canvas_width screen400 / SCREEN_WIDTH) = 2).
  { apply (ceil_unique _ 2). unfold SCREEN_WIDTH; simpl. lra. }
  rewrite Hw. rewrite INR_IZR_INZ. simpl Z.of_nat.
  unfold Color.brightness, Color.red; simpl.
  do 2 f_equal. f_equal; try lra. f_equal; lra.
Qed.

(** ** Progress of the stepper and termination of the caster *)

(** [snap] moves a coordinate by at least [EPS] in the direction of its
    delta. *)
Lemma snap_forward (x dx : R) :
  (0 < dx -> x + EPS <= snap x dx) /\ (dx < 0 -> snap x dx <= x - EPS).
Proof.
  split; intros H; unfold snap.
  - rewrite Rgtb_true by exact H. destruct (ceil_bounds (x + EPS)). lra.
  - rewrite Rgtb_false by lra. rewrite Rltb_true by exact H.
    destruct (floor_bounds (x - EPS)). lra.
Qed.

(** The parameter [(snap x dx - x) / dx] of the snapped point along the
    ray is positive, and the move is at least [EPS] long. *)
Lemma snap_parameter (x dx : R) :
  dx <> 0 ->
  0 < (snap x dx - x) / dx /\ EPS * EPS <= (snap x dx - x) * (snap x dx - x).
Proof.
  intros H. pose proof EPS_pos as He.
  destruct (snap_forward x dx) as [Hup Hdown].
  destruct (Rtotal_order dx 0) as [Hn | [Hz | Hp]]; [| contradiction |].
  - specialize (Hdown Hn). split; [| nra].
    unfold Rdiv. apply Rmult_neg_neg; [lra |].
    apply Rinv_lt_0_compat. exact Hn.
  - specialize (Hup Hp). split; [| nra].
    unfold Rdiv. apply Rmult_lt_0_compat; [lra |].
    apply Rinv_0_lt_compat. exact Hp.
Qed.

Lemma sqr_sum_lower (e a b : R) : e * e <= a * a -> e * e <= a * a + b * b.
Proof. intros H. pose proof (Rle_0_sqr b) as Hb. unfold Rsqr in Hb. lra. Qed.

(** [rayStep] moves the tip forward along the ray through [p1] and [p2],
    by at least [EPS]. *)
Lemma rayStep_forward (p1 p2 : Vector2.t) :
  p1 <> p2 ->
  exists t,
    0 < t /\
    Vector2.x (rayStep p1 p2)
    = Vector2.x p2 + t * (Vector2.x p2 - Vector2.x p1) /\
    Vector2.y (rayStep p1 p2)
    = Vector2.y p2 + t * (Vector2.y p2 - Vector2.y p1) /\
    EPS * EPS <= Vector2.sqrDistanceTo p2 (rayStep p1 p2).
Proof.
  intros Hne. destruct p1 as [x1 y1], p2 as [x2 y2].
  assert (Hd : x2 - x1 <> 0 \/ (x2 - x1 = 0 /\ y2 - y1 <> 0)).
  { destruct (Req_dec_T (x2 - x1) 0) as [Hx | Hx]; [right | now left].
    split; [exact Hx |]. intros Hy. apply Hne. f_equal; lra. }
  rewrite rayStep_cases.
  unfold verticalCrossing, horizontalCrossing, verticalRayCrossing,
    intercept, slope, Vector2.sqrDistanceTo, Vector2.sqrLength, Vector2.sub.
  cbn [Vector2.x Vector2.y].
  destruct Hd as [Hdx | [Hdx Hdy]].
  - rewrite Rneqb_true by exact Hdx.
    destruct (snap_parameter x2 (x2 - x1) Hdx) as [HtV HeV].
    set (x3 := snap x2 (x2 - x1)) in *.
    assert (HV : exists t, 0 < t /\
               x3 = x2 + t * (x2 - x1) /\
               (y2 - y1) / (x2 - x1) * x3 + (y1 - (y2 - y1) / (x2 - x1) * x1)
               = y2 + t * (y2 - y1) /\
               EPS * EPS <=
               (x3 - x2) * (x3 - x2)
               + ((y2 - y1) / (x2 - x1) * x3
                  + (y1 - (y2 - y1) / (x2 - x1) * x1) - y2)
                 * ((y2 - y1) / (x2 - x1) * x3
                    + (y1 - (y2 - y1) / (x2 - x1) * x1) - y2)).
    { exists ((x3 - x2) / (x2 - x1)). split; [exact HtV |].
      split; [field; exact Hdx |]. split; [field; exact Hdx |].
      apply sqr_sum_lower. exact HeV. }
    destruct (Rneqb ((y2 - y1) / (x2 - x1)) 0) eqn:Hk; [| exact HV].
    apply Rneqb_iff in Hk.
    assert (Hdy : y2 - y1 <> 0).
    { intros E. apply Hk. rewrite E. unfold Rdiv. ring. }
    destruct (snap_parameter y2 (y2 - y1) Hdy) as [HtH HeH].
    set (y3 := snap y2 (y2 - y1)) in *.
    destruct (Rgtb _ _); [| exact HV].
    cbn [Vector2.x Vector2.y].
    exists ((y3 - y2) / (y2 - y1)). split; [exact HtH |].
    split; [field; split; assumption |]. split; [field; exact Hdy |].
    rewrite Rplus_comm. apply sqr_sum_lower. exact HeH.
  - rewrite Rneqb_false by exact Hdx.
    destruct (snap_parameter y2 (y2 - y1) Hdy) as [HtH HeH].
    set (y3 := snap y2 (y2 - y1)) in *.
    cbn [Vector2.x Vector2.y].
    exists ((y3 - y2) / (y2 - y1)). split; [exact HtH |].
    split; [rewrite Hdx; ring |]. split; [field; exact Hdy |].
    rewrite Rplus_comm. apply sqr_sum_lower. exact HeH.
Qed.

Lemma rayPoint_0 (P T : Vector2.t) : rayPoint P T 0 = P.
Proof. apply vec_ext; simpl; ring. Qed.

Lemma rayPoint_1 (P T : Vector2.t) : rayPoint P T 1 = T.
Proof. apply vec_ext; simpl; ring. Qed.

Lemma rayPoint_inj (P T : Vector2.t) (a b : R) :
  P <> T -> rayPoint P T a = rayPoint P T b -> a = b.
Proof.
  intros Hne E. destruct (Req_dec_T a b) as [Hab | Hab]; [exact Hab |].
  exfalso. apply Hne. unfold rayPoint in E.
  injection E as Ex Ey. simpl in Ex, Ey.
  apply vec_ext; nra.
Qed.

Lemma length_sqr (v : Vector2.t) :
  Vector2.length v * Vector2.length v = Vector2.sqrLength v.
Proof. unfold Vector2.length. apply sqrt_sqrt, sqrLength_nonneg. Qed.

Lemma sqrDistanceTo_rayPoint (P T : Vector2.t) (a b : R) :
  Vector2.sqrDistanceTo (rayPoint P T a) (rayPoint P T b)
  = ((b - a) * Vector2.length (Vector2.sub T P))
    * ((b - a) * Vector2.length (Vector2.sub T P)).
Proof.
  transitivity ((b - a) * (b - a) * Vector2.sqrLength (Vector2.sub T P)).
  - unfold Vector2.sqrDistanceTo, Vector2.sqrLength, rayPoint; simpl. ring.
  - rewrite <- length_sqr. ring.
Qed.

Lemma sqr_lower (e u : R) : 0 < e -> 0 <= u -> e * e <= u * u -> e <= u.
Proof. intros He Hu H. apply Rnot_lt_le. intros Hlt. nra. Qed.

(** After [n] turns the loop variables are two points of the ray from the
    first [p1] through the first [p2], the tip ahead of the previous tip,
    and each turn has moved them on by at least [EPS]. *)
Lemma ray_invariant (P T : Vector2.t) (n : nat) :
  P <> T ->
  exists a b,
    fst (rayStates n P T) = rayPoint P T a /\
    snd (rayStates n P T) = rayPoint P T b /\
    0 <= a < b /\
    INR n * EPS <= a * Vector2.length (Vector2.sub T P) + EPS /\
    INR n * EPS <= b * Vector2.length (Vector2.sub T P).
Proof.
  intros Hne. pose proof EPS_pos as He.
  assert (Hl : 0 < Vector2.length (Vector2.sub T P)).
  { apply length_pos. intros E. apply Hne.
    unfold Vector2.sub, Vector2.zero in E. injection E as Ex Ey.
    apply vec_ext; lra. }
  set (l := Vector2.length (Vector2.sub T P)) in *.
  induction n as [| n IH].
  - exists 0, 1. simpl. rewrite rayPoint_0, rayPoint_1.
    repeat split; lra.
  - destruct IH as (a & b & Hq1 & Hq2 & Hab & Ha & Hb).
    rewrite rayStates_S. cbn [fst snd]. rewrite Hq1, Hq2.
    assert (Hq : rayPoint P T a <> rayPoint P T b).
    { intros E. apply rayPoint_inj in E; [lra | exact Hne]. }
    destruct (rayStep_forward _ _ Hq) as (t & Ht & Hx & Hy & Hstep).
    set (q3 := rayStep (rayPoint P T a) (rayPoint P T b)) in *.
    assert (Hq3 : q3 = rayPoint P T (b + t * (b - a))).
    { apply vec_ext; [rewrite Hx | rewrite Hy]; simpl; ring. }
    exists b, (b + t * (b - a)).
    assert (Htb : 0 < t * (b - a)) by (apply Rmult_lt_0_compat; lra).
    rewrite Hq3, sqrDistanceTo_rayPoint in Hstep. fold l in Hstep.
    apply sqr_lower in Hstep; [| exact He | nra].
    rewrite S_INR.
    split; [reflexivity |]. split; [exact Hq3 |].
    split; [lra |]. split; nra.
Qed.

(** Along the ray the deltas keep their signs, so the cell [hittingCell]
    computes for a tip from the previous tip is the cell it computes for
    that tip from the starting point. *)
Lemma sign_scale (k v : R) : 0 < k -> Math.sign (k * v) = Math.sign v.
Proof.
  intros Hk. destruct (Rtotal_order v 0) as [Hn | [-> | Hp]].
  - rewrite (sign_neg v) by exact Hn. apply sign_neg. nra.
  - now rewrite Rmult_0_r.
  - rewrite (sign_pos v) by exact Hp. apply sign_pos. nra.
Qed.

Lemma hittingCell_along_ray (P T : Vector2.t) (n : nat) :
  P <> T ->
  hittingCell (fst (rayStates n P T)) (snd (rayStates n P T))
  = hittingCell P (snd (rayStates n P T)).
Proof.
  intros Hne.
  destruct (ray_invariant P T n Hne) as (a & b & -> & -> & Hab & _).
  unfold hittingCell, rayPoint; simpl.
  replace (Vector2.x P + (Vector2.x T - Vector2.x P) * b
           - (Vector2.x P + (Vector2.x T - Vector2.x P) * a))
    with ((b - a) * (Vector2.x T - Vector2.x P)) by ring.
  replace (Vector2.y P + (Vector2.y T - Vector2.y P) * b
           - (Vector2.y P + (Vector2.y T - Vector2.y P) * a))
    with ((b - a) * (Vector2.y T - Vector2.y P)) by ring.
  replace (Vector2.x P + (Vector2.x T - Vector2.x P) * b - Vector2.x P)
    with (b * (Vector2.x T - Vector2.x P)) by ring.
  replace (Vector2.y P + (Vector2.y T - Vector2.y P) * b - Vector2.y P)
    with (b * (Vector2.y T - Vector2.y P)) by ring.
  rewrite !sign_scale by lra. reflexivity.
Qed.

Lemma castRayLoop_exits_by (n : nat) (scene : Scene) (start p1 p2 : Vector2.t) :
  exits scene start (rayStates n p1 p2) = true ->
  exists r, castRayLoop (S n) scene start p1 p2 = Some r.
Proof.
  revert p1 p2. induction n as [| n IH]; intros p1 p2 He.
  - exists p2. now apply castRayLoop_exit.
  - rewrite castRayLoop_unfold.
    destruct (exits scene start (p1, p2)); [now exists p2 |].
    apply IH. exact He.
Qed.

Lemma clipped_by_far (P T : Vector2.t) :
  P <> T -> clipped P (fst (rayStates (Z.to_nat 100000001) P T)) = true.
Proof.
  intros Hne.
  destruct (ray_invariant P T (Z.to_nat 100000001) Hne)
    as (a & b & -> & _ & Hab & Ha & _).
  rewrite INR_IZR_INZ, Z2Nat.id in Ha by lia.
  set (l := Vector2.length (Vector2.sub T P)) in *.
  assert (Hal : 10 <= a * l) by (unfold EPS in Ha; lra).
  unfold clipped. rewrite Rltb_false; [reflexivity |].
  rewrite <- (rayPoint_0 P T) at 1. rewrite sqrDistanceTo_rayPoint. fold l.
  unfold FAR_CLIPPING_PLANE. nra.
Qed.

(** Every cast along a proper ray ([p1 <> p2]) returns, within
    [castRayFuel] tests of the loop condition. *)
Theorem castRay_terminates (scene : Scene) (p1 p2 : Vector2.t) :
  p1 <> p2 -> exists r, castRay castRayFuel scene p1 p2 = Some r.
Proof.
  intros Hne. unfold castRay, castRayFuel.
  replace (Z.to_nat 100000002) with (S (Z.to_nat 100000001)) by lia.
  apply castRayLoop_exits_by. unfold exits.
  now rewrite clipped_by_far.
Qed.

(** In exact arithmetic the casts that return are exactly those along a
    proper ray and those that start on a hit.  (In binary64: theorem
    [castRay_stalls].) *)
Theorem castRay_returns_iff (scene : Scene) (p1 p2 : Vector2.t) :
  (exists fuel r, castRay fuel scene p1 p2 = Some r) <->
  p1 <> p2 \/ hit scene p1 p2 = true.
Proof.
  split.
  - intros (fuel & r & Hr).
    destruct (Req_dec_T (Vector2.x p1) (Vector2.x p2)) as [Hx | Hx];
      [| left; intros E; apply Hx; now rewrite E].
    destruct (Req_dec_T (Vector2.y p1) (Vector2.y p2)) as [Hy | Hy];
      [| left; intros E; apply Hy; now rewrite E].
    assert (E : p1 = p2) by now apply vec_ext.
    subst p2. right.
    destruct (hit scene p1 p1) eqn:Hh; [reflexivity |].
    rewrite (castRay_degenerate_stuck scene p1 Hh fuel) in Hr. discriminate.
  - intros [Hne | Hh].
    + exists castRayFuel. now apply castRay_terminates.
    + exists 1%nat, p2. unfold castRay. apply castRayLoop_exit.
      unfold exits. cbn [fst snd]. rewrite Hh. apply orb_true_r.
Qed.

(** ** Every column is rendered *)

(** The ray target of a column lies on the near plane: its offset from the
    player, projected on the view direction, is [NEAR_CLIPPING_PLANE]. *)
Lemma fov_target_depth (player : Player.t) (alpha : R) :
  viewDepth player
    (Vector2.lerp (fst (Player.fovRange player)) (snd (Player.fovRange player))
       alpha)
  = NEAR_CLIPPING_PLANE.
Proof.
  rewrite fovRange_explicit. cbn [fst snd].
  unfold viewDepth, Vector2.dot, NEAR_CLIPPING_PLANE; simpl.
  pose proof (sin2_cos2 (Player.direction player)) as H. unfold Rsqr in H.
  set (c := cos (Player.direction player)) in *.
  set (s := sin (Player.direction player)) in *.
  transitivity (EPS * (s * s + c * c)); [ring | rewrite H; ring].
Qed.

Lemma fov_target_proper (player : Player.t) (alpha : R) :
  Player.position player
  <> Vector2.lerp (fst (Player.fovRange player)) (snd (Player.fovRange player))
       alpha.
Proof.
  intros E. pose proof (fov_target_depth player alpha) as H.
  rewrite <- E in H. unfold viewDepth, Vector2.dot in H. simpl in H.
  unfold NEAR_CLIPPING_PLANE in H. pose proof EPS_pos. lra.
Qed.

(** The cell the renderer looks up for the returned tip is the cell the
    caster tested for it. *)
Lemma renderer_cell_is_caster_cell (scene : Scene) (P T : Vector2.t) (n : nat) :
  P <> T ->
  hit scene (fst (rayStates n P T)) (snd (rayStates n P T))
  = hit scene P (snd (rayStates n P T)).
Proof.
  intros Hne. unfold hit. now rewrite hittingCell_along_ray.
Qed.

Lemma renderColumn_total (canvas : Canvas) (player : Player.t) (scene : Scene)
  (x : nat) :
  exists res, renderColumn castRayFuel canvas player scene x = Some res.
Proof.
  unfold renderColumn.
  rewrite (surjective_pairing (Player.fovRange player)).
  destruct (castRay_terminates scene (Player.position player)
              (Vector2.lerp (fst (Player.fovRange player))
                 (snd (Player.fovRange player)) (INR x / SCREEN_WIDTH))
              (fov_target_proper player _)) as [p Hp].
  rewrite Hp. eexists. reflexivity.
Qed.

(** The tip a column's cast returns is ahead of the player: its depth
    along the view direction is positive, so the renderer never divides by
    zero. *)
Lemma cast_depth_positive (fuel : nat) (player : Player.t) (scene : Scene)
  (alpha : R) (p : Vector2.t) :
  castRay fuel scene (Player.position player)
    (Vector2.lerp (fst (Player.fovRange player))
       (snd (Player.fovRange player)) alpha) = Some p ->
  0 < viewDepth player p.
Proof.
  intros Hcast. apply castRayLoop_first_exit in Hcast.
  destruct Hcast as (n & _ & -> & _).
  set (T := Vector2.lerp _ _ alpha).
  destruct (ray_invariant (Player.position player) T n
              (fov_target_proper player alpha))
    as (a & b & _ & -> & Hab & _).
  assert (Hd : viewDepth player (rayPoint (Player.position player) T b)
               = b * viewDepth player T).
  { unfold viewDepth, Vector2.dot, rayPoint; simpl. ring. }
  rewrite Hd. unfold T. rewrite fov_target_depth.
  unfold NEAR_CLIPPING_PLANE. pose proof EPS_pos. nra.
Qed.

(** [renderScene] returns: no column's cast runs on for ever. *)
Lemma renderScene_total (canvas : Canvas) (player : Player.t) (scene : Scene) :
  exists ops, renderScene castRayFuel canvas player scene = Some ops.
Proof.
  unfold renderScene. generalize (seq 0 800). intros xs.
  induction xs as [| x xs [ops IH]]; simpl.
  - now exists [].
  - destruct (renderColumn_total canvas player scene x) as [drawn ->].
    rewrite IH. eexists. reflexivity.
Qed.

(** C8: the cast of every screen column returns a tip [p], at a positive
    depth [dot(hitVector, viewDirection)]; when the cell of [p] is a cell of
    the scene that is not [null], the renderer draws one strip for the
    column, of height the canvas height divided by that depth and with its
    top edge at [(canvasHeight - stripHeight) / 2].  With a depth of 2 and
    a canvas height of 400 the height is 200 and the top is 100. *)
Theorem renderColumn_strip (canvas : Canvas) (player : Player.t)
  (scene : Scene) (x : nat) :
  exists p,
    castRay castRayFuel scene (Player.position player)
      (Vector2.lerp (fst (Player.fovRange player))
         (snd (Player.fovRange player)) (INR x / SCREEN_WIDTH)) = Some p /\
    0 < viewDepth player p /\
    forall cell,
      insideScene scene (hittingCell (Player.position player) p) = true ->
      cellAt scene (hittingCell (Player.position player) p) = Some cell ->
      cell <> Null ->
      exists op,
        renderColumn castRayFuel canvas player scene x = Some (Some op) /\
        opHeight op = canvas_height canvas / viewDepth player p /\
        opTop op = (canvas_height canvas - opHeight op) / 2 /\
        (canvas_height canvas = 400 -> viewDepth player p = 2 ->
         opHeight op = 200 /\ opTop op = 100).
Proof.
  destruct (castRay_terminates scene (Player.position player)
              (Vector2.lerp (fst (Player.fovRange player))
                 (snd (Player.fovRange player)) (INR x / SCREEN_WIDTH))
              (fov_target_proper player _)) as [p Hp].
  exists p. split; [exact Hp |].
  split; [exact (cast_depth_positive _ _ _ _ _ Hp) |].
  intros cell. now apply renderColumn_strip_at.
Qed.

(** The middle column of the corridor: a strip 200 high with its top at
    100. *)
Lemma renderColumn_strip_witness :
  exists op,
    renderColumn castRayFuel screen400 watcher corridor 400 = Some (Some op) /\
    opHeight op = 200 /\ opTop op = 100.
Proof.
  destruct (renderColumn_strip screen400 watcher corridor 400)
    as (p & Hcast & _ & Hdraw).
  rewrite watcher_middle_target in Hcast.
  assert (Hp : p = Vector2.mk 3 0.5).
  { exact (castRayLoop_deterministic _ _ _ _ _ _ _ _ Hcast corridor_cast). }
  subst p.
  destruct (Hdraw (Flat Color.red)) as (op & Hop & Hh & Ht & H400).
  - rewrite watcher_hit_cell. apply watcher_hit_inside.
  - rewrite watcher_hit_cell. rewrite (cellAt_IZR corridor 3 0) by lia.
    reflexivity.
  - discriminate.
  - exists op. split; [exact Hop |].
    apply H400; [reflexivity | apply watcher_depth].
Defined.

(** * Part V: further properties of the code *)

(** ** Vector2 *)

Lemma length_fromAngle (theta : R) : Vector2.length (Vector2.fromAngle theta) = 1.
Proof.
  unfold Vector2.length, Vector2.sqrLength; simpl.
  pose proof (sin2_cos2 theta) as H. unfold Rsqr in H.
  replace (cos theta * cos theta + sin theta * sin theta) with 1 by lra.
  apply sqrt_1.
Qed.

(** X1: [rot90] is a quarter turn: the result is perpendicular to the vector
    and as long, two turns negate the vector, four give it back, and a
    heading vector turned is the heading vector of the angle plus [PI/2]. *)
Theorem rot90_quarter_turn (v : Vector2.t) (theta : R) :
  Vector2.dot v (Vector2.rot90 v) = 0 /\
  Vector2.length (Vector2.rot90 v) = Vector2.length v /\
  Vector2.rot90 (Vector2.rot90 v) = Vector2.scale v (-1) /\
  Vector2.rot90 (Vector2.rot90 (Vector2.rot90 (Vector2.rot90 v))) = v /\
  Vector2.rot90 (Vector2.fromAngle theta) = Vector2.fromAngle (theta + PI / 2) /\
  Vector2.length (Vector2.fromAngle theta) = 1.
Proof.
  repeat split.
  - unfold Vector2.dot; simpl. ring.
  - unfold Vector2.length, Vector2.sqrLength; simpl. f_equal. ring.
  - apply vec_ext; simpl; ring.
  - apply vec_ext; simpl; ring.
  - apply vec_ext; simpl.
    + rewrite cos_plus, cos_PI2, sin_PI2. ring.
    + rewrite sin_plus, cos_PI2, sin_PI2. ring.
  - apply length_fromAngle.
Qed.

Lemma length_scale (v : Vector2.t) (k : R) :
  0 <= k -> Vector2.length (Vector2.scale v k) = k * Vector2.length v.
Proof.
  intros Hk. unfold Vector2.length at 1.
  apply sqrt_lem_1.
  - apply sqrLength_nonneg.
  - apply Rmult_le_pos; [exact Hk |]. unfold Vector2.length. apply sqrt_pos.
  - transitivity (k * k * (Vector2.length v * Vector2.length v)); [ring |].
    rewrite length_sqr. unfold Vector2.sqrLength; simpl. ring.
Qed.

Lemma distanceTo_sqr (a b : Vector2.t) :
  Vector2.distanceTo a b * Vector2.distanceTo a b = Vector2.sqrDistanceTo a b.
Proof. apply length_sqr. Qed.

Lemma distanceTo_nonneg (a b : Vector2.t) : 0 <= Vector2.distanceTo a b.
Proof. unfold Vector2.distanceTo, Vector2.length. apply sqrt_pos. Qed.

(** [distanceTo] is a distance and [sqrDistanceTo] is its square, so the
    two order points alike: a test [>] on squared distances decides as the
    test on distances. *)
Lemma sqrDistance_orders_as_distance (p q r : Vector2.t) :
  Vector2.sqrDistanceTo p q = Vector2.distanceTo p q * Vector2.distanceTo p q /\
  Vector2.distanceTo p q = Vector2.distanceTo q p /\
  (Vector2.distanceTo p q = 0 <-> p = q) /\
  Rgtb (Vector2.sqrDistanceTo p q) (Vector2.sqrDistanceTo p r)
  = Rgtb (Vector2.distanceTo p q) (Vector2.distanceTo p r).
Proof.
  split; [symmetry; apply distanceTo_sqr |]. split; [| split].
  - unfold Vector2.distanceTo, Vector2.length, Vector2.sqrLength; simpl.
    f_equal. ring.
  - unfold Vector2.distanceTo. rewrite length_zero_iff. split.
    + unfold Vector2.sub, Vector2.zero. intros E. injection E as Ex Ey.
      apply vec_ext; lra.
    + intros ->. apply vec_ext; simpl; ring.
  - rewrite <- !distanceTo_sqr.
    pose proof (distanceTo_nonneg p q) as Hq.
    pose proof (distanceTo_nonneg p r) as Hr.
    destruct (Rlt_dec (Vector2.distanceTo p r) (Vector2.distanceTo p q)) as [H | H].
    + rewrite (Rgtb_true _ _ H). apply Rgtb_true. nra.
    + rewrite (Rgtb_false (Vector2.distanceTo p q)) by lra.
      apply Rgtb_false. nra.
Qed.

(** In exact arithmetic the stepper of the earlier version of the file,
    which compared [distanceTo], returns the same point as [rayStep].  (In
    binary64: theorem [rayStep_part000_candidates].) *)
Lemma rayStep_agrees_with_part000 (p1 p2 : Vector2.t) :
  Part000.rayStep p1 p2 = rayStep p1 p2.
Proof.
  unfold Part000.rayStep, rayStep.
  destruct (Rneqb _ 0); [| reflexivity].
  destruct (Rneqb _ 0); [| reflexivity].
  change Part000.distanceTo with Vector2.distanceTo.
  rewrite <- !distanceTo_sqr.
  match goal with
  | |- (if Rgtb ?a ?b then _ else _) = (if Rgtb (?a * ?a) (?b * ?b) then _ else _) =>
      assert (Ha : 0 <= a) by apply distanceTo_nonneg;
      assert (Hb : 0 <= b) by apply distanceTo_nonneg;
      destruct (Rlt_dec b a) as [H | H];
      [ rewrite (Rgtb_true a b H), (Rgtb_true (a * a) (b * b)) by nra
      | rewrite (Rgtb_false a b), (Rgtb_false (a * a) (b * b)) by nra ];
      reflexivity
  end.
Qed.

(** ** Player.fovRange *)

(** X5: The ray target of a column at parameter [alpha] between the two edge
    points lies on the near plane, [NEAR_CLIPPING_PLANE] ahead of the
    player, at the lateral offset [(2 alpha - 1) * NEAR_CLIPPING_PLANE]:
    the targets sweep the chord from one edge point to the other, whose
    half-length equals the distance of the plane, so the edge rays stand 45
    degrees to either side of the heading. *)
Theorem fov_targets_on_near_plane (player : Player.t) (alpha : R) :
  let P := Player.position player in
  let dir := Vector2.fromAngle (Player.direction player) in
  let target :=
    Vector2.lerp (fst (Player.fovRange player)) (snd (Player.fovRange player))
      alpha in
  target
  = Vector2.add (Vector2.add P (Vector2.scale dir NEAR_CLIPPING_PLANE))
      (Vector2.scale (Vector2.rot90 dir) ((2 * alpha - 1) * NEAR_CLIPPING_PLANE))
  /\
  Vector2.dot (Vector2.sub target P) dir = NEAR_CLIPPING_PLANE /\
  Vector2.dot (Vector2.sub target P) (Vector2.rot90 dir)
  = (2 * alpha - 1) * NEAR_CLIPPING_PLANE.
Proof.
  intros P dir target. subst target.
  rewrite fovRange_explicit. cbn [fst snd]. fold P. fold dir.
  unfold NEAR_CLIPPING_PLANE.
  pose proof (sin2_cos2 (Player.direction player)) as H. unfold Rsqr in H.
  split; [apply vec_ext; simpl; ring |].
  unfold Vector2.dot, dir; simpl.
  set (c := cos (Player.direction player)) in *.
  set (s := sin (Player.direction player)) in *.
  split.
  - transitivity (EPS * (s * s + c * c)); [ring | rewrite H; ring].
  - transitivity ((2 * alpha - 1) * EPS * (s * s + c * c));
      [ring | rewrite H; ring].
Qed.

(** ** Color *)

(** [brightness] scales the three colour channels and keeps alpha; scaling
    twice is scaling by the product, and the factor 1 changes nothing. *)
Lemma brightness_composes (c : Color.t) (f g : R) :
  Color.brightness (Color.brightness c f) g = Color.brightness c (g * f) /\
  Color.brightness c 1 = c /\
  Color.a (Color.brightness c f) = Color.a c.
Proof.
  destruct c as [cr cg cb ca]. unfold Color.brightness; simpl.
  repeat split; f_equal; ring.
Qed.

Lemma floor_channel_range (v : R) :
  0 <= v <= 1 ->
  exists n : Z, Math.floor (v * 255) = IZR n /\ (0 <= n <= 255)%Z.
Proof.
  intros Hv. exists (Int_part (v * 255)). split; [reflexivity |].
  destruct (base_Int_part (v * 255)) as [Hlo Hhi].
  split.
  - apply Z.lt_succ_r, lt_IZR. rewrite succ_IZR. lra.
  - apply le_IZR. lra.
Qed.

(** X6: A colour with channels between 0 and 1, dimmed by a factor between 0
    and 1, prints three integers between 0 and 255 and its own alpha. *)
Theorem toStyle_in_range (c : Color.t) (f : R) :
  0 <= Color.r c <= 1 -> 0 <= Color.g c <= 1 -> 0 <= Color.b c <= 1 ->
  0 <= f <= 1 ->
  exists nr ng nb : Z,
    Color.toStyle (Color.brightness c f) = (IZR nr, IZR ng, IZR nb, Color.a c) /\
    (0 <= nr <= 255)%Z /\ (0 <= ng <= 255)%Z /\ (0 <= nb <= 255)%Z.
Proof.
  intros Hr Hg Hb Hf.
  destruct (floor_channel_range (f * Color.r c)) as (nr & Er & Hnr); [nra |].
  destruct (floor_channel_range (f * Color.g c)) as (ng & Eg & Hng); [nra |].
  destruct (floor_channel_range (f * Color.b c)) as (nb & Eb & Hnb); [nra |].
  exists nr, ng, nb. unfold Color.toStyle, Color.brightness; simpl.
  rewrite Er, Eg, Eb. auto.
Qed.

Lemma toStyle_in_range_witness :
  exists nr ng nb : Z,
    Color.toStyle (Color.brightness Color.yellow (1 / 2))
    = (IZR nr, IZR ng, IZR nb, 1) /\
    (0 <= nr <= 255)%Z /\ (0 <= ng <= 255)%Z /\ (0 <= nb <= 255)%Z.
Proof.
  apply (toStyle_in_range Color.yellow (1 / 2)); simpl; lra.
Defined.

Lemma channel_range (v : Byte.byte) : 0 <= Color.channel v <= 255.
Proof.
  unfold Color.channel.
  pose proof (Byte.to_N_bounded v) as H.
  split.
  - apply IZR_le. lia.
  - apply (IZR_le _ 255). lia.
Qed.

(** X7: Reading four bytes of image data into a colour and printing it gives
    the three colour bytes back, and alpha as a fraction of 255; every
    channel of the colour read is between 0 and 1. *)
Theorem fromImageData_toStyle (r g b a : Byte.byte) (rest : list Byte.byte) :
  exists c,
    Color.fromImageData (r :: g :: b :: a :: rest) = Some c /\
    Color.toStyle c
    = (Color.channel r, Color.channel g, Color.channel b, Color.channel a / 255) /\
    0 <= Color.r c <= 1 /\ 0 <= Color.g c <= 1 /\
    0 <= Color.b c <= 1 /\ 0 <= Color.a c <= 1.
Proof.
  eexists. split; [reflexivity |].
  assert (Hfl : forall v, Math.floor (Color.channel v / 255 * 255) = Color.channel v).
  { intros v. replace (Color.channel v / 255 * 255) with (Color.channel v) by field.
    unfold Color.channel. apply floor_IZR. }
  split.
  - unfold Color.toStyle; simpl. now rewrite !Hfl.
  - simpl.
    pose proof (channel_range r). pose proof (channel_range g).
    pose proof (channel_range b). pose proof (channel_range a).
    repeat split; lra.
Qed.

(** ** snap and hittingCell *)

Lemma snap_range (x dx : R) :
  (0 < dx ->
   exists n : Z, snap x dx = IZR n /\ x + EPS <= IZR n < x + EPS + 1) /\
  (dx < 0 ->
   exists n : Z, snap x dx = IZR n /\ x - EPS - 1 < IZR n <= x - EPS).
Proof.
  split.
  - intros H. unfold snap. rewrite Rgtb_true by exact H.
    exists (- Int_part (- (x + EPS)))%Z. split; [reflexivity |].
    pose proof (ceil_bounds (x + EPS)) as Hc. unfold Math.ceil in Hc. lra.
  - intros H. unfold snap. rewrite Rgtb_false by lra.
    rewrite Rltb_true by exact H.
    exists (Int_part (x - EPS)). split; [reflexivity |].
    pose proof (floor_bounds (x - EPS)) as Hf. unfold Math.floor in Hf. lra.
Qed.

Lemma hittingCell_x (p1 p2 : Vector2.t) :
  Vector2.x (hittingCell p1 p2)
  = Math.floor (Vector2.x p2 + Math.sign (Vector2.x p2 - Vector2.x p1) * EPS).
Proof. reflexivity. Qed.

Lemma hittingCell_y (p1 p2 : Vector2.t) :
  Vector2.y (hittingCell p1 p2)
  = Math.floor (Vector2.y p2 + Math.sign (Vector2.y p2 - Vector2.y p1) * EPS).
Proof. reflexivity. Qed.

Lemma sign_cases (v : R) : Math.sign v = 1 \/ Math.sign v = -1 \/ Math.sign v = 0.
Proof.
  destruct (Rtotal_order v 0) as [H | [-> | H]].
  - right; left. now apply sign_neg.
  - right; right. apply sign_zero.
  - left. now apply sign_pos.
Qed.

Lemma biased_floor (v d : R) (n : Z) :
  (IZR n + EPS <= v < IZR n + 1 - EPS ->
   Math.floor (v + Math.sign d * EPS) = IZR n) /\
  (v = IZR n -> 0 <= d -> Math.floor (v + Math.sign d * EPS) = IZR n) /\
  (v = IZR n -> d < 0 -> Math.floor (v + Math.sign d * EPS) = IZR (n - 1)).
Proof.
  split; [| split].
  - intros Hv. apply floor_unique. pose proof EPS_pos.
    destruct (sign_cases d) as [-> | [-> | ->]]; lra.
  - intros -> Hd. apply floor_unique.
    destruct Hd as [Hd | <-].
    + rewrite sign_pos by exact Hd. unfold EPS. lra.
    + rewrite sign_zero. lra.
  - intros -> Hd. apply floor_unique. rewrite sign_neg by exact Hd.
    rewrite minus_IZR. unfold EPS. lra.
Qed.


(** At the corner (2, 3), reached travelling up both axes, the cell is
    (2, 3); reached travelling down the x axis it is (1, 3). *)
Example hittingCell_corner :
  hittingCell (Vector2.mk 1.5 2.5) (Vector2.mk 2 3) = Vector2.mk 2 3 /\
  hittingCell (Vector2.mk 2.5 2.5) (Vector2.mk 2 3) = Vector2.mk 1 3.
Proof.
  split.
  - apply (hittingCell_eval _ _ 1 1 2 3); simpl;
      try (apply sign_pos; lra); lra_eps.
  - apply (hittingCell_eval _ _ (-1) 1 1 3); simpl;
      try (apply sign_pos; lra); try (apply sign_neg; lra); lra_eps.
Qed.

(** ** rayStep *)

Lemma snap_step_bound (x dx : R) :
  (snap x dx - x) * (snap x dx - x) <= (1 + EPS) * (1 + EPS).
Proof.
  pose proof EPS_pos as He.
  destruct (snap_range x dx) as (Hup & Hdown).
  destruct (Rtotal_order dx 0) as [Hn | [-> | Hp]].
  - destruct (Hdown Hn) as (n & -> & Hb). nra.
  - rewrite snap_still by reflexivity. nra.
  - destruct (Hup Hp) as (n & -> & Hb). nra.
Qed.

Lemma sqr_mult_le (a k : R) : k * k <= 1 -> k * a * (k * a) <= a * a.
Proof.
  intros Hk. assert (H : 0 <= (1 - k * k) * (a * a)).
  { apply Rmult_le_pos; [lra | nra]. }
  lra.
Qed.

(** The length of a step is at most [sqrt 2 * (1 + EPS)]: squared, at most
    [2 (1 + EPS)^2]. *)
Lemma rayStep_step_bound (p1 p2 : Vector2.t) :
  Vector2.sqrDistanceTo p2 (rayStep p1 p2) <= 2 * ((1 + EPS) * (1 + EPS)).
Proof.
  pose proof EPS_pos as He.
  destruct p1 as [x1 y1], p2 as [x2 y2].
  rewrite rayStep_cases.
  unfold verticalCrossing, horizontalCrossing, verticalRayCrossing,
    intercept, slope, Vector2.sqrDistanceTo, Vector2.sqrLength, Vector2.sub.
  cbn [Vector2.x Vector2.y].
  pose proof (snap_step_bound x2 (x2 - x1)) as Hsx.
  pose proof (snap_step_bound y2 (y2 - y1)) as Hsy.
  set (x3 := snap x2 (x2 - x1)) in *.
  set (y3 := snap y2 (y2 - y1)) in *.
  set (m := (1 + EPS) * (1 + EPS)) in *.
  destruct (Rneqb (x2 - x1) 0) eqn:Hdx.
  - apply Rneqb_iff in Hdx.
    set (k := (y2 - y1) / (x2 - x1)) in *.
    assert (EV : k * x3 + (y1 - k * x1) - y2 = k * (x3 - x2)).
    { unfold k. field. exact Hdx. }
    destruct (Rneqb k 0) eqn:Hk.
    + apply Rneqb_iff in Hk.
      assert (Hdy : y2 - y1 <> 0).
      { intros E. apply Hk. unfold k. rewrite E. unfold Rdiv. ring. }
      assert (EH : (y3 - (y1 - k * x1)) / k - x2 = (y3 - y2) / k).
      { unfold k. field. split; assumption. }
      destruct (Rgtb _ _) eqn:Hcmp; cbn [Vector2.x Vector2.y].
      * (* the horizontal-line candidate is strictly nearer *)
        apply Rgtb_iff in Hcmp. rewrite EV in Hcmp. rewrite EH in Hcmp |- *.
        destruct (Rle_dec (k * k) 1) as [Hk1 | Hk1].
        -- pose proof (sqr_mult_le (x3 - x2) k Hk1). lra.
        -- assert (Hi : / k * / k <= 1).
           { rewrite <- Rinv_mult, <- Rinv_1.
             apply Rinv_le_contravar; lra. }
           pose proof (sqr_mult_le (y3 - y2) (/ k) Hi) as Hh.
           unfold Rdiv.
           replace ((y3 - y2) * / k * ((y3 - y2) * / k))
             with (/ k * (y3 - y2) * (/ k * (y3 - y2))) by ring.
           lra.
      * unfold Rgtb in Hcmp. apply Rltb_iff_false in Hcmp.
        rewrite EV, EH in Hcmp. rewrite EV.
        destruct (Rle_dec (k * k) 1) as [Hk1 | Hk1].
        -- pose proof (sqr_mult_le (x3 - x2) k Hk1). lra.
        -- assert (Hi : / k * / k <= 1).
           { rewrite <- Rinv_mult, <- Rinv_1.
             apply Rinv_le_contravar; lra. }
           pose proof (sqr_mult_le (y3 - y2) (/ k) Hi) as Hh.
           unfold Rdiv in Hcmp.
           replace ((y3 - y2) * / k * ((y3 - y2) * / k))
             with (/ k * (y3 - y2) * (/ k * (y3 - y2))) in Hcmp by ring.
           lra.
    + unfold Rneqb in Hk. apply negb_false_iff, Reqb_iff in Hk.
      cbn [Vector2.x Vector2.y]. rewrite EV, Hk.
      pose proof (Rle_0_sqr (x3 - x2)) as H0. unfold Rsqr in H0. lra.
  - cbn [Vector2.x Vector2.y].
    pose proof (Rle_0_sqr (y3 - y2)) as H0. unfold Rsqr in H0. lra.
Qed.

Lemma sqrt2_bound_sqr :
  sqrt 2 * (1 + EPS) * (sqrt 2 * (1 + EPS)) = 2 * ((1 + EPS) * (1 + EPS)).
Proof.
  transitivity (sqrt 2 * sqrt 2 * ((1 + EPS) * (1 + EPS))); [ring |].
  rewrite sqrt2_sqr. ring.
Qed.

Lemma sqr_upper (u e : R) : 0 <= e -> u * u <= e * e -> u <= e.
Proof. intros He H. apply Rnot_lt_le. intros Hlt. nra. Qed.

(** X11: Where both candidates exist, [rayStep] returns one of them, and none
    of the two is nearer to [p2] than the one returned. *)
Theorem rayStep_nearer_candidate (p1 p2 : Vector2.t) :
  Vector2.x p2 - Vector2.x p1 <> 0 ->
  slope p1 p2 <> 0 ->
  (rayStep p1 p2 = verticalCrossing p1 p2 \/
   rayStep p1 p2 = horizontalCrossing p1 p2) /\
  Vector2.sqrDistanceTo p2 (rayStep p1 p2)
  <= Vector2.sqrDistanceTo p2 (verticalCrossing p1 p2) /\
  Vector2.sqrDistanceTo p2 (rayStep p1 p2)
  <= Vector2.sqrDistanceTo p2 (horizontalCrossing p1 p2).
Proof.
  intros Hdx Hk. rewrite rayStep_cases.
  rewrite Rneqb_true by exact Hdx. rewrite Rneqb_true by exact Hk.
  destruct (Rgtb _ _) eqn:Hcmp.
  - apply Rgtb_iff in Hcmp. split; [now right |]. lra.
  - unfold Rgtb in Hcmp. apply Rltb_iff_false in Hcmp.
    split; [now left |]. lra.
Qed.

Lemma rayStep_nearer_candidate_witness :
  (rayStep (Vector2.mk 0 0) (Vector2.mk (1 / 2) (1 / 4))
   = verticalCrossing (Vector2.mk 0 0) (Vector2.mk (1 / 2) (1 / 4)) \/
   rayStep (Vector2.mk 0 0) (Vector2.mk (1 / 2) (1 / 4))
   = horizontalCrossing (Vector2.mk 0 0) (Vector2.mk (1 / 2) (1 / 4))) /\
  Vector2.sqrDistanceTo (Vector2.mk (1 / 2) (1 / 4))
    (rayStep (Vector2.mk 0 0) (Vector2.mk (1 / 2) (1 / 4)))
  <= Vector2.sqrDistanceTo (Vector2.mk (1 / 2) (1 / 4))
       (verticalCrossing (Vector2.mk 0 0) (Vector2.mk (1 / 2) (1 / 4))) /\
  Vector2.sqrDistanceTo (Vector2.mk (1 / 2) (1 / 4))
    (rayStep (Vector2.mk 0 0) (Vector2.mk (1 / 2) (1 / 4)))
  <= Vector2.sqrDistanceTo (Vector2.mk (1 / 2) (1 / 4))
       (horizontalCrossing (Vector2.mk 0 0) (Vector2.mk (1 / 2) (1 / 4))).
Proof.
  apply (rayStep_nearer_candidate (Vector2.mk 0 0) (Vector2.mk (1 / 2) (1 / 4))).
  - simpl. lra.
  - unfold slope; simpl. lra.
Defined.

(** X12: A horizontal ray stays on its row and a vertical ray on its column:
    only the coordinate along the ray is snapped. *)
Theorem rayStep_axis_aligned (p1 p2 : Vector2.t) :
  (Vector2.y p1 = Vector2.y p2 -> Vector2.x p1 <> Vector2.x p2 ->
   rayStep p1 p2
   = Vector2.mk (snap (Vector2.x p2) (Vector2.x p2 - Vector2.x p1))
       (Vector2.y p2)) /\
  (Vector2.x p1 = Vector2.x p2 ->
   rayStep p1 p2
   = Vector2.mk (Vector2.x p2)
       (snap (Vector2.y p2) (Vector2.y p2 - Vector2.y p1))).
Proof.
  split.
  - intros Hy Hx. rewrite rayStep_cases.
    rewrite Rneqb_true by lra.
    assert (Hk : slope p1 p2 = 0).
    { unfold slope. rewrite Hy. unfold Rdiv. ring. }
    rewrite Hk, Rneqb_false by reflexivity.
    unfold verticalCrossing, intercept. rewrite Hk, Hy.
    apply vec_ext; simpl; ring.
  - intros Hx. rewrite rayStep_cases.
    rewrite Rneqb_false by lra. reflexivity.
Qed.

(** ** sceneSize, insideScene and the cell lookup *)

Lemma INR_max (a b : nat) : INR (Nat.max a b) = Rmax (INR a) (INR b).
Proof.
  destruct (Nat.le_ge_cases a b) as [H | H].
  - rewrite Nat.max_r by exact H. symmetry. apply Rmax_right. now apply le_INR.
  - rewrite Nat.max_l by exact H. symmetry. apply Rmax_left. now apply le_INR.
Qed.

Lemma sceneWidth_fold (scene : Scene) (a : R) :
  0 <= a ->
  fold_left (fun x row => Math.max x (INR (length row))) scene a
  = Rmax a (INR (list_max (map (@length Cell) scene))).
Proof.
  revert a. induction scene as [| row scene IH]; intros a Ha; simpl.
  - symmetry. apply Rmax_left. exact Ha.
  - rewrite IH.
    + rewrite INR_max. unfold Math.max. symmetry. apply Rmax_assoc.
    + unfold Math.max. eapply Rle_trans; [exact Ha | apply Rmax_l].
Qed.

Lemma list_max_zero_iff (scene : Scene) :
  list_max (map (@length Cell) scene) = 0%nat <->
  forall row, In row scene -> row = [].
Proof.
  induction scene as [| r scene IH]; simpl.
  - split; [intros _ row [] | reflexivity].
  - split.
    + intros H row [<- | Hin].
      * apply length_zero_iff_nil. lia.
      * apply IH; [lia | exact Hin].
    + intros H.
      rewrite (H r (or_introl eq_refl)). simpl.
      apply IH. intros row Hin. apply H. now right.
Qed.

Lemma sceneSize_width (scene : Scene) :
  Vector2.x (sceneSize scene)
  = Rmax Math.MIN_VALUE (INR (list_max (map (@length Cell) scene))).
Proof.
  unfold sceneSize; simpl. apply sceneWidth_fold.
  pose proof MIN_VALUE_pos. lra.
Qed.

Lemma sceneSize_width_empty (scene : Scene) :
  (forall row, In row scene -> row = []) ->
  Vector2.x (sceneSize scene) = Math.MIN_VALUE.
Proof.
  intros Hempty. rewrite sceneSize_width.
  rewrite (proj2 (list_max_zero_iff scene) Hempty). simpl.
  apply Rmax_left. pose proof MIN_VALUE_pos. lra.
Qed.

Lemma sceneSize_width_longest (scene : Scene) :
  (exists row, In row scene /\ row <> []) ->
  Vector2.x (sceneSize scene) = INR (list_max (map (@length Cell) scene)).
Proof.
  intros (row & Hin & Hne). rewrite sceneSize_width. apply Rmax_right.
  assert (Hpos : (1 <= list_max (map (@length Cell) scene))%nat).
  { destruct (list_max (map (@length Cell) scene)) eqn:E; [| lia].
    exfalso. apply Hne. now apply (proj1 (list_max_zero_iff scene) E). }
  apply le_INR in Hpos. simpl in Hpos. pose proof MIN_VALUE_le_1. lra.
Qed.

(** X13: The size of a scene: its height is the number of rows; its width is
    the length of the longest row, except that a scene with no cell at all
    (no row, or only empty rows) is [Number.MIN_VALUE] wide, not 0.  The
    width is positive and no row is longer. *)
Theorem sceneSize_characterised (scene : Scene) :
  Vector2.y (sceneSize scene) = INR (length scene) /\
  ((forall row, In row scene -> row = []) ->
   Vector2.x (sceneSize scene) = Math.MIN_VALUE) /\
  ((exists row, In row scene /\ row <> []) ->
   Vector2.x (sceneSize scene) = INR (list_max (map (@length Cell) scene))) /\
  0 < Vector2.x (sceneSize scene) /\
  (forall row, In row scene -> INR (length row) <= Vector2.x (sceneSize scene)).
Proof.
  split; [reflexivity |].
  split; [apply sceneSize_width_empty |].
  split; [apply sceneSize_width_longest |]. split.
  - rewrite sceneSize_width.
    eapply Rlt_le_trans; [apply MIN_VALUE_pos | apply Rmax_l].
  - intros row Hin. now apply sceneSize_row.
Qed.

Lemma sceneSize_rectangular (scene : Scene) (w : nat) :
  scene <> [] -> (1 <= w)%nat ->
  Forall (fun row => length row = w) scene ->
  sceneSize scene = Vector2.mk (INR w) (INR (length scene)).
Proof.
  intros Hne Hw Hrect.
  pose proof (sceneSize_width_longest scene) as Hx.
  assert (Hy : Vector2.y (sceneSize scene) = INR (length scene)) by reflexivity.
  assert (Hlm : list_max (map (@length Cell) scene) = w).
  { clear Hx Hy. induction scene as [| r l IH]; [contradiction |].
    inversion Hrect as [| r0 l0 Hr Hl]; subst. simpl.
    destruct l as [| r' l']; [simpl; lia |].
    rewrite IH; [lia | discriminate | exact Hl]. }
  assert (Hrow : exists row, In row scene /\ row <> []).
  { destruct scene as [| row scene]; [contradiction |].
    exists row. split; [now left |].
    inversion Hrect as [| r0 l0 Hr Hl]. intros E. rewrite E in Hr.
    simpl in Hr. lia. }
  apply vec_ext; [| exact Hy].
  rewrite (Hx Hrow), Hlm. reflexivity.
Qed.

(** X14: In a rectangular scene (every row of the same length, at least 1, and
    at least one row) the bounds test and the lookup agree on every integer
    cell: the cell is inside the scene exactly when the lookup finds a cell
    there. *)
Theorem rectangular_inside_iff_defined (scene : Scene) (w : nat) (cx cy : Z) :
  scene <> [] -> (1 <= w)%nat ->
  Forall (fun row => length row = w) scene ->
  (insideScene scene (Vector2.mk (IZR cx) (IZR cy)) = true <->
   exists cell, cellAt scene (Vector2.mk (IZR cx) (IZR cy)) = Some cell).
Proof.
  intros Hne Hw Hrect. split.
  - intros Hin. apply insideScene_iff in Hin.
    rewrite (sceneSize_rectangular scene w Hne Hw Hrect) in Hin.
    simpl in Hin. destruct Hin as [[Hx0 Hx1] [Hy0 Hy1]].
    apply le_IZR in Hx0, Hy0.
    rewrite INR_IZR_INZ in Hx1, Hy1. apply lt_IZR in Hx1, Hy1.
    rewrite cellAt_IZR by assumption.
    destruct (nth_error scene (Z.to_nat cy)) as [row |] eqn:Hrow.
    + assert (Hlen : length row = w).
      { apply nth_error_In in Hrow.
        now apply (proj1 (Forall_forall _ scene) Hrect). }
      destruct (nth_error row (Z.to_nat cx)) as [cell |] eqn:Hcell;
        [now exists cell |].
      apply nth_error_None in Hcell. lia.
    + apply nth_error_None in Hrow. lia.
  - intros [cell Hcell].
    apply (cell_defined_inside scene (Vector2.mk (IZR cx) (IZR cy)) cell).
    simpl. now rewrite !floor_IZR.
Qed.

Lemma rectangular_inside_iff_defined_witness :
  insideScene (demoScene tile tile) (Vector2.mk 4 2) = true <->
  exists cell, cellAt (demoScene tile tile) (Vector2.mk 4 2) = Some cell.
Proof.
  apply (rectangular_inside_iff_defined (demoScene tile tile) 10 4 2).
  - discriminate.
  - lia.
  - unfold demoScene. repeat constructor.
Defined.

(** X15: A place inside the bounds of the scene where the lookup finds nothing
    (its row is too short) behaves as a wall that is not drawn: a ray whose
    tip is in it stops there, the movement integrator refuses to enter it,
    and the renderer draws no strip for it. *)
Theorem undefined_cell_blocks (scene : Scene) (c : Vector2.t) :
  insideScene scene c = true ->
  cellAt scene c = None ->
  (forall p1 p2, hittingCell p1 p2 = c -> hit scene p1 p2 = true) /\
  (forall t, insideScene scene t = true -> floorCell t = c ->
             commits scene t = false) /\
  (forall canvas player x p,
      hittingCell (Player.position player) p = c ->
      renderStrip canvas player scene x p = None).
Proof.
  intros Hin Hnone. repeat split.
  - intros p1 p2 Hc. unfold hit. now rewrite Hc, Hin, Hnone.
  - intros t Ht Hc. unfold commits. now rewrite Ht, Hc, Hnone.
  - intros canvas player x p Hc. unfold renderStrip.
    now rewrite Hc, Hin, Hnone.
Qed.

(** A scene of one empty row is [Number.MIN_VALUE] wide, so its column 0
    is inside the bounds although the row holds no cell. *)
Lemma undefined_cell_blocks_witness :
  (forall p1 p2, hittingCell p1 p2 = Vector2.mk 0 0 -> hit [[]] p1 p2 = true) /\
  (forall t, insideScene [[]] t = true -> floorCell t = Vector2.mk 0 0 ->
             commits [[]] t = false) /\
  (forall canvas player x p,
      hittingCell (Player.position player) p = Vector2.mk 0 0 ->
      renderStrip canvas player [[]] x p = None).
Proof.
  apply (undefined_cell_blocks [[]] (Vector2.mk 0 0)).
  - apply insideScene_iff.
    rewrite sceneSize_width_empty by (intros row [<- | []]; reflexivity).
    simpl. pose proof MIN_VALUE_pos. lra.
  - rewrite (cellAt_IZR [[]] 0 0) by lia. reflexivity.
Defined.

(** ** castRay *)

Lemma rayStates_degenerate (n : nat) (P : Vector2.t) : rayStates n P P = (P, P).
Proof.
  induction n as [| n IH]; simpl; [reflexivity |].
  now rewrite rayStep_degenerate.
Qed.

Lemma distanceTo_rayPoint (P T : Vector2.t) (b : R) :
  0 <= b ->
  Vector2.distanceTo P (rayPoint P T b) = b * Vector2.distanceTo P T.
Proof.
  intros Hb.
  assert (Hl : 0 <= Vector2.distanceTo P T) by apply distanceTo_nonneg.
  change (sqrt (Vector2.sqrDistanceTo P (rayPoint P T b))
          = b * Vector2.distanceTo P T).
  rewrite <- (rayPoint_0 P T) at 1. rewrite sqrDistanceTo_rayPoint.
  change (Vector2.length (Vector2.sub T P)) with (Vector2.distanceTo P T).
  replace (b - 0) with b by ring.
  apply sqrt_square. now apply Rmult_le_pos.
Qed.

(** Along a proper ray the tip is at or beyond the first target, and the
    two loop variables are never further apart than the longer of the first
    pair's distance and one full step. *)
Lemma ray_reach_invariant (P T : Vector2.t) (n : nat) :
  P <> T ->
  exists a b,
    fst (rayStates n P T) = rayPoint P T a /\
    snd (rayStates n P T) = rayPoint P T b /\
    0 <= a < b /\ 1 <= b /\
    (b - a) * Vector2.distanceTo P T
    <= Rmax (Vector2.distanceTo P T) (sqrt 2 * (1 + EPS)).
Proof.
  intros Hne. pose proof EPS_pos as He.
  assert (Hl : 0 < Vector2.distanceTo P T).
  { apply length_pos. intros E. apply Hne.
    unfold Vector2.sub, Vector2.zero in E. injection E as Ex Ey.
    apply vec_ext; lra. }
  assert (Hs : 0 <= sqrt 2 * (1 + EPS)).
  { apply Rmult_le_pos; [apply sqrt_pos | lra]. }
  induction n as [| n IH].
  - exists 0, 1. simpl. rewrite rayPoint_0, rayPoint_1.
    repeat split; try lra.
    replace ((1 - 0) * Vector2.distanceTo P T) with (Vector2.distanceTo P T)
      by ring.
    apply Rmax_l.
  - destruct IH as (a & b & Hq1 & Hq2 & Hab & Hb1 & _).
    rewrite rayStates_S. cbn [fst snd]. rewrite Hq1, Hq2.
    assert (Hq : rayPoint P T a <> rayPoint P T b).
    { intros E. apply rayPoint_inj in E; [lra | exact Hne]. }
    destruct (rayStep_forward _ _ Hq) as (t & Ht & Hx & Hy & _).
    pose proof (rayStep_step_bound (rayPoint P T a) (rayPoint P T b)) as Hup.
    set (q3 := rayStep (rayPoint P T a) (rayPoint P T b)) in *.
    assert (Hq3 : q3 = rayPoint P T (b + t * (b - a))).
    { apply vec_ext; [rewrite Hx | rewrite Hy]; simpl; ring. }
    exists b, (b + t * (b - a)).
    assert (Htb : 0 < t * (b - a)) by (apply Rmult_lt_0_compat; lra).
    rewrite Hq3, sqrDistanceTo_rayPoint in Hup.
    change (Vector2.length (Vector2.sub T P)) with (Vector2.distanceTo P T)
      in Hup.
    rewrite <- sqrt2_bound_sqr in Hup.
    apply sqr_upper in Hup; [| exact Hs].
    split; [reflexivity |]. split; [exact Hq3 |].
    split; [lra |]. split; [lra |].
    eapply Rle_trans; [exact Hup | apply Rmax_r].
Qed.

(** X18: A cast that returns, returns a point of the ray from [p1] through
    [p2], at [p2] or beyond it.  It is [p2] itself, or it lies less than
    [FAR_CLIPPING_PLANE] plus two steps from [p1], a step being the longer
    of the distance from [p1] to [p2] and [sqrt 2 * (1 + EPS)]: the far
    plane is tested on the tail of the pair, two steps behind the tip that
    is returned. *)
Theorem castRay_reach (fuel : nat) (scene : Scene) (p1 p2 r : Vector2.t) :
  castRay fuel scene p1 p2 = Some r ->
  (exists b, 1 <= b /\ r = Vector2.lerp p1 p2 b) /\
  (r = p2 \/
   Vector2.distanceTo p1 r
   < FAR_CLIPPING_PLANE
     + 2 * Rmax (Vector2.distanceTo p1 p2) (sqrt 2 * (1 + EPS))).
Proof.
  intros Hcast. unfold castRay in Hcast.
  apply castRayLoop_first_exit in Hcast.
  destruct Hcast as (n & _ & -> & Hexit & Hbefore).
  assert (Hlerp : forall b, rayPoint p1 p2 b = Vector2.lerp p1 p2 b).
  { intros b. apply vec_ext; simpl; ring. }
  destruct (Req_dec_T (Vector2.x p1) (Vector2.x p2)) as [Hx | Hx].
  1: destruct (Req_dec_T (Vector2.y p1) (Vector2.y p2)) as [Hy | Hy].
  1: { assert (E : p1 = p2) by now apply vec_ext.
       subst p2. rewrite rayStates_degenerate. cbn [snd]. split.
       - exists 1. split; [lra |]. now rewrite <- Hlerp, rayPoint_1.
       - now left. }
  all: assert (Hne : p1 <> p2)
         by (intros E; first [apply Hx | apply Hy]; now rewrite E).
  all: destruct (ray_reach_invariant p1 p2 n Hne)
         as (a & b & Hq1 & Hq2 & Hab & Hb1 & Hgap).
  all: (split; [exists b; split; [exact Hb1 | now rewrite Hq2, Hlerp] |]).
  all: destruct n as [| m]; [left; reflexivity | right].
  all: rewrite Hq2, distanceTo_rayPoint by lra.
  all: specialize (Hbefore m (Nat.lt_succ_diag_r m)).
  all: destruct (ray_reach_invariant p1 p2 m Hne)
         as (a' & b' & Hm1 & Hm2 & Hab' & _ & Hgap').
  all: rewrite rayStates_S in Hq1; cbn [fst] in Hq1.
  all: rewrite Hm2 in Hq1; apply rayPoint_inj in Hq1; [| exact Hne].
  all: subst b'.
  all: unfold exits in Hbefore; apply orb_false_iff in Hbefore.
  all: destruct Hbefore as [Hclip _].
  all: unfold clipped in Hclip; apply negb_false_iff, Rltb_iff in Hclip.
  all: rewrite Hm1 in Hclip.
  all: rewrite <- (rayPoint_0 p1 p2) in Hclip at 1.
  all: rewrite sqrDistanceTo_rayPoint in Hclip.
  all: change (Vector2.length (Vector2.sub p2 p1))
         with (Vector2.distanceTo p1 p2) in Hclip.
  all: pose proof (distanceTo_nonneg p1 p2) as Hl.
  all: set (l := Vector2.distanceTo p1 p2) in *.
  all: set (s := Rmax l (sqrt 2 * (1 + EPS))) in *.
  all: assert (Hfar : a' * l < FAR_CLIPPING_PLANE)
         by (unfold FAR_CLIPPING_PLANE in *;
             apply Rnot_le_lt; intros Hge;
             assert (0 <= a' * l) by (apply Rmult_le_pos; lra); nra).
  all: lra.
Qed.

Lemma castRay_reach_witness :
  (exists b, 1 <= b /\
     Vector2.mk 1 0.5
     = Vector2.lerp (Vector2.mk 2.5 0.5) (Vector2.mk 2 0.5) b) /\
  (Vector2.mk 1 0.5 = Vector2.mk 2 0.5 \/
   Vector2.distanceTo (Vector2.mk 2.5 0.5) (Vector2.mk 1 0.5)
   < FAR_CLIPPING_PLANE
     + 2 * Rmax (Vector2.distanceTo (Vector2.mk 2.5 0.5) (Vector2.mk 2 0.5))
           (sqrt 2 * (1 + EPS))).
Proof.
  exact (castRay_reach 2 oneWall _ _ _ oneWall_cast).
Defined.

(** X19: a column draws a strip only if the hit condition holds of the
    pair of points its cast ended with: the cell of the returned tip, as
    [hittingCell] computes it from that pair, is inside the scene and holds
    a colour or an image.  The loop need not have tested that cell: this
    is so of a cast ended by the break of line 243 and of a cast ended by
    the far test of line 241 alike (example [far_wall_drawn]). *)
Theorem strip_drawn_only_on_hit (fuel : nat) (canvas : Canvas)
  (player : Player.t) (scene : Scene) (x : nat) (op : DrawOp) :
  renderColumn fuel canvas player scene x = Some (Some op) ->
  exists n,
    let P := Player.position player in
    let T :=
      Vector2.lerp (fst (Player.fovRange player)) (snd (Player.fovRange player))
        (INR x / SCREEN_WIDTH) in
    (n < fuel)%nat /\
    hit scene (fst (rayStates n P T)) (snd (rayStates n P T)) = true /\
    (exists cell,
        cellAt scene (hittingCell (fst (rayStates n P T)) (snd (rayStates n P T)))
        = Some cell /\ cell <> Null) /\
    forall m, (m < n)%nat -> exits scene P (rayStates m P T) = false.
Proof.
  unfold renderColumn.
  rewrite (surjective_pairing (Player.fovRange player)).
  set (P := Player.position player).
  set (T := Vector2.lerp _ _ (INR x / SCREEN_WIDTH)).
  destruct (castRay fuel scene P T) as [p |] eqn:Hcast; [| discriminate].
  intros Hop. injection Hop as Hop.
  unfold castRay in Hcast. apply castRayLoop_first_exit in Hcast.
  destruct Hcast as (n & Hn & -> & _ & Hbefore).
  exists n. cbn zeta. split; [exact Hn |].
  assert (Hne : P <> T) by apply fov_target_proper.
  unfold hit. rewrite (hittingCell_along_ray P T n Hne).
  unfold renderStrip in Hop. fold P in Hop.
  destruct (insideScene scene (hittingCell P (snd (rayStates n P T))))
    eqn:Hin; [| discriminate].
  destruct (cellAt scene (hittingCell P (snd (rayStates n P T))))
    as [[| color | img] |] eqn:Hcell; try discriminate.
  - split; [reflexivity |]. split; [| exact Hbefore].
    eexists; split; [reflexivity | discriminate].
  - split; [reflexivity |]. split; [| exact Hbefore].
    eexists; split; [reflexivity | discriminate].
Qed.

Lemma strip_drawn_only_on_hit_witness :
  exists n,
    let P := Player.position watcher in
    let T :=
      Vector2.lerp (fst (Player.fovRange watcher)) (snd (Player.fovRange watcher))
        (INR 400 / SCREEN_WIDTH) in
    (n < 3)%nat /\
    hit corridor (fst (rayStates n P T)) (snd (rayStates n P T)) = true /\
    (exists cell,
        cellAt corridor
          (hittingCell (fst (rayStates n P T)) (snd (rayStates n P T)))
        = Some cell /\ cell <> Null) /\
    forall m, (m < n)%nat -> exits corridor P (rayStates m P T) = false.
Proof.
  exact (strip_drawn_only_on_hit 3 screen400 watcher corridor 400 _
           corridor_middle_column).
Defined.

(** ** A wall beyond the far plane *)

Lemma sceneSize_farHall : sceneSize farHall = Vector2.mk 13 1.
Proof.
  unfold sceneSize, farHall. simpl. rewrite max_MIN_VALUE by lra.
  apply vec_ext; simpl; lra.
Qed.

Lemma farHall_cell (cx : Z) :
  (0 <= cx <= 11)%Z -> cellAt farHall (Vector2.mk (IZR cx) 0) = Some Null.
Proof.
  intros Hc. rewrite (cellAt_IZR farHall cx 0) by lia.
  unfold farHall. cbn [nth_error Z.to_nat].
  assert (Hn : (Z.to_nat cx < 12)%nat) by lia.
  destruct (Z.to_nat cx) as [| [| [| [| [| [| [| [| [| [| [| [| k]]]]]]]]]]]];
    try reflexivity. lia.
Qed.

Lemma farHall_no_hit (q1 q2 : Vector2.t) (cx : Z) :
  hittingCell q1 q2 = Vector2.mk (IZR cx) 0 -> (0 <= cx <= 11)%Z ->
  hit farHall q1 q2 = false.
Proof.
  intros Hc Hcx. unfold hit. rewrite Hc, farHall_cell by exact Hcx.
  apply andb_false_r.
Qed.

(** In the hall the loop variables after [n + 2] turns are the grid
    points (n + 2, 0.5) and (n + 3, 0.5). *)
Lemma farHall_states (n : nat) :
  rayStates (S (S n)) (Vector2.mk 1 0.5) (Vector2.mk (1 + EPS) 0.5)
  = (Vector2.mk (INR n + 2) 0.5, Vector2.mk (INR n + 3) 0.5).
Proof.
  induction n as [| n IH].
  - cbn [rayStates].
    rewrite (corridor_step _ _ 2) by (simpl; lra_eps).
    rewrite (corridor_step _ _ 3) by (simpl; lra_eps).
    f_equal; apply vec_ext; simpl; lra.
  - rewrite rayStates_S, IH. cbn [fst snd]. f_equal.
    + rewrite S_INR. apply vec_ext; simpl; lra.
    + rewrite !S_INR.
      rewrite (corridor_step _ _ (Z.of_nat n + 4)).
      * rewrite plus_IZR, <- INR_IZR_INZ. apply vec_ext; simpl; lra.
      * simpl. lra.
      * reflexivity.
      * reflexivity.
      * simpl. rewrite plus_IZR, <- INR_IZR_INZ.
        pose proof (pos_INR n). lra_eps.
Qed.

Lemma farHall_running (m : nat) :
  (m < 11)%nat ->
  exits farHall (Vector2.mk 1 0.5)
    (rayStates m (Vector2.mk 1 0.5) (Vector2.mk (1 + EPS) 0.5)) = false.
Proof.
  intros Hm. unfold exits.
  destruct m as [| [| n]].
  - cbn [rayStates fst snd]. rewrite clipped_start. cbn [orb].
    apply (farHall_no_hit _ _ 1); [| lia].
    apply corridor_cell; simpl; lra_eps.
  - cbn [rayStates fst snd].
    rewrite (corridor_step _ _ 2) by (simpl; lra_eps).
    apply orb_false_iff. split.
    + unfold clipped. rewrite Rltb_true; [reflexivity |].
      unfold Vector2.sqrDistanceTo, Vector2.sqrLength; simpl. lra_eps.
    + apply (farHall_no_hit _ _ 2); [| lia].
      apply corridor_cell; simpl; lra_eps.
  - rewrite farHall_states. cbn [fst snd].
    assert (Hn : (n <= 8)%nat) by lia.
    apply le_INR in Hn. pose proof (pos_INR n) as Hn0.
    replace (INR 8) with 8 in Hn by (simpl; lra).
    apply orb_false_iff. split.
    + unfold clipped. rewrite Rltb_true; [reflexivity |].
      unfold Vector2.sqrDistanceTo, Vector2.sqrLength, FAR_CLIPPING_PLANE.
      simpl. nra.
    + apply (farHall_no_hit _ _ (Z.of_nat n + 3)); [| lia].
      apply corridor_cell; simpl; try lra.
      rewrite plus_IZR, <- INR_IZR_INZ. lra_eps.
Qed.

(** A strip is drawn for a cell the loop never tested.  In the hall the
    watcher looks along twelve open cells at a wall in column 12.  The
    cast of the middle column ends by the far test of line 241, when its
    tail is at (11, 0.5), ten units from the start, and returns the tip
    (12, 0.5) without having tested the cell of that tip; the renderer
    looks the cell up, finds the wall and draws it, 400 / 11 high. *)
Example far_wall_drawn :
  castRay 12 farHall (Vector2.mk 1 0.5) (Vector2.mk (1 + EPS) 0.5)
  = Some (Vector2.mk 12 0.5) /\
  clipped (Vector2.mk 1 0.5) (Vector2.mk 11 0.5) = true /\
  (forall m, (m < 11)%nat ->
     hit farHall
       (fst (rayStates m (Vector2.mk 1 0.5) (Vector2.mk (1 + EPS) 0.5)))
       (snd (rayStates m (Vector2.mk 1 0.5) (Vector2.mk (1 + EPS) 0.5)))
     = false) /\
  renderStrip screen400 watcher farHall 400 (Vector2.mk 12 0.5)
  = Some (FillRect (Color.mk (1 / 11) 0 0 1) 800 ((400 - 400 / 11) / 2) 3
            (400 / 11)).
Proof.
  assert (Hlast : rayStates 11 (Vector2.mk 1 0.5) (Vector2.mk (1 + EPS) 0.5)
                  = (Vector2.mk 11 0.5, Vector2.mk 12 0.5)).
  { rewrite (farHall_states 9). f_equal; apply vec_ext; simpl; lra. }
  assert (Hclip : clipped (Vector2.mk 1 0.5) (Vector2.mk 11 0.5) = true).
  { unfold clipped. rewrite Rltb_false; [reflexivity |].
    unfold Vector2.sqrDistanceTo, Vector2.sqrLength, FAR_CLIPPING_PLANE.
    simpl. lra. }
  split; [| split; [exact Hclip | split]].
  - unfold castRay. apply castRayLoop_first_exit.
    exists 11%nat. split; [lia |]. rewrite Hlast. cbn [fst snd].
    split; [reflexivity |]. split.
    + unfold exits. cbn [fst snd]. now rewrite Hclip.
    + intros m Hm. now apply farHall_running.
  - intros m Hm. pose proof (farHall_running m Hm) as Hrun.
    unfold exits in Hrun. now apply orb_false_iff in Hrun.
  - assert (Hcell : hittingCell (Player.position watcher) (Vector2.mk 12 0.5)
                    = Vector2.mk 12 0)
      by (apply corridor_cell; simpl; lra_eps).
    assert (Hw : Math.ceil (canvas_width screen400 / SCREEN_WIDTH) = 2)
      by (apply (ceil_unique _ 2); unfold SCREEN_WIDTH; simpl; lra).
    assert (Hd : viewDepth watcher (Vector2.mk 12 0.5) = 11).
    { unfold viewDepth, Vector2.dot, watcher; simpl.
      rewrite cos_0, sin_0. lra. }
    assert (Hin : insideScene farHall (Vector2.mk 12 0) = true).
    { unfold insideScene. rewrite sceneSize_farHall. simpl. Rbool.
      reflexivity. }
    unfold renderStrip. rewrite Hcell, Hin.
    rewrite (cellAt_IZR farHall 12 0) by lia.
    unfold farHall. cbn [nth_error Z.to_nat Pos.to_nat Pos.iter_op Nat.add].
    fold farHall.
    fold (viewDepth watcher (Vector2.mk 12 0.5)). rewrite Hd, Hw.
    unfold Color.brightness, Color.red; simpl.
    assert (E : forall c c' x x' y y' w w' h h',
               c = c' -> x = x' -> y = y' -> w = w' -> h = h' ->
               Some (FillRect c x y w h) = Some (FillRect c' x' y' w' h'))
      by (intros; subst; reflexivity).
    apply E; try lra.
    assert (Ec : forall r r' g g' b b' a a',
               r = r' -> g = g' -> b = b' -> a = a' ->
               Color.mk r g b a = Color.mk r' g' b' a')
      by (intros; subst; reflexivity).
    apply Ec; lra.
Qed.

(** ** renderScene *)

Lemma renderColumns_flat_map (canvas : Canvas) (player : Player.t)
  (scene : Scene) (xs : list nat) :
  renderColumns castRayFuel canvas player scene xs
  = Some (flat_map
            (fun x =>
               match renderColumn castRayFuel canvas player scene x with
               | Some (Some op) => [op]
               | _ => []
               end) xs).
Proof.
  induction xs as [| x xs IH]; simpl; [reflexivity |].
  destruct (renderColumn_total canvas player scene x) as [drawn ->].
  rewrite IH. destruct drawn; reflexivity.
Qed.

Lemma flat_map_length_le {A B : Type} (f : A -> list B) (xs : list A) :
  (forall x, (length (f x) <= 1)%nat) ->
  (length (flat_map f xs) <= length xs)%nat.
Proof.
  intros Hf. induction xs as [| x xs IH]; simpl; [lia |].
  rewrite length_app. specialize (Hf x). lia.
Qed.

Lemma renderColumns_some (fuel : nat) (canvas : Canvas) (player : Player.t)
  (scene : Scene) (xs : list nat) (ops : list DrawOp) :
  renderColumns fuel canvas player scene xs = Some ops ->
  ops = flat_map
          (fun x =>
             match renderColumn fuel canvas player scene x with
             | Some (Some op) => [op]
             | _ => []
             end) xs /\
  forall x, In x xs ->
    exists drawn, renderColumn fuel canvas player scene x = Some drawn.
Proof.
  revert ops. induction xs as [| x xs IH]; intros ops H.
  - injection H as <-. split; [reflexivity | intros x []].
  - cbn [renderColumns] in H. cbn [flat_map].
    destruct (renderColumn fuel canvas player scene x) as [drawn |] eqn:Hx;
      [| discriminate].
    destruct (renderColumns fuel canvas player scene xs) as [ops' |];
      [| discriminate].
    injection H as <-. destruct (IH ops' eq_refl) as [-> Hall]. split.
    + destruct drawn; reflexivity.
    + intros x' [<- | Hin]; [now exists drawn | now apply Hall].
Qed.

(** X20: when [renderScene] returns, the cast of every column has
    returned, and its drawing calls are, in the order of the columns 0 to
    799, the strips of the columns that draw one: at most 800 drawing
    calls, and each is the strip of a column. *)
Theorem renderScene_draws_columns (fuel : nat) (canvas : Canvas)
  (player : Player.t) (scene : Scene) (ops : list DrawOp) :
  renderScene fuel canvas player scene = Some ops ->
  ops = flat_map
          (fun x =>
             match renderColumn fuel canvas player scene x with
             | Some (Some op) => [op]
             | _ => []
             end) (seq 0 800) /\
  (forall x, (x < 800)%nat ->
     exists drawn, renderColumn fuel canvas player scene x = Some drawn) /\
  (length ops <= 800)%nat /\
  forall op, In op ops ->
    exists x, (x < 800)%nat /\
      renderColumn fuel canvas player scene x = Some (Some op).
Proof.
  unfold renderScene. intros H.
  destruct (renderColumns_some _ _ _ _ _ _ H) as [Hops Hall].
  split; [exact Hops |]. split; [| split].
  - intros x Hx. apply Hall. apply in_seq. lia.
  - rewrite Hops. rewrite <- (length_seq 800 0) at 2.
    apply flat_map_length_le.
    intros x. destruct (renderColumn _ _ _ _ x) as [[op |] |]; simpl; lia.
  - intros op Hin. rewrite Hops in Hin.
    apply in_flat_map in Hin. destruct Hin as (x & Hx & Hop).
    apply in_seq in Hx. exists x. split; [lia |].
    destruct (renderColumn _ _ _ _ x) as [[op' |] |]; simpl in Hop;
      try contradiction.
    destruct Hop as [-> | []]. reflexivity.
Qed.

(** The watcher in the corridor: every cast returns, so [renderScene]
    does. *)
Lemma renderScene_draws_columns_witness :
  let ops :=
    flat_map
      (fun x =>
         match renderColumn castRayFuel screen400 watcher corridor x with
         | Some (Some op) => [op]
         | _ => []
         end) (seq 0 800) in
  (forall x, (x < 800)%nat ->
     exists drawn,
       renderColumn castRayFuel screen400 watcher corridor x = Some drawn) /\
  (length ops <= 800)%nat /\
  forall op, In op ops ->
    exists x, (x < 800)%nat /\
      renderColumn castRayFuel screen400 watcher corridor x = Some (Some op).
Proof.
  intros ops.
  exact (proj2 (renderScene_draws_columns castRayFuel screen400 watcher
                  corridor ops
                  (renderColumns_flat_map screen400 watcher corridor
                     (seq 0 800)))).
Defined.

(** ** The texture strip of an image cell *)

Lemma floor_offset (v e : R) :
  - EPS <= e <= EPS -> - EPS <= v - Math.floor (v + e) < 1 + EPS.
Proof.
  intros He. pose proof (floor_bounds (v + e)). lra.
Qed.

Lemma sign_EPS_range (d : R) : - EPS <= Math.sign d * EPS <= EPS.
Proof.
  pose proof EPS_pos. destruct (sign_cases d) as [-> | [-> | ->]]; lra.
Qed.

(** The point a cast returns, measured from the corner of its cell, lies
    within [EPS] of the unit square. *)
Lemma hittingCell_offset (p1 p2 : Vector2.t) :
  - EPS <= Vector2.x p2 - Vector2.x (hittingCell p1 p2) < 1 + EPS /\
  - EPS <= Vector2.y p2 - Vector2.y (hittingCell p1 p2) < 1 + EPS.
Proof.
  rewrite hittingCell_x, hittingCell_y.
  split; apply floor_offset, sign_EPS_range.
Qed.


Lemma sceneSize_gallery : sceneSize gallery = Vector2.mk 4 1.
Proof.
  unfold sceneSize, gallery. simpl. rewrite max_MIN_VALUE by lra.
  apply vec_ext; simpl; lra.
Qed.

Lemma gallery_hit_inside :
  insideScene gallery (hittingCell (Player.position watcher) (Vector2.mk 3 0.5))
  = true.
Proof.
  rewrite watcher_hit_cell. unfold insideScene. rewrite sceneSize_gallery.
  simpl. Rbool. reflexivity.
Qed.

Lemma gallery_hit_cell :
  cellAt gallery (hittingCell (Player.position watcher) (Vector2.mk 3 0.5))
  = Some (Image tile).
Proof.
  rewrite watcher_hit_cell. rewrite cellAt_IZR by lia. reflexivity.
Qed.


(** ** distancePointToLine *)

Lemma line_norm_sqr (p1 p2 : Vector2.t) :
  (Vector2.y p2 - Vector2.y p1) ^ 2 + (Vector2.x p1 - Vector2.x p2) ^ 2
  = Vector2.sqrLength (Vector2.sub p2 p1).
Proof. unfold Vector2.sqrLength; simpl. ring. Qed.

Lemma distancePointToLine_eq (p1 p2 p0 : Vector2.t) :
  distancePointToLine p1 p2 p0
  = Rabs (((Vector2.x p0 - Vector2.x p1) * (Vector2.y p2 - Vector2.y p1)
           - (Vector2.y p0 - Vector2.y p1) * (Vector2.x p2 - Vector2.x p1))
          / Vector2.distanceTo p1 p2).
Proof.
  unfold distancePointToLine, Math.abs. cbn zeta.
  rewrite line_norm_sqr.
  change (sqrt (Vector2.sqrLength (Vector2.sub p2 p1)))
    with (Vector2.distanceTo p1 p2).
  f_equal. unfold Rdiv. ring.
Qed.

Lemma distanceTo_pos (p q : Vector2.t) : p <> q -> 0 < Vector2.distanceTo p q.
Proof.
  intros Hne. apply length_pos. intros E. apply Hne.
  unfold Vector2.sub, Vector2.zero in E. injection E as Ex Ey.
  apply vec_ext; lra.
Qed.

(** The square of [distancePointToLine], times the squared distance of the
    two points of the line, is the square of the cross product. *)
Lemma distancePointToLine_sqr (p1 p2 p0 : Vector2.t) :
  p1 <> p2 ->
  let N :=
    (Vector2.x p0 - Vector2.x p1) * (Vector2.y p2 - Vector2.y p1)
    - (Vector2.y p0 - Vector2.y p1) * (Vector2.x p2 - Vector2.x p1) in
  distancePointToLine p1 p2 p0 * distancePointToLine p1 p2 p0
  * Vector2.sqrDistanceTo p1 p2 = N * N.
Proof.
  intros Hne N. rewrite distancePointToLine_eq. fold N.
  pose proof (distanceTo_pos p1 p2 Hne) as Hl.
  rewrite <- distanceTo_sqr.
  set (l := Vector2.distanceTo p1 p2) in *.
  unfold Rabs. destruct (Rcase_abs (N / l)); field; lra.
Qed.

Lemma sqr_zero (u : R) : u * u = 0 -> u = 0.
Proof. intros H. nra. Qed.

(** X23: For two distinct points [p1] and [p2], [distancePointToLine p1 p2 p0]
    is the distance from [p0] to the line through them: it is not negative,
    it does not depend on the order of the two points, it is zero exactly
    for the points of the line, no point of the line is nearer to [p0], and
    one point of the line is at that distance. *)
Theorem distancePointToLine_is_distance (p1 p2 p0 : Vector2.t) :
  p1 <> p2 ->
  0 <= distancePointToLine p1 p2 p0 /\
  distancePointToLine p2 p1 p0 = distancePointToLine p1 p2 p0 /\
  (distancePointToLine p1 p2 p0 = 0 <->
   exists s, p0 = Vector2.lerp p1 p2 s) /\
  (forall s,
      distancePointToLine p1 p2 p0
      <= Vector2.distanceTo p0 (Vector2.lerp p1 p2 s)) /\
  (exists s,
      distancePointToLine p1 p2 p0
      = Vector2.distanceTo p0 (Vector2.lerp p1 p2 s)).
Proof.
  intros Hne.
  assert (Hne' : p2 <> p1) by (intros E; apply Hne; now symmetry).
  pose proof (distancePointToLine_sqr p1 p2 p0 Hne) as Hsq.
  pose proof (distancePointToLine_sqr p2 p1 p0 Hne') as Hsq'.
  cbn zeta in Hsq, Hsq'.
  assert (Hd : 0 <= distancePointToLine p1 p2 p0)
    by (unfold distancePointToLine, Math.abs; apply Rabs_pos).
  assert (Hd' : 0 <= distancePointToLine p2 p1 p0)
    by (unfold distancePointToLine, Math.abs; apply Rabs_pos).
  pose proof (distanceTo_pos p1 p2 Hne) as Hl.
  assert (HD : 0 < Vector2.sqrDistanceTo p1 p2).
  { rewrite <- distanceTo_sqr. now apply Rmult_lt_0_compat. }
  assert (HDsym : Vector2.sqrDistanceTo p2 p1 = Vector2.sqrDistanceTo p1 p2).
  { unfold Vector2.sqrDistanceTo, Vector2.sqrLength; simpl. ring. }
  rewrite HDsym in Hsq'.
  set (d := distancePointToLine p1 p2 p0) in *.
  set (d' := distancePointToLine p2 p1 p0) in *.
  assert (HDexp : Vector2.sqrDistanceTo p1 p2
                  = (Vector2.x p2 - Vector2.x p1) * (Vector2.x p2 - Vector2.x p1)
                    + (Vector2.y p2 - Vector2.y p1) * (Vector2.y p2 - Vector2.y p1))
    by reflexivity.
  set (D := Vector2.sqrDistanceTo p1 p2) in *.
  destruct p1 as [x1 y1], p2 as [x2 y2], p0 as [x0 y0].
  cbn [Vector2.x Vector2.y] in *.
  set (dx := x2 - x1) in *. set (dy := y2 - y1) in *.
  (* the distance of [p0] to the point of the line at parameter [s] *)
  assert (Hpoint : forall s,
             Vector2.sqrDistanceTo (Vector2.mk x0 y0)
               (Vector2.lerp (Vector2.mk x1 y1) (Vector2.mk x2 y2) s)
             = (x1 + s * dx - x0) * (x1 + s * dx - x0)
               + (y1 + s * dy - y0) * (y1 + s * dy - y0)).
  { intros s. unfold Vector2.sqrDistanceTo, Vector2.sqrLength, dx, dy; simpl.
    ring. }
  assert (Hle : forall s,
             d * d <= Vector2.sqrDistanceTo (Vector2.mk x0 y0)
                        (Vector2.lerp (Vector2.mk x1 y1) (Vector2.mk x2 y2) s)).
  { intros s. rewrite Hpoint.
    set (a := x1 + s * dx - x0). set (b := y1 + s * dy - y0).
    assert (HN : (x0 - x1) * dy - (y0 - y1) * dx = b * dx - a * dy)
      by (unfold a, b; ring).
    rewrite HN in Hsq.
    assert (Hcs : d * d * D <= (a * a + b * b) * D).
    { rewrite Hsq, HDexp.
      pose proof (Rle_0_sqr (a * dx + b * dy)) as H0. unfold Rsqr in H0.
      lra. }
    apply Rmult_le_reg_r with D; [exact HD | exact Hcs]. }
  split; [exact Hd |]. split; [| split; [| split]].
  - (* symmetric *)
    assert (E : d' * d' * D = d * d * D).
    { rewrite Hsq, Hsq'. unfold dx, dy. ring. }
    apply Rmult_eq_reg_r in E; [| lra].
    apply Rle_antisym; apply sqr_upper; lra.
  - (* zero exactly on the line *)
    split.
    + intros Hz. rewrite Hz in Hsq.
      exists (((x0 - x1) * dx + (y0 - y1) * dy) / D).
      assert (Hcross : (x0 - x1) * dy - (y0 - y1) * dx = 0).
      { apply sqr_zero. lra. }
      apply vec_ext; simpl; fold dx dy.
      * assert (E : (x0 - x1) * D = ((x0 - x1) * dx + (y0 - y1) * dy) * dx).
        { rewrite HDexp.
          transitivity ((x0 - x1) * dx * dx
                        + ((x0 - x1) * dy) * dy); [ring |].
          replace ((x0 - x1) * dy) with ((y0 - y1) * dx) by lra. ring. }
        transitivity (x1 + ((x0 - x1) * D) / D); [field; lra |].
        rewrite E. field. lra.
      * assert (E : (y0 - y1) * D = ((x0 - x1) * dx + (y0 - y1) * dy) * dy).
        { rewrite HDexp.
          transitivity (((y0 - y1) * dx) * dx
                        + (y0 - y1) * dy * dy); [ring |].
          replace ((y0 - y1) * dx) with ((x0 - x1) * dy) by lra. ring. }
        transitivity (y1 + ((y0 - y1) * D) / D); [field; lra |].
        rewrite E. field. lra.
    + intros [s Hs]. injection Hs as Hx Hy. fold dx in Hx. fold dy in Hy.
      assert (Hcross : (x0 - x1) * dy - (y0 - y1) * dx = 0).
      { rewrite Hx, Hy. ring. }
      rewrite Hcross in Hsq.
      apply sqr_zero. apply Rmult_eq_reg_r with D; [| lra]. lra.
  - (* no point of the line is nearer *)
    intros s. apply sqr_upper; [apply distanceTo_nonneg |].
    rewrite distanceTo_sqr. apply Hle.
  - (* the foot of the perpendicular is at that distance *)
    exists (((x0 - x1) * dx + (y0 - y1) * dy) / D).
    set (s := ((x0 - x1) * dx + (y0 - y1) * dy) / D).
    pose proof (distanceTo_nonneg (Vector2.mk x0 y0)
                  (Vector2.lerp (Vector2.mk x1 y1) (Vector2.mk x2 y2) s)) as Hq.
    pose proof (distanceTo_sqr (Vector2.mk x0 y0)
                  (Vector2.lerp (Vector2.mk x1 y1) (Vector2.mk x2 y2) s)) as Hqs.
    rewrite Hpoint in Hqs.
    set (q := Vector2.distanceTo (Vector2.mk x0 y0) _) in *.
    assert (E : q * q * D = d * d * D).
    { rewrite Hqs, Hsq.
      assert (HsD : s * D = (x0 - x1) * dx + (y0 - y1) * dy)
        by (unfold s; field; lra).
      transitivity
        (((x1 - x0) * (x1 - x0) + (y1 - y0) * (y1 - y0)) * D
         + 2 * (s * D) * ((x1 - x0) * dx + (y1 - y0) * dy)
         + (s * D) * s * (dx * dx + dy * dy)); [ring |].
      rewrite <- HDexp.
      replace (s * D * s * D) with ((s * D) * (s * D)) by ring.
      rewrite HsD. rewrite HDexp. ring. }
    apply Rmult_eq_reg_r in E; [| lra].
    apply Rle_antisym; apply sqr_upper; lra.
Qed.

Lemma distancePointToLine_is_distance_witness :
  0 <= distancePointToLine (Vector2.mk 0 0) (Vector2.mk 4 0) (Vector2.mk 1 3) /\
  distancePointToLine (Vector2.mk 4 0) (Vector2.mk 0 0) (Vector2.mk 1 3)
  = distancePointToLine (Vector2.mk 0 0) (Vector2.mk 4 0) (Vector2.mk 1 3) /\
  (distancePointToLine (Vector2.mk 0 0) (Vector2.mk 4 0) (Vector2.mk 1 3) = 0 <->
   exists s, Vector2.mk 1 3 = Vector2.lerp (Vector2.mk 0 0) (Vector2.mk 4 0) s) /\
  (forall s,
      distancePointToLine (Vector2.mk 0 0) (Vector2.mk 4 0) (Vector2.mk 1 3)
      <= Vector2.distanceTo (Vector2.mk 1 3)
           (Vector2.lerp (Vector2.mk 0 0) (Vector2.mk 4 0) s)) /\
  (exists s,
      distancePointToLine (Vector2.mk 0 0) (Vector2.mk 4 0) (Vector2.mk 1 3)
      = Vector2.distanceTo (Vector2.mk 1 3)
          (Vector2.lerp (Vector2.mk 0 0) (Vector2.mk 4 0) s)).
Proof.
  apply (distancePointToLine_is_distance (Vector2.mk 0 0) (Vector2.mk 4 0)
           (Vector2.mk 1 3)).
  intros E. injection E as E. lra.
Defined.

(** X24: The line through the two edge points of the field of view is the near
    plane, so for them [distancePointToLine], the divisor the renderer's
    comment names as the alternative, is the depth of the point beyond the
    near plane: it differs from the depth the renderer divides by in
    [NEAR_CLIPPING_PLANE]. *)
Theorem distancePointToLine_near_plane (player : Player.t) (p : Vector2.t) :
  distancePointToLine (fst (Player.fovRange player))
    (snd (Player.fovRange player)) p
  = Rabs (viewDepth player p - NEAR_CLIPPING_PLANE).
Proof.
  pose proof EPS_pos as He.
  rewrite fovRange_explicit. cbn [fst snd].
  destruct player as [[Px Py] theta], p as [x0 y0].
  unfold distancePointToLine, Math.abs, viewDepth, NEAR_CLIPPING_PLANE,
    Vector2.dot.
  cbn [Vector2.add Vector2.sub Vector2.scale Vector2.rot90 Vector2.fromAngle
       Vector2.x Vector2.y Player.position Player.direction].
  cbn zeta.
  pose proof (sin2_cos2 theta) as Hcs. unfold Rsqr in Hcs.
  set (c := cos theta) in *. set (s := sin theta) in *.
  assert (Hroot :
            sqrt ((Py + s * EPS + c * EPS - (Py + s * EPS - c * EPS)) ^ 2
                  + (Px + c * EPS - - s * EPS - (Px + c * EPS + - s * EPS)) ^ 2)
            = 2 * EPS).
  { apply sqrt_lem_1; [nra | lra |].
    transitivity (4 * EPS * EPS * (s * s + c * c)); [rewrite Hcs; ring | ring]. }
  rewrite Hroot. f_equal.
  transitivity
    ((2 * EPS * ((x0 - Px) * c + (y0 - Py) * s)
      - 2 * EPS * EPS * (s * s + c * c)) / (2 * EPS)).
  - f_equal. ring.
  - rewrite Hcs. field. lra.
Qed.

(** ** The key handlers *)

Lemma key_clash (c1 c2 k : String.string) :
  c1 <> c2 -> String.eqb c1 k = true -> String.eqb c2 k = true -> False.
Proof.
  intros Hne H1 H2. apply String.eqb_eq in H1, H2. congruence.
Qed.

(** X27: The key handlers.  An auto-repeat event changes nothing, and neither
    does a key other than the six of the game.  Handling the same event
    twice is handling it once; of a press and a release of one key the
    later decides; and events of two different keys can be handled in
    either order: each key owns one flag. *)
Theorem key_events (c c1 c2 : String.string) (r r1 r2 : bool) (i : Input) :
  keydown c true i = i /\
  keyup c true i = i /\
  (c <> "KeyW"%string -> c <> "KeyS"%string -> c <> "KeyD"%string ->
   c <> "KeyA"%string -> c <> "KeyE"%string -> c <> "KeyQ"%string ->
   keydown c r i = i /\ keyup c r i = i) /\
  keydown c r (keydown c r i) = keydown c r i /\
  keyup c r (keyup c r i) = keyup c r i /\
  keyup c false (keydown c r i) = keyup c false i /\
  keydown c false (keyup c r i) = keydown c false i /\
  (c1 <> c2 ->
   keydown c1 r1 (keydown c2 r2 i) = keydown c2 r2 (keydown c1 r1 i) /\
   keyup c1 r1 (keyup c2 r2 i) = keyup c2 r2 (keyup c1 r1 i) /\
   keydown c1 r1 (keyup c2 r2 i) = keyup c2 r2 (keydown c1 r1 i)).
Proof.
  destruct i as [f b l rt tl tr].
  split; [reflexivity |]. split; [reflexivity |].
  split.
  { intros HW HS HD HA HE HQ.
    apply String.eqb_neq in HW, HS, HD, HA, HE, HQ.
    unfold keydown, keyup. rewrite HW, HS, HD, HA, HE, HQ.
    split; destruct r; reflexivity. }
  split; [| split; [| split; [| split]]].
  1-4: unfold keydown, keyup; destruct r; cbn [negb]; cbv iota;
       key_cases; reflexivity.
  intros Hne.
  repeat split; unfold keydown, keyup; destruct r1, r2; cbn [negb]; cbv iota;
    try reflexivity;
    key_cases; try reflexivity;
    exfalso; eauto using key_clash.
Qed.

(** ** The movement integrator *)

Lemma sqrLength_heading (theta A B : R) :
  Vector2.sqrLength
    (Vector2.add (Vector2.scale (Vector2.fromAngle theta) A)
       (Vector2.scale (Vector2.rot90 (Vector2.fromAngle theta)) B))
  = A * A + B * B.
Proof.
  unfold Vector2.sqrLength; simpl.
  pose proof (sin2_cos2 theta) as H. unfold Rsqr in H.
  transitivity ((A * A + B * B) * (sin theta * sin theta + cos theta * cos theta));
    [ring | rewrite H; ring].
Qed.

Lemma velocity_frame (input : Input) (theta : R) :
  velocity input theta
  = Vector2.add
      (Vector2.scale (Vector2.fromAngle theta)
         (PLAYER_SPEED * (bit (movingForward input) - bit (movingBackward input))))
      (Vector2.scale (Vector2.rot90 (Vector2.fromAngle theta))
         (PLAYER_SPEED * (bit (movingRight input) - bit (movingLeft input)))).
Proof.
  unfold velocity.
  destruct (movingForward input), (movingBackward input), (movingLeft input),
    (movingRight input); apply vec_ext; simpl; ring.
Qed.

Lemma bit_diff_sqr (a b : bool) : (bit a - bit b) * (bit a - bit b) <= 1.
Proof. destruct a, b; simpl; lra. Qed.

Lemma velocity_length_bound (input : Input) (theta : R) :
  Vector2.length (velocity input theta) <= sqrt 2 * PLAYER_SPEED.
Proof.
  assert (Hs : 0 <= sqrt 2 * PLAYER_SPEED).
  { apply Rmult_le_pos; [apply sqrt_pos | unfold PLAYER_SPEED; lra]. }
  apply sqr_upper; [exact Hs |].
  rewrite length_sqr, velocity_frame, sqrLength_heading.
  transitivity (sqrt 2 * sqrt 2 * (PLAYER_SPEED * PLAYER_SPEED));
    [| apply Req_le; ring].
  rewrite sqrt2_sqr.
  pose proof (bit_diff_sqr (movingForward input) (movingBackward input)) as H1.
  pose proof (bit_diff_sqr (movingRight input) (movingLeft input)) as H2.
  set (u := bit (movingForward input) - bit (movingBackward input)) in *.
  set (v := bit (movingRight input) - bit (movingLeft input)) in *.
  assert (Hp : 0 <= PLAYER_SPEED * PLAYER_SPEED) by (unfold PLAYER_SPEED; lra).
  nra.
Qed.

(** X28: The velocity of a frame, in the frame of the heading: [PLAYER_SPEED]
    times (forward minus backward) along the heading plus [PLAYER_SPEED]
    times (right minus left) along the quarter turn of it.  Opposite keys
    cancel, one axis gives the speed [PLAYER_SPEED], both axes give
    [sqrt 2 * PLAYER_SPEED]: moving diagonally is faster.  The turning rate
    is a quarter turn per second times (right minus left). *)
Theorem velocity_components (input : Input) (theta : R) :
  let ahead := bit (movingForward input) - bit (movingBackward input) in
  let side := bit (movingRight input) - bit (movingLeft input) in
  velocity input theta
  = Vector2.add
      (Vector2.scale (Vector2.fromAngle theta) (PLAYER_SPEED * ahead))
      (Vector2.scale (Vector2.rot90 (Vector2.fromAngle theta))
         (PLAYER_SPEED * side)) /\
  Vector2.length (velocity input theta)
  = PLAYER_SPEED * sqrt (ahead * ahead + side * side) /\
  Vector2.length (velocity input theta) <= sqrt 2 * PLAYER_SPEED /\
  angularVelocity input
  = PI * 0.5 * (bit (turningRight input) - bit (turningLeft input)).
Proof.
  intros ahead side.
  split; [apply velocity_frame |].
  split; [| split; [apply velocity_length_bound |]].
  - unfold Vector2.length. rewrite velocity_frame, sqrLength_heading.
    fold ahead side.
    replace (PLAYER_SPEED * ahead * (PLAYER_SPEED * ahead)
             + PLAYER_SPEED * side * (PLAYER_SPEED * side))
      with (PLAYER_SPEED * PLAYER_SPEED * (ahead * ahead + side * side)) by ring.
    rewrite sqrt_mult_alt by (unfold PLAYER_SPEED; lra).
    rewrite sqrt_square by (unfold PLAYER_SPEED; lra). reflexivity.
  - unfold angularVelocity.
    destruct (turningLeft input), (turningRight input); simpl; lra.
Qed.

Lemma distanceTo_self (p : Vector2.t) : Vector2.distanceTo p p = 0.
Proof.
  change (sqrt (Vector2.sqrDistanceTo p p) = 0).
  rewrite sqrDistanceTo_self. apply sqrt_0.
Qed.

Lemma length_scale_abs (v : Vector2.t) (k : R) :
  Vector2.length (Vector2.scale v k) = Rabs k * Vector2.length v.
Proof.
  destruct (Rcase_abs k) as [Hk | Hk].
  - rewrite Rabs_left by exact Hk.
    rewrite <- length_scale by lra.
    unfold Vector2.length. f_equal.
    unfold Vector2.sqrLength; simpl. ring.
  - rewrite Rabs_right by exact Hk. apply length_scale. lra.
Qed.

(** X29: One frame moves the player by at most [sqrt 2 * PLAYER_SPEED] times
    the time since the previous frame, and turns the heading by at most a
    quarter turn per second; it records the timestamp.  With no time gone,
    or with the two keys of each pair in the same state, the player stays
    as it is. *)
Theorem frame_bounded_move (scene : Scene) (input : Input) (s : Session)
  (timestamp : R) :
  let deltaTime := (timestamp - prevTimestamp s) / 1000 in
  let s' := frame scene input s timestamp in
  Vector2.distanceTo (Player.position (player s)) (Player.position (player s'))
  <= sqrt 2 * PLAYER_SPEED * Rabs deltaTime /\
  Rabs (Player.direction (player s') - Player.direction (player s))
  <= PI / 2 * Rabs deltaTime /\
  prevTimestamp s' = timestamp /\
  (timestamp = prevTimestamp s -> player s' = player s) /\
  (movingForward input = movingBackward input ->
   movingLeft input = movingRight input ->
   Player.position (player s') = Player.position (player s)) /\
  (turningLeft input = turningRight input ->
   Player.direction (player s') = Player.direction (player s)).
Proof.
  intros deltaTime s'.
  assert (Hpos : Player.position (player s')
                 = if commits scene (towards input s timestamp)
                   then towards input s timestamp
                   else Player.position (player s))
    by apply frame_position.
  assert (Hdir : Player.direction (player s')
                 = Player.direction (player s) + angularVelocity input * deltaTime)
    by reflexivity.
  assert (Htow : towards input s timestamp
                 = Vector2.add (Player.position (player s))
                     (Vector2.scale
                        (velocity input (Player.direction (player s)))
                        deltaTime))
    by reflexivity.
  assert (Hs : 0 <= sqrt 2 * PLAYER_SPEED).
  { apply Rmult_le_pos; [apply sqrt_pos | unfold PLAYER_SPEED; lra]. }
  split; [| split; [| split; [reflexivity | split; [| split]]]].
  - rewrite Hpos. destruct (commits scene (towards input s timestamp)).
    + rewrite Htow. unfold Vector2.distanceTo.
      rewrite sub_add_cancel, length_scale_abs.
      rewrite (Rmult_comm (Rabs deltaTime)).
      apply Rmult_le_compat_r; [apply Rabs_pos | apply velocity_length_bound].
    + rewrite distanceTo_self. apply Rmult_le_pos; [exact Hs | apply Rabs_pos].
  - rewrite Hdir.
    replace (Player.direction (player s) + angularVelocity input * deltaTime
             - Player.direction (player s))
      with (angularVelocity input * deltaTime) by ring.
    rewrite Rabs_mult.
    apply Rmult_le_compat_r; [apply Rabs_pos |].
    pose proof PI_RGT_0 as Hpi.
    unfold angularVelocity.
    destruct (turningLeft input), (turningRight input);
      apply Rabs_le; lra.
  - intros Ht.
    assert (Hz : deltaTime = 0) by (unfold deltaTime; rewrite Ht; lra).
    assert (Hsame : towards input s timestamp = Player.position (player s)).
    { rewrite Htow, Hz. apply vec_ext; simpl; ring. }
    rewrite Hsame in Hpos.
    assert (Hp : Player.position (player s') = Player.position (player s))
      by (rewrite Hpos; now destruct (commits scene _)).
    assert (Hd : Player.direction (player s') = Player.direction (player s))
      by (rewrite Hdir, Hz; ring).
    destruct (player s') as [p' d'], (player s) as [p d].
    simpl in Hp, Hd. now rewrite Hp, Hd.
  - intros Hfb Hlr.
    assert (Hsame : towards input s timestamp = Player.position (player s)).
    { rewrite Htow, velocity_frame, Hfb, Hlr. apply vec_ext; simpl; ring. }
    rewrite Hpos, Hsame.
    now destruct (commits scene (Player.position (player s))).
  - intros Hlr. rewrite Hdir. unfold angularVelocity. rewrite Hlr.
    destruct (turningRight input); lra.
Qed.

(** ** The session *)

Lemma frame_keeps_free (scene : Scene) (input : Input) (s : Session)
  (timestamp : R) :
  commits scene (Player.position (player s)) = true ->
  commits scene (Player.position (player (frame scene input s timestamp)))
  = true.
Proof.
  intros Hfree. rewrite frame_position.
  destruct (commits scene (towards input s timestamp)) eqn:Hc;
    [exact Hc | exact Hfree].
Qed.

(** X30: Whatever the keys pressed and the frames run, the player never stands
    in a wall: a player at a place that is outside the scene or in a
    [null] cell is at such a place after every sequence of events. *)
Theorem player_stays_free (scene : Scene) (st : Input * Session)
  (events : list Event) :
  commits scene (Player.position (player (snd st))) = true ->
  commits scene (Player.position (player (snd (run scene st events)))) = true.
Proof.
  unfold run. revert st.
  induction events as [| e events IH]; intros st Hfree; [exact Hfree |].
  simpl. apply IH.
  destruct e as [code repeat | code repeat | timestamp]; simpl;
    [exact Hfree | exact Hfree | now apply frame_keeps_free].
Qed.

Lemma sceneSize_demoScene (forest wall : HTMLImageElement) :
  sceneSize (demoScene forest wall) = Vector2.mk 10 7.
Proof.
  rewrite (sceneSize_rectangular _ 10).
  - apply vec_ext; simpl; lra.
  - discriminate.
  - lia.
  - unfold demoScene. repeat constructor.
Qed.

(** The program starts its player in a [null] cell of its scene. *)
Lemma initialPlayer_free (forest wall : HTMLImageElement) :
  commits (demoScene forest wall)
    (Player.position (initialPlayer (demoScene forest wall))) = true.
Proof.
  unfold initialPlayer. cbn [Player.position].
  rewrite sceneSize_demoScene.
  unfold commits, floorCell, Vector2.mul. cbn [Vector2.x Vector2.y].
  rewrite (floor_unique (10 * 0.63) 6) by lra.
  rewrite (floor_unique (7 * 0.63) 4) by lra.
  rewrite (cellAt_IZR _ 6 4) by lia.
  apply orb_true_r.
Qed.

Lemma player_stays_free_witness :
  commits (demoScene tile tile)
    (Player.position
       (player
          (snd (run (demoScene tile tile)
                  (noInput, initialSession (demoScene tile tile) 0)
                  [KeyDown "KeyW"%string false; AnimationFrame 500;
                   KeyDown "KeyE"%string false; AnimationFrame 1000;
                   KeyUp "KeyW"%string false; AnimationFrame 1500]))))
  = true.
Proof.
  apply (player_stays_free (demoScene tile tile)
           (noInput, initialSession (demoScene tile tile) 0)).
  apply initialPlayer_free.
Defined.

(** ** The minimap *)

(** The counter of [for (let i = 0; i < bound; i++)] takes the value [k]
    exactly when [k < bound]. *)
Lemma countBelow_spec (bound : R) (k : nat) :
  (k < countBelow bound)%nat <-> INR k < bound.
Proof.
  unfold countBelow. pose proof (ceil_bounds bound) as Hc.
  unfold Math.ceil in Hc. set (n := (- Int_part (- bound))%Z) in *.
  rewrite INR_IZR_INZ. split.
  - intros Hk. assert (Hz : (Z.of_nat k <= n - 1)%Z) by lia.
    apply IZR_le in Hz. rewrite minus_IZR in Hz. lra.
  - intros Hk. assert (Hz : (Z.of_nat k < n)%Z) by (apply lt_IZR; lra).
    lia.
Qed.

(** The counter of [for (let i = 0; i <= bound; i++)] takes the value [k]
    exactly when [k <= bound]. *)
Lemma countUpTo_spec (bound : R) (k : nat) :
  (k < countUpTo bound)%nat <-> INR k <= bound.
Proof.
  unfold countUpTo. pose proof (floor_bounds bound) as Hf.
  unfold Math.floor in Hf. set (n := Int_part bound) in *.
  rewrite INR_IZR_INZ. split.
  - intros Hk. assert (Hz : (Z.of_nat k <= n)%Z) by lia.
    apply IZR_le in Hz. lra.
  - intros Hk. assert (Hz : (Z.of_nat k < n + 1)%Z).
    { apply lt_IZR. rewrite plus_IZR. lra. }
    lia.
Qed.

Lemma cellAt_nat (scene : Scene) (x y : nat) :
  cellAt scene (Vector2.mk (INR x) (INR y))
  = match nth_error scene y with
    | Some row => nth_error row x
    | None => None
    end.
Proof.
  rewrite !INR_IZR_INZ, cellAt_IZR by lia. now rewrite !Nat2Z.id.
Qed.

(** A cell the lookup finds is visited by the two cell loops. *)
Lemma cell_in_loops (scene : Scene) (x y : nat) (c : Cell) :
  cellAt scene (Vector2.mk (INR x) (INR y)) = Some c ->
  In y (seq 0 (countBelow (Vector2.y (sceneSize scene)))) /\
  In x (seq 0 (countBelow (Vector2.x (sceneSize scene)))).
Proof.
  rewrite cellAt_nat. intros Hc.
  destruct (nth_error scene y) as [row |] eqn:Hrow; [| discriminate].
  assert (Hy : (y < length scene)%nat)
    by (apply nth_error_Some; congruence).
  assert (Hx : (x < length row)%nat)
    by (apply nth_error_Some; congruence).
  pose proof (sceneSize_row scene row (nth_error_In _ _ Hrow)) as Hw.
  split; apply in_seq; (split; [lia |]); rewrite Nat.add_0_l;
    apply countBelow_spec.
  - rewrite sceneSize_height. now apply lt_INR.
  - apply lt_INR in Hx. lra.
Qed.

Lemma flat_map_split {A B : Type} (f : A -> list B) (xs : list A) (x : A) :
  In x xs -> exists pre post, flat_map f xs = pre ++ f x ++ post.
Proof.
  intros Hin. apply in_split in Hin. destruct Hin as (l1 & l2 & ->).
  exists (flat_map f l1), (flat_map f l2).
  rewrite flat_map_app. reflexivity.
Qed.

Lemma minimapCells_split (scene : Scene) (x y : nat) (c : Cell) :
  cellAt scene (Vector2.mk (INR x) (INR y)) = Some c ->
  exists pre post, minimapCells scene = pre ++ minimapCell scene x y ++ post.
Proof.
  intros Hc. destruct (cell_in_loops scene x y c Hc) as [Hy Hx].
  unfold minimapCells. cbn zeta.
  destruct (flat_map_split
              (fun y =>
                 flat_map (fun x => minimapCell scene x y)
                   (seq 0 (countBelow (Vector2.x (sceneSize scene)))))
              _ y Hy) as (pre & post & ->).
  destruct (flat_map_split (fun x => minimapCell scene x y) _ x Hx)
    as (pre' & post' & ->).
  exists (pre ++ pre'), (post' ++ post).
  now rewrite <- !app_assoc.
Qed.

Lemma minimapCells_in (scene : Scene) (c : CanvasCall) :
  In c (minimapCells scene) ->
  exists x y, In c (minimapCell scene x y).
Proof.
  unfold minimapCells. cbn zeta. intros Hin.
  apply in_flat_map in Hin. destruct Hin as (y & _ & Hin).
  apply in_flat_map in Hin. destruct Hin as (x & _ & Hin).
  now exists x, y.
Qed.

(** Outside the cell loops the minimap fills one rectangle, the
    background, and draws no image. *)
Lemma renderMinimap_in (player : Player.t) (position size : Vector2.t)
  (scene : Scene) (c : CanvasCall) :
  In c (renderMinimap player position size scene) ->
  In c (minimapCells scene) \/
  c = CallFillRect 0 0 (Vector2.x (sceneSize scene)) (Vector2.y (sceneSize scene)) \/
  match c with
  | CallFillRect _ _ _ _ | CallDrawImage _ _ _ _ _ => False
  | _ => True
  end.
Proof.
  unfold renderMinimap, minimapGrid. cbn zeta.
  destruct (Player.fovRange player) as [p1 p2].
  intros Hin.
  repeat (apply in_app_or in Hin; destruct Hin as [Hin | Hin]);
    try (left; exact Hin);
    try (apply in_flat_map in Hin; destruct Hin as (k & _ & Hin));
    simpl in Hin;
    repeat (destruct Hin as [<- | Hin]; [auto |]);
    try contradiction.
Qed.

Lemma renderMinimap_split (player : Player.t) (position size : Vector2.t)
  (scene : Scene) :
  exists pre post,
    renderMinimap player position size scene
    = pre ++ minimapCells scene ++ post.
Proof.
  unfold renderMinimap. cbn zeta.
  destruct (Player.fovRange player) as [p1 p2].
  eexists. eexists. reflexivity.
Qed.

(** X25: The minimap draws the scene cell by cell.  An image cell is drawn by
    one [drawImage] into the unit square at its column and row, and no
    other image is drawn; a colour cell is filled as a unit square at its
    column and row right after the fill style has been set to its colour;
    the only other rectangle filled is the background, the size of the
    grid.  A [null] cell and a place where the row is too short draw
    nothing. *)
Theorem renderMinimap_cells (player : Player.t) (position size : Vector2.t)
  (scene : Scene) :
  let calls := renderMinimap player position size scene in
  (forall x y img,
      In (CallDrawImage img (INR x) (INR y) 1 1) calls <->
      cellAt scene (Vector2.mk (INR x) (INR y)) = Some (Image img)) /\
  (forall img dx dy dw dh,
      In (CallDrawImage img dx dy dw dh) calls ->
      exists x y, dx = INR x /\ dy = INR y /\ dw = 1 /\ dh = 1) /\
  (forall x y color,
      cellAt scene (Vector2.mk (INR x) (INR y)) = Some (Flat color) ->
      exists pre post,
        calls
        = pre ++ [SetFillStyle (Rgba (Color.toStyle color));
                  CallFillRect (INR x) (INR y) 1 1] ++ post) /\
  (forall a b w h,
      In (CallFillRect a b w h) calls ->
      (a = 0 /\ b = 0 /\
       w = Vector2.x (sceneSize scene) /\ h = Vector2.y (sceneSize scene)) \/
      exists x y color,
        a = INR x /\ b = INR y /\ w = 1 /\ h = 1 /\
        cellAt scene (Vector2.mk (INR x) (INR y)) = Some (Flat color)).
Proof.
  intros calls. subst calls.
  destruct (renderMinimap_split player position size scene)
    as (pre0 & post0 & Hsplit).
  assert (Himg : forall img dx dy dw dh,
             In (CallDrawImage img dx dy dw dh)
               (renderMinimap player position size scene) ->
             exists x y, dx = INR x /\ dy = INR y /\ dw = 1 /\ dh = 1 /\
               cellAt scene (Vector2.mk (INR x) (INR y)) = Some (Image img)).
  { intros img dx dy dw dh Hin.
    apply renderMinimap_in in Hin.
    destruct Hin as [Hin | [Hin | []]]; [| discriminate].
    apply minimapCells_in in Hin. destruct Hin as (x & y & Hin).
    exists x, y. unfold minimapCell in Hin.
    destruct (cellAt scene (Vector2.mk (INR x) (INR y)))
      as [[| color | img'] |]; simpl in Hin.
    - contradiction.
    - destruct Hin as [Hin | [Hin | []]]; discriminate.
    - destruct Hin as [Hin | []]. injection Hin as <- <- <- <- <-.
      repeat split; reflexivity.
    - contradiction. }
  split; [| split; [| split]].
  - intros x y img. split.
    + intros Hin. destruct (Himg _ _ _ _ _ Hin) as (x' & y' & Hx & Hy & _ & _ & Hc).
      apply INR_eq in Hx, Hy. now subst x' y'.
    + intros Hc. destruct (minimapCells_split scene x y _ Hc) as (pre & post & E).
      rewrite Hsplit, E. unfold minimapCell. rewrite Hc.
      apply in_or_app. right. apply in_or_app. left.
      apply in_or_app. right. now left.
  - intros img dx dy dw dh Hin.
    destruct (Himg _ _ _ _ _ Hin) as (x & y & Hx & Hy & Hw & Hh & _).
    now exists x, y.
  - intros x y color Hc.
    destruct (minimapCells_split scene x y _ Hc) as (pre & post & E).
    rewrite Hsplit, E. unfold minimapCell. rewrite Hc.
    exists (pre0 ++ pre), (post ++ post0).
    now rewrite <- !app_assoc.
  - intros a b w h Hin.
    apply renderMinimap_in in Hin.
    destruct Hin as [Hin | [Hin | []]].
    + right. apply minimapCells_in in Hin. destruct Hin as (x & y & Hin).
      unfold minimapCell in Hin.
      destruct (cellAt scene (Vector2.mk (INR x) (INR y)))
        as [[| color | img'] |] eqn:Hc; simpl in Hin.
      * contradiction.
      * destruct Hin as [Hin | [Hin | []]]; [discriminate |].
        injection Hin as <- <- <- <-.
        exists x, y, color. repeat split; [reflexivity .. | exact Hc].
      * destruct Hin as [Hin | []]. discriminate.
      * contradiction.
    + left. injection Hin as -> -> -> ->. repeat split; reflexivity.
Qed.

(** ** renderGame *)

Lemma forallb_flat_map {A B : Type} (p : B -> bool) (f : A -> list B)
  (xs : list A) :
  (forall x, forallb p (f x) = true) -> forallb p (flat_map f xs) = true.
Proof.
  intros Hf. induction xs as [| x xs IH]; simpl; [reflexivity |].
  rewrite forallb_app, Hf, IH. reflexivity.
Qed.

Lemma minimapCells_no_transform (scene : Scene) :
  forallb (fun c => negb (isTransform c)) (minimapCells scene) = true.
Proof.
  unfold minimapCells. cbn zeta.
  apply forallb_flat_map. intros y. apply forallb_flat_map. intros x.
  unfold minimapCell.
  now destruct (cellAt scene (Vector2.mk (INR x) (INR y))) as [[| color | img] |].
Qed.

Lemma minimapGrid_no_transform (scene : Scene) :
  forallb (fun c => negb (isTransform c)) (minimapGrid scene) = true.
Proof.
  unfold minimapGrid. cbn zeta. rewrite forallb_app.
  rewrite !forallb_flat_map by reflexivity. reflexivity.
Qed.

(** The shape of the minimap's calls: its transform, set once and for
    cells that are squares of side [size.x / grid width] by
    [size.y / grid height]; then calls that leave the transform alone;
    then the restore. *)
Lemma renderMinimap_shape (player : Player.t) (position size : Vector2.t)
  (scene : Scene) :
  exists inner,
    renderMinimap player position size scene
    = [Save;
       Translate (Vector2.x position) (Vector2.y position);
       Scale (Vector2.x size / Vector2.x (sceneSize scene))
         (Vector2.y size / Vector2.y (sceneSize scene))]
      ++ inner ++ [Restore] /\
    forallb (fun c => negb (isTransform c)) inner = true.
Proof.
  unfold renderMinimap. cbn zeta.
  destruct (Player.fovRange player) as [p1 p2].
  exists ([SetFillStyle (Css "#181818"%string);
           CallFillRect 0 0 (Vector2.x (sceneSize scene))
             (Vector2.y (sceneSize scene));
           SetLineWidth 0.06]
          ++ minimapCells scene
          ++ [SetStrokeStyle (Css "#303030"%string)]
          ++ minimapGrid scene
          ++ [SetFillStyle (Css "magenta"%string)]
          ++ fillCircle (Player.position player) 0.2
          ++ [SetStrokeStyle (Css "magenta"%string)]
          ++ strokeLine (Player.position player) p1
          ++ strokeLine (Player.position player) p2
          ++ strokeLine p1 p2).
  split.
  - rewrite <- !app_assoc. reflexivity.
  - rewrite !forallb_app.
    rewrite minimapCells_no_transform, minimapGrid_no_transform.
    reflexivity.
Qed.

(** X26: One frame of drawing, for a scene with at least one row: the canvas is
    cleared to the background colour, the strips of [renderScene] are
    drawn, and the minimap is drawn last, on top, between one [save] and
    one [restore] that are the only calls touching the transform.  The
    minimap is placed at 3% of the canvas size from the corner and its
    cells are squares with a side of 3% of the canvas width. *)
Theorem renderGame_layers (canvas : Canvas) (player : Player.t)
  (scene : Scene) :
  scene <> [] ->
  exists strips inner,
    renderScene castRayFuel canvas player scene = Some strips /\
    renderGame castRayFuel canvas player scene
    = Some ([SetFillStyle (Css "#181818"%string);
             CallFillRect 0 0 (canvas_width canvas) (canvas_height canvas)]
            ++ map Strip strips
            ++ [Save;
                Translate (canvas_width canvas * 0.03)
                  (canvas_height canvas * 0.03);
                Scale (canvas_width canvas * 0.03) (canvas_width canvas * 0.03)]
            ++ inner ++ [Restore]) /\
    forallb (fun c => negb (isTransform c)) inner = true.
Proof.
  intros Hne.
  pose proof (renderColumns_flat_map canvas player scene (seq 0 800)) as Hs.
  destruct (renderMinimap_shape player
              (Vector2.scale (canvasSize canvas) 0.03)
              (Vector2.scale (sceneSize scene) (canvas_width canvas * 0.03))
              scene) as (inner & Hshape & Hinner).
  eexists. exists inner.
  split; [unfold renderScene; exact Hs |]. split; [| exact Hinner].
  unfold renderGame, renderScene. rewrite Hs, Hshape.
  assert (Hw : 0 < Vector2.x (sceneSize scene)).
  { rewrite sceneSize_width.
    eapply Rlt_le_trans; [apply MIN_VALUE_pos | apply Rmax_l]. }
  assert (Hh : 0 < Vector2.y (sceneSize scene)).
  { rewrite sceneSize_height. destruct scene; [contradiction |].
    apply lt_0_INR. simpl. lia. }
  cbn [Vector2.scale Vector2.x Vector2.y canvasSize].
  replace (Vector2.x (sceneSize scene) * (canvas_width canvas * 0.03)
           / Vector2.x (sceneSize scene))
    with (canvas_width canvas * 0.03) by (field; lra).
  replace (Vector2.y (sceneSize scene) * (canvas_width canvas * 0.03)
           / Vector2.y (sceneSize scene))
    with (canvas_width canvas * 0.03) by (field; lra).
  reflexivity.
Qed.

Lemma renderGame_layers_witness :
  exists strips inner,
    renderScene castRayFuel screen400 watcher corridor = Some strips /\
    renderGame castRayFuel screen400 watcher corridor
    = Some ([SetFillStyle (Css "#181818"%string);
             CallFillRect 0 0 (canvas_width screen400) (canvas_height screen400)]
            ++ map Strip strips
            ++ [Save;
                Translate (canvas_width screen400 * 0.03)
                  (canvas_height screen400 * 0.03);
                Scale (canvas_width screen400 * 0.03)
                  (canvas_width screen400 * 0.03)]
            ++ inner ++ [Restore]) /\
    forallb (fun c => negb (isTransform c)) inner = true.
Proof.
  apply (renderGame_layers screen400 watcher corridor). discriminate.
Defined.

(** ** The scene with no rows *)

Lemma flat_map_nil {A B : Type} (f : A -> list B) (xs : list A) :
  (forall x, f x = []) -> flat_map f xs = [].
Proof.
  intros Hf. induction xs as [| x xs IH]; simpl; [reflexivity |].
  now rewrite Hf, IH.
Qed.

Lemma insideScene_empty (p : Vector2.t) : insideScene [] p = false.
Proof.
  destruct (insideScene [] p) eqn:E; [| reflexivity].
  apply insideScene_iff in E. simpl in E. lra.
Qed.

(** X16: The scene with no rows has no inside: no ray tip is a hit, every cast
    along a proper ray runs to the far plane, [renderScene] returns without
    drawing a strip, and every frame moves the player to where the keys
    take it. *)
Theorem empty_scene_open (p1 p2 : Vector2.t) (canvas : Canvas)
  (viewer : Player.t) (input : Input) (s : Session) (timestamp : R) :
  insideScene [] p2 = false /\
  hit [] p1 p2 = false /\
  (forall fuel r,
      castRay fuel [] p1 p2 = Some r ->
      exists n, r = snd (rayStates n p1 p2) /\
                clipped p1 (fst (rayStates n p1 p2)) = true) /\
  renderScene castRayFuel canvas viewer [] = Some [] /\
  Player.position (player (frame [] input s timestamp))
  = towards input s timestamp.
Proof.
  assert (Hhit : forall q1 q2, hit [] q1 q2 = false).
  { intros q1 q2. unfold hit. now rewrite insideScene_empty. }
  split; [apply insideScene_empty |]. split; [apply Hhit |].
  split; [| split].
  - intros fuel r Hcast. unfold castRay in Hcast.
    apply castRayLoop_first_exit in Hcast.
    destruct Hcast as (n & _ & Hr & Hexit & _).
    exists n. split; [exact Hr |].
    unfold exits in Hexit. now rewrite Hhit, orb_false_r in Hexit.
  - unfold renderScene. rewrite renderColumns_flat_map. f_equal.
    apply flat_map_nil. intros x. unfold renderColumn.
    rewrite (surjective_pairing (Player.fovRange viewer)).
    destruct (castRay castRayFuel [] (Player.position viewer) _) as [p |];
      [| reflexivity].
    unfold renderStrip. now rewrite insideScene_empty.
  - rewrite frame_position. unfold commits.
    now rewrite insideScene_empty.
Qed.

(** ** The strips across the canvas *)

Lemma stripWidth_bounds (canvas : Canvas) :
  0 < canvas_width canvas ->
  1 <= Math.ceil (canvas_width canvas / SCREEN_WIDTH) /\
  canvas_width canvas
  <= SCREEN_WIDTH * Math.ceil (canvas_width canvas / SCREEN_WIDTH).
Proof.
  intros Hw. unfold SCREEN_WIDTH.
  pose proof (ceil_bounds (canvas_width canvas / 800)) as Hc.
  unfold Math.ceil in *.
  set (n := (- Int_part (- (canvas_width canvas / 800)))%Z) in *.
  assert (Hq : 0 < canvas_width canvas / 800) by lra.
  split; [| lra].
  assert (Hn : (0 < n)%Z) by (apply lt_IZR; lra).
  apply (IZR_le 1). lia.
Qed.

(** X22: the strips tile the canvas.  Every strip [renderStrip] draws for
    column [x] starts at [x * stripWidth]; the [drawImage] of an image
    cell is [stripWidth] wide and the [fillRect] of a colour cell is one
    more, where [stripWidth], the ceiling of the canvas width over 800, is
    a whole number of pixels, at least 1.
    Every x of the canvas lies in the span [x * stripWidth,
    (x + 1) * stripWidth) of one of the 800 columns: the columns leave no
    gap, and when the canvas width is not a multiple of 800 the last
    columns lie beyond its right edge. *)
Theorem strips_tile_canvas (canvas : Canvas) (t : R) :
  0 < canvas_width canvas ->
  0 <= t < canvas_width canvas ->
  let stripWidth := Math.ceil (canvas_width canvas / SCREEN_WIDTH) in
  (exists n : Z, stripWidth = IZR n /\ (1 <= n)%Z) /\
  (forall player scene x p op,
      renderStrip canvas player scene x p = Some op ->
      opLeft op = x * stripWidth /\
      match op with
      | FillRect _ _ _ w _ =>
          w = stripWidth + 1 /\
          exists color,
            cellAt scene (hittingCell (Player.position player) p)
            = Some (Flat color)
      | DrawImage img _ _ _ _ _ _ dw _ =>
          dw = stripWidth /\
          cellAt scene (hittingCell (Player.position player) p)
          = Some (Image img)
      end) /\
  (exists x : nat,
      (x < 800)%nat /\
      INR x * stripWidth <= t < INR x * stripWidth + stripWidth) /\
  canvas_width canvas <= SCREEN_WIDTH * stripWidth
  < canvas_width canvas + SCREEN_WIDTH.
Proof.
  intros Hw Ht stripWidth.
  destruct (stripWidth_bounds canvas Hw) as [H1 Hcover].
  fold stripWidth in H1, Hcover.
  split; [| split; [| split]].
  - exists (- Int_part (- (canvas_width canvas / SCREEN_WIDTH)))%Z.
    split; [reflexivity |].
    apply le_IZR. exact H1.
  - intros player scene x p op Hop. unfold renderStrip in Hop.
    destruct (insideScene scene _); [| discriminate].
    destruct (cellAt scene _) as [[| color | img] |]; try discriminate;
      injection Hop as <-; simpl; fold stripWidth;
      (split; [reflexivity |]); (split; [reflexivity |]).
    + now exists color.
    + reflexivity.
  - set (k := Int_part (t / stripWidth)).
    pose proof (floor_bounds (t / stripWidth)) as Hf.
    unfold Math.floor in Hf. fold k in Hf.
    assert (Hq : 0 <= t / stripWidth).
    { apply Rmult_le_pos; [lra |].
      apply Rlt_le, Rinv_0_lt_compat. lra. }
    assert (Hq800 : t / stripWidth < 800).
    { apply Rmult_lt_reg_r with stripWidth; [lra |].
      unfold Rdiv. rewrite Rmult_assoc, Rinv_l by lra.
      unfold SCREEN_WIDTH in Hcover. lra. }
    assert (Hk0 : (0 <= k)%Z).
    { apply Z.lt_succ_r, lt_IZR. rewrite succ_IZR. lra. }
    assert (Hk800 : (k < 800)%Z) by (apply lt_IZR; lra).
    exists (Z.to_nat k). split; [lia |].
    rewrite INR_IZR_INZ, Z2Nat.id by exact Hk0.
    assert (Ht' : t = t / stripWidth * stripWidth) by (field; lra).
    split.
    + apply Rle_trans with (t / stripWidth * stripWidth);
        [apply Rmult_le_compat_r; lra | rewrite <- Ht'; apply Rle_refl].
    + replace (IZR k * stripWidth + stripWidth)
        with ((IZR k + 1) * stripWidth) by ring.
      apply Rle_lt_trans with (t / stripWidth * stripWidth);
        [rewrite <- Ht'; apply Rle_refl | apply Rmult_lt_compat_r; lra].
  - split; [exact Hcover |].
    pose proof (ceil_bounds (canvas_width canvas / SCREEN_WIDTH)) as Hc.
    fold stripWidth in Hc. unfold SCREEN_WIDTH in *. lra.
Qed.

Lemma strips_tile_canvas_witness :
  let stripWidth := Math.ceil (canvas_width screen400 / SCREEN_WIDTH) in
  (exists n : Z, stripWidth = IZR n /\ (1 <= n)%Z) /\
  (forall player scene x p op,
      renderStrip screen400 player scene x p = Some op ->
      opLeft op = x * stripWidth /\
      match op with
      | FillRect _ _ _ w _ =>
          w = stripWidth + 1 /\
          exists color,
            cellAt scene (hittingCell (Player.position player) p)
            = Some (Flat color)
      | DrawImage img _ _ _ _ _ _ dw _ =>
          dw = stripWidth /\
          cellAt scene (hittingCell (Player.position player) p)
          = Some (Image img)
      end) /\
  (exists x : nat,
      (x < 800)%nat /\
      INR x * stripWidth <= 801 < INR x * stripWidth + stripWidth) /\
  canvas_width screen400 <= SCREEN_WIDTH * stripWidth
  < canvas_width screen400 + SCREEN_WIDTH.
Proof.
  apply (strips_tile_canvas screen400 801); simpl; lra.
Defined.

(** * Part VI: the arithmetic kernel in binary64 *)

(** ** Numbers *)

Lemma Prim2SF_zero : Prim2SF 0%float = S754_zero false.
Proof. vm_compute. reflexivity. Qed.

Lemma Prim2SF_infinity : Prim2SF PrimFloat.infinity = S754_infinity false.
Proof. vm_compute. reflexivity. Qed.

(** A finite number is a zero or has a sign, a mantissa and an exponent. *)
Lemma finite_cases (v : PrimFloat.float) :
  PrimFloat.is_finite v = true ->
  (exists s, Prim2SF v = S754_zero s) \/
  (exists s m e, Prim2SF v = S754_finite s m e).
Proof.
  unfold PrimFloat.is_finite, PrimFloat.is_nan, PrimFloat.is_infinity.
  rewrite !eqb_spec, abs_spec, Prim2SF_infinity.
  destruct (Prim2SF v) as [s | s | | s m e]; simpl.
  - intros _. left. now exists s.
  - intros H. destruct s; discriminate.
  - discriminate.
  - intros _. right. now exists s, m, e.
Qed.

Lemma number_eqb_refl (v : PrimFloat.float) :
  PrimFloat.is_nan v = false -> (v =? v)%float = true.
Proof.
  unfold PrimFloat.is_nan. intros H. now apply negb_false_iff in H.
Qed.

Lemma nan_cases (v : PrimFloat.float) :
  PrimFloat.is_nan v = false -> Prim2SF v <> S754_nan.
Proof.
  intros H E. apply number_eqb_refl in H.
  rewrite eqb_spec, E in H. discriminate.
Qed.

(** A finite number times zero is a zero. *)
Lemma mul_zero_finite (d : PrimFloat.float) :
  PrimFloat.is_finite d = true ->
  exists s, Prim2SF (d * 0)%float = S754_zero s.
Proof.
  intros Hd. rewrite mul_spec, Prim2SF_zero.
  destruct (finite_cases d Hd) as [[s ->] | (s & m & e & ->)];
    eexists; reflexivity.
Qed.

(** A zero plus a number is that number, up to the sign of a zero. *)
Lemma add_zero_number (z a : PrimFloat.float) (s : bool) :
  Prim2SF z = S754_zero s ->
  PrimFloat.is_nan a = false ->
  (z + a =? a)%float = true.
Proof.
  intros Hz Ha. pose proof (number_eqb_refl a Ha) as Hrefl.
  pose proof (nan_cases a Ha) as Hnan.
  destruct (Prim2SF a) as [sa | sa | | sa m e] eqn:Ea.
  - rewrite eqb_spec, add_spec, Hz, Ea. destruct s, sa; reflexivity.
  - assert (E : (z + a)%float = a).
    { apply Prim2SF_inj. rewrite add_spec, Hz, Ea. reflexivity. }
    now rewrite E.
  - contradiction.
  - assert (E : (z + a)%float = a).
    { apply Prim2SF_inj. rewrite add_spec, Hz, Ea. reflexivity. }
    now rewrite E.
Qed.

(** When the difference [b - a] is finite, [a] is not NaN. *)
Lemma sub_finite_number (a b : PrimFloat.float) :
  PrimFloat.is_finite (b - a)%float = true -> PrimFloat.is_nan a = false.
Proof.
  intros H. destruct (PrimFloat.is_nan a) eqn:Ha; [| reflexivity].
  exfalso. unfold PrimFloat.is_nan in Ha. apply negb_true_iff in Ha.
  assert (Ea : Prim2SF a = S754_nan).
  { rewrite eqb_spec in Ha.
    destruct (Prim2SF a) as [sa | sa | | sa m e]; try reflexivity;
      exfalso; simpl in Ha.
    - discriminate.
    - destruct sa; discriminate.
    - unfold SFeqb, SFcompare in Ha.
      rewrite Z.compare_refl, Pos.compare_cont_refl in Ha.
      destruct sa; discriminate. }
  destruct (finite_cases _ H) as [[s E] | (s & m & e & E)];
    rewrite sub_spec, Ea in E;
    destruct (Prim2SF b); discriminate.
Qed.

(** [v - v] is a zero, or NaN when [v] is no finite number; in both cases
    it compares neither above nor below zero. *)
Lemma sub_self_cases (v : PrimFloat.float) :
  Prim2SF (v - v)%float = S754_zero false \/ Prim2SF (v - v)%float = S754_nan.
Proof.
  rewrite sub_spec.
  destruct (Prim2SF v) as [s | s | | s m e].
  - left. destruct s; reflexivity.
  - right. destruct s; reflexivity.
  - right. reflexivity.
  - left. unfold SF64sub, SFsub. cbv zeta.
    rewrite Z.sub_diag. reflexivity.
Qed.

Lemma sub_self_finite (v : PrimFloat.float) :
  PrimFloat.is_finite v = true -> (v - v =? 0)%float = true.
Proof.
  intros H. rewrite eqb_spec, Prim2SF_zero, sub_spec.
  destruct (finite_cases v H) as [[s ->] | (s & m & e & ->)].
  - destruct s; reflexivity.
  - unfold SF64sub, SFsub. cbv zeta. rewrite Z.sub_diag. reflexivity.
Qed.

Lemma sub_self_not_positive (v : PrimFloat.float) :
  (0 <? v - v)%float = false /\ (v - v <? 0)%float = false.
Proof.
  rewrite !ltb_spec, Prim2SF_zero.
  destruct (sub_self_cases v) as [-> | ->]; split; reflexivity.
Qed.

(** Equal numbers are not one below the other. *)
Lemma eqb_not_ltb (a b : PrimFloat.float) :
  (a =? b)%float = true -> (b <? a)%float = false.
Proof.
  rewrite eqb_spec, ltb_spec. unfold SFeqb, SFltb.
  destruct (Prim2SF a) as [sa | sa | | sa ma ea],
           (Prim2SF b) as [sb | sb | | sb mb eb];
    try (simpl;
         repeat match goal with s : bool |- _ => destruct s end;
         simpl; first [discriminate | reflexivity]).
  unfold SFcompare.
  destruct sa, sb; try discriminate; try reflexivity;
    (destruct (Z.compare ea eb) eqn:Ee; try discriminate;
     apply Z.compare_eq in Ee; subst eb; rewrite Z.compare_refl;
     destruct (Pos.compare_cont Eq ma mb) eqn:Em; try discriminate;
     apply Pos.compare_eq in Em; subst mb;
     now rewrite Pos.compare_cont_refl).
Qed.

Lemma ltb_asym (a b : PrimFloat.float) :
  (a <? b)%float = true -> (b <? a)%float = false.
Proof.
  rewrite !ltb_spec. unfold SFltb.
  destruct (Prim2SF a) as [sa | sa | | sa ma ea],
           (Prim2SF b) as [sb | sb | | sb mb eb];
    try (simpl;
         repeat match goal with s : bool |- _ => destruct s end;
         simpl; first [discriminate | reflexivity]).
  unfold SFcompare.
  assert (Em : Pos.compare_cont Eq mb ma = CompOpp (Pos.compare_cont Eq ma mb))
    by (rewrite Pos.compare_cont_antisym; reflexivity).
  rewrite (Z.compare_antisym ea eb), Em.
  destruct sa, sb; try discriminate; try reflexivity;
    destruct (Z.compare ea eb); simpl; try discriminate; try reflexivity;
    destruct (Pos.compare_cont Eq ma mb); simpl;
    try discriminate; reflexivity.
Qed.

(** ** Vector2.lerp *)

(** C4: [lerp(a, b, alpha)] computes [(b - a) * alpha + a] on each
    coordinate.  In binary64 [lerp(a, b, 0) == a] whenever the differences
    [b - a] are finite; in exact arithmetic [lerp(a, b, 0)] is [a],
    [lerp(a, b, 1)] is [b] and [lerp] is affine in [alpha]. *)
Theorem lerp_endpoints_rounded :
  (forall (a b : B64.Vector2.t) (alpha : PrimFloat.float),
      B64.Vector2.lerp a b alpha
      = B64.Vector2.mk
          ((B64.Vector2.x b - B64.Vector2.x a) * alpha + B64.Vector2.x a)%float
          ((B64.Vector2.y b - B64.Vector2.y a) * alpha + B64.Vector2.y a)%float)
  /\
  (forall a b : B64.Vector2.t,
      PrimFloat.is_finite (B64.Vector2.x b - B64.Vector2.x a)%float = true ->
      PrimFloat.is_finite (B64.Vector2.y b - B64.Vector2.y a)%float = true ->
      (B64.Vector2.x (B64.Vector2.lerp a b 0) =? B64.Vector2.x a)%float = true /\
      (B64.Vector2.y (B64.Vector2.lerp a b 0) =? B64.Vector2.y a)%float = true)
  /\
  (forall a b : Vector2.t,
      Vector2.lerp a b 0 = a /\
      Vector2.lerp a b 1 = b /\
      (forall alpha,
          Vector2.lerp a b alpha
          = Vector2.add a (Vector2.scale (Vector2.sub b a) alpha)) /\
      (forall s alpha beta,
          Vector2.lerp a b (s * alpha + (1 - s) * beta)
          = Vector2.add (Vector2.scale (Vector2.lerp a b alpha) s)
              (Vector2.scale (Vector2.lerp a b beta) (1 - s)))).
Proof.
  split; [reflexivity |]. split; [| exact lerp_endpoints_affine].
  intros a b Hx Hy.
  unfold B64.Vector2.lerp, B64.Vector2.add, B64.Vector2.scale, B64.Vector2.sub.
  cbn [B64.Vector2.x B64.Vector2.y].
  destruct (mul_zero_finite _ Hx) as [sx Ex].
  destruct (mul_zero_finite _ Hy) as [sy Ey].
  split.
  - apply (add_zero_number _ _ sx Ex). now apply sub_finite_number in Hx.
  - apply (add_zero_number _ _ sy Ey). now apply sub_finite_number in Hy.
Qed.

(** In binary64 [0.2.lerp(0.9, 1)] is 0.8999999999999999, not 0.9, while
    [0.2.lerp(0.9, 0)] is 0.2. *)
Lemma lerp_endpoint_one_rounded :
  B64.Vector2.lerp (B64.Vector2.mk 0.2 0.2) (B64.Vector2.mk 0.9 0.9) 1
  = B64.Vector2.mk 0.8999999999999999 0.8999999999999999 /\
  (0.8999999999999999 =? 0.9)%float = false /\
  B64.Vector2.lerp (B64.Vector2.mk 0.2 0.2) (B64.Vector2.mk 0.9 0.9) 0
  = B64.Vector2.mk 0.2 0.2.
Proof. vm_compute. repeat split; reflexivity. Qed.

(** ** Vector2.norm *)

(** C9: [norm] never fails.  It returns the zero vector when the computed
    length [Math.sqrt(x * x + y * y)] is 0, as it is for the zero vector,
    and otherwise the vector divided by the computed length.  In exact
    arithmetic the length is 0 only for the zero vector, and of any other
    vector [norm] is the vector divided by its Euclidean length. *)
Theorem norm_zero_length :
  B64.Vector2.norm B64.Vector2.zero = B64.Vector2.zero /\
  (forall v : B64.Vector2.t,
      (B64.Vector2.length v =? 0)%float = true ->
      B64.Vector2.norm v = B64.Vector2.zero) /\
  (forall v : B64.Vector2.t,
      (B64.Vector2.length v =? 0)%float = false ->
      B64.Vector2.norm v
      = B64.Vector2.mk (B64.Vector2.x v / B64.Vector2.length v)%float
          (B64.Vector2.y v / B64.Vector2.length v)%float) /\
  (forall v : B64.Vector2.t,
      B64.Vector2.length v
      = PrimFloat.sqrt (B64.Vector2.x v * B64.Vector2.x v
                        + B64.Vector2.y v * B64.Vector2.y v)%float) /\
  (forall v : Vector2.t,
      v <> Vector2.zero ->
      Vector2.length v <> 0 /\
      Vector2.norm v
      = Vector2.mk (Vector2.x v / Vector2.length v)
          (Vector2.y v / Vector2.length v)).
Proof.
  split; [vm_compute; reflexivity |].
  split; [intros v H; unfold B64.Vector2.norm; cbv zeta; now rewrite H |].
  split; [intros v H; unfold B64.Vector2.norm; cbv zeta; now rewrite H |].
  split; [reflexivity |].
  intros v Hv. destruct (norm_total v) as [_ H].
  destruct (H Hv) as (Hl & _ & Hn). now split.
Qed.

(** The squares of (1e-200, 0) underflow: its computed length is 0 and
    [norm] returns the zero vector, not (1, 0).  The squares of (1e200, 0)
    overflow: its computed length is [Infinity] and [norm] returns the
    zero vector again. *)
Lemma norm_underflow :
  (1e-200 =? 0)%float = false /\
  B64.Vector2.length (B64.Vector2.mk 1e-200 0) = 0%float /\
  B64.Vector2.norm (B64.Vector2.mk 1e-200 0) = B64.Vector2.mk 0 0 /\
  B64.Vector2.length (B64.Vector2.mk 1e200 0) = PrimFloat.infinity /\
  B64.Vector2.norm (B64.Vector2.mk 1e200 0) = B64.Vector2.mk 0 0 /\
  B64.Vector2.norm (B64.Vector2.mk 3 4) = B64.Vector2.mk 0.6 0.8.
Proof. vm_compute. repeat split; reflexivity. Qed.

(** ** snap *)

Lemma upFrom_in (count : nat) (z n : Z) :
  (z <= n < z + Z.of_nat count)%Z -> In n (upFrom z count).
Proof.
  revert z. induction count as [| count IH]; intros z Hn; [lia |].
  cbn [upFrom]. destruct (Z.eq_dec z n) as [-> | Hne]; [now left |].
  right. apply IH. lia.
Qed.

Lemma gridLines_in (bound : nat) (n : Z) :
  (- Z.of_nat bound <= n <= Z.of_nat bound)%Z -> In n (gridLines bound).
Proof.
  intros Hn. unfold gridLines. apply upFrom_in. lia.
Qed.

Lemma gridLines_snap : forallb snapsToNext (gridLines 4096) = true.
Proof. vm_compute. reflexivity. Qed.

(** X8: from every grid line [n] between -4096 and 4096, [snap] goes to
    the next grid line in the direction of the delta: [n + 1] for a
    positive delta and [n - 1] for a negative one; with a zero delta it
    returns its argument.  This stops where [EPS] is absorbed by the
    coordinate: [snap(2^30, 1)] is [2^30]. *)
Theorem snap_next_grid_line (n : Z) (dx : PrimFloat.float) :
  (-4096 <= n <= 4096)%Z ->
  ((0 <? dx)%float = true ->
   (B64.snap (B64.Math.ofZ n) dx =? B64.Math.ofZ (n + 1))%float = true) /\
  ((dx <? 0)%float = true ->
   (B64.snap (B64.Math.ofZ n) dx =? B64.Math.ofZ (n - 1))%float = true) /\
  (forall x, B64.snap x 0 = x) /\
  B64.snap 1073741824 1 = 1073741824%float /\
  B64.snap (-1073741824) (-1) = (-1073741824)%float.
Proof.
  intros Hn.
  pose proof gridLines_snap as Hall.
  rewrite forallb_forall in Hall.
  specialize (Hall n (gridLines_in 4096 n Hn)).
  unfold snapsToNext in Hall. apply andb_true_iff in Hall.
  destruct Hall as [Hup Hdown].
  assert (H1 : (0 <? 1)%float = true) by (vm_compute; reflexivity).
  assert (H2 : (0 <? -1)%float = false) by (vm_compute; reflexivity).
  assert (H3 : (-1 <? 0)%float = true) by (vm_compute; reflexivity).
  unfold B64.snap in Hup, Hdown. rewrite H1 in Hup. rewrite H2, H3 in Hdown.
  split; [| split; [| split; [| split]]].
  - intros Hd. unfold B64.snap. rewrite Hd. exact Hup.
  - intros Hd. unfold B64.snap. rewrite (ltb_asym _ _ Hd), Hd. exact Hdown.
  - intros x. vm_compute. reflexivity.
  - vm_compute. reflexivity.
  - vm_compute. reflexivity.
Qed.

(** From the grid line 7, a delta of 0.5 leads to 8 and a delta of -0.5
    to 6. *)
Lemma snap_next_grid_line_witness :
  (-4096 <= 7 <= 4096)%Z /\
  (0 <? 0.5)%float = true /\
  (B64.snap (B64.Math.ofZ 7) 0.5 =? B64.Math.ofZ (7 + 1))%float = true /\
  (-0.5 <? 0)%float = true /\
  (B64.snap (B64.Math.ofZ 7) (-0.5) =? B64.Math.ofZ (7 - 1))%float = true.
Proof.
  assert (Hn : (-4096 <= 7 <= 4096)%Z) by lia.
  assert (Hup : (0 <? 0.5)%float = true) by (vm_compute; reflexivity).
  assert (Hdown : (-0.5 <? 0)%float = true) by (vm_compute; reflexivity).
  split; [exact Hn |]. split; [exact Hup |].
  split; [| split; [exact Hdown |]].
  - exact (proj1 (snap_next_grid_line 7 0.5 Hn) Hup).
  - exact (proj1 (proj2 (snap_next_grid_line 7 (-0.5) Hn)) Hdown).
Defined.

(** ** rayStep *)

Lemma rayStep64_cases (p1 p2 : B64.Vector2.t) :
  B64.rayStep p1 p2 =
  if negb (B64.Vector2.x p2 - B64.Vector2.x p1 =? 0)%float then
    if negb (slope64 p1 p2 =? 0)%float then
      if (B64.Vector2.sqrDistanceTo p2 (horizontalCrossing64 p1 p2)
          <? B64.Vector2.sqrDistanceTo p2 (verticalCrossing64 p1 p2))%float
      then horizontalCrossing64 p1 p2
      else verticalCrossing64 p1 p2
    else verticalCrossing64 p1 p2
  else
    B64.Vector2.mk (B64.Vector2.x p2)
      (B64.snap (B64.Vector2.y p2) (B64.Vector2.y p2 - B64.Vector2.y p1)%float).
Proof. reflexivity. Qed.

Lemma part000_rayStep64_cases (p1 p2 : B64.Vector2.t) :
  B64.Part000.rayStep p1 p2 =
  if negb (B64.Vector2.x p2 - B64.Vector2.x p1 =? 0)%float then
    if negb (slope64 p1 p2 =? 0)%float then
      if (B64.Vector2.distanceTo p2 (horizontalCrossing64 p1 p2)
          <? B64.Vector2.distanceTo p2 (verticalCrossing64 p1 p2))%float
      then horizontalCrossing64 p1 p2
      else verticalCrossing64 p1 p2
    else verticalCrossing64 p1 p2
  else
    B64.Vector2.mk (B64.Vector2.x p2)
      (B64.snap (B64.Vector2.y p2) (B64.Vector2.y p2 - B64.Vector2.y p1)%float).
Proof. reflexivity. Qed.




(** X3: in exact arithmetic the stepper of the earlier version, which
    compares distances, returns the same point as [rayStep], which
    compares squared distances.  In binary64 the two choose between the
    same two candidates but not always the same one: from (-1, -0.6)
    through (0, 0.2) the current stepper returns (0.9999999999999999, 1)
    and the earlier one (1, 1). *)
Theorem rayStep_part000_candidates (p1 p2 : B64.Vector2.t) :
  (B64.Part000.rayStep p1 p2 = B64.rayStep p1 p2 \/
   (B64.rayStep p1 p2 = horizontalCrossing64 p1 p2 /\
    B64.Part000.rayStep p1 p2 = verticalCrossing64 p1 p2) \/
   (B64.rayStep p1 p2 = verticalCrossing64 p1 p2 /\
    B64.Part000.rayStep p1 p2 = horizontalCrossing64 p1 p2)) /\
  ((B64.Vector2.distanceTo p2 (horizontalCrossing64 p1 p2)
    <? B64.Vector2.distanceTo p2 (verticalCrossing64 p1 p2))%float
   = (B64.Vector2.sqrDistanceTo p2 (horizontalCrossing64 p1 p2)
      <? B64.Vector2.sqrDistanceTo p2 (verticalCrossing64 p1 p2))%float ->
   B64.Part000.rayStep p1 p2 = B64.rayStep p1 p2) /\
  B64.rayStep (B64.Vector2.mk (-1) (-0.6)) (B64.Vector2.mk 0 0.2)
  = B64.Vector2.mk 0.9999999999999999 1 /\
  B64.Part000.rayStep (B64.Vector2.mk (-1) (-0.6)) (B64.Vector2.mk 0 0.2)
  = B64.Vector2.mk 1 1 /\
  (forall q1 q2 : Vector2.t, Part000.rayStep q1 q2 = rayStep q1 q2).
Proof.
  split; [| split; [| split; [| split]]].
  - rewrite rayStep64_cases, part000_rayStep64_cases.
    destruct (negb _); [| now left].
    destruct (negb _); [| now left].
    destruct (_ <? _)%float, (_ <? _)%float; auto.
  - intros Hsame. rewrite rayStep64_cases, part000_rayStep64_cases, Hsame.
    reflexivity.
  - vm_compute. reflexivity.
  - vm_compute. reflexivity.
  - exact rayStep_agrees_with_part000.
Qed.

(** ** castRay *)

Lemma rayStep64_self (p : B64.Vector2.t) :
  PrimFloat.is_finite (B64.Vector2.x p) = true -> B64.rayStep p p = p.
Proof.
  intros Hx. rewrite rayStep64_cases, (sub_self_finite _ Hx).
  cbn [negb]. unfold B64.snap.
  destruct (sub_self_not_positive (B64.Vector2.y p)) as [-> ->].
  now destruct p.
Qed.

Lemma castRayLoop64_unfold (fuel : nat) (scene : Scene)
  (start p1 p2 : B64.Vector2.t) :
  B64.castRayLoop (S fuel) scene start p1 p2 =
  if clipped64 start p1 || hit64 scene p1 p2 then Some p2
  else B64.castRayLoop fuel scene start p2 (B64.rayStep p1 p2).
Proof.
  unfold clipped64, hit64. cbn [B64.castRayLoop].
  destruct (_ <? _)%float; cbn [negb orb]; [| reflexivity].
  destruct (_ && _); reflexivity.
Qed.

(** A pair that is its own successor and does not make the loop exit
    keeps it running. *)
Lemma castRayLoop64_stuck (scene : Scene) (start p : B64.Vector2.t) :
  B64.rayStep p p = p ->
  clipped64 start p = false ->
  hit64 scene p p = false ->
  forall fuel, B64.castRayLoop fuel scene start p p = None.
Proof.
  intros Hstep Hclip Hhit fuel.
  induction fuel as [| fuel IH]; [reflexivity |].
  now rewrite castRayLoop64_unfold, Hclip, Hhit, Hstep.
Qed.

(** X17: a cast whose first step makes no progress never returns.  When
    [rayStep(p1, p2)] is [p2] again, the pair is short of the far plane
    and neither [(p1, p2)] nor [(p2, p2)] is a hit, [castRay] returns for
    no number of turns of its loop.  This happens for distinct [p1] and
    [p2]: from 2^30 on [EPS] is absorbed by the coordinate, and the ray
    from (2^30, 0.5) through (2^30 + 1, 0.5) stays at (2^30 + 1, 0.5). *)
Theorem castRay_stalls (scene : Scene) (p1 p2 : B64.Vector2.t) :
  B64.rayStep p1 p2 = p2 ->
  PrimFloat.is_finite (B64.Vector2.x p2) = true ->
  clipped64 p1 p1 = false -> clipped64 p1 p2 = false ->
  hit64 scene p1 p2 = false -> hit64 scene p2 p2 = false ->
  forall fuel, B64.castRay fuel scene p1 p2 = None.
Proof.
  intros Hstep Hfin Hc1 Hc2 Hh1 Hh2 fuel. unfold B64.castRay. cbv zeta.
  destruct fuel as [| fuel]; [reflexivity |].
  rewrite castRayLoop64_unfold, Hc1, Hh1, Hstep. cbn [orb].
  apply castRayLoop64_stuck; [now apply rayStep64_self | exact Hc2 | exact Hh2].
Qed.

Lemma castRay_stalls_witness :
  (1073741824 =? 1073741825)%float = false /\
  B64.rayStep (B64.Vector2.mk 1073741824 0.5) (B64.Vector2.mk 1073741825 0.5)
  = B64.Vector2.mk 1073741825 0.5 /\
  forall fuel,
    B64.castRay fuel emptyRoom (B64.Vector2.mk 1073741824 0.5)
      (B64.Vector2.mk 1073741825 0.5) = None.
Proof.
  split; [vm_compute; reflexivity |]. split; [vm_compute; reflexivity |].
  apply (castRay_stalls emptyRoom (B64.Vector2.mk 1073741824 0.5)
           (B64.Vector2.mk 1073741825 0.5));
    vm_compute; reflexivity.
Defined.
